(** * AllocX: stack, pool and free-list allocators

  A shallow embedding of the three allocator engines of AllocX
  (src/stack_allocator.cpp, src/pool_allocator.cpp, the free-list
  allocator) and of the layout arithmetic of include/allocx/utils.hpp,
  followed by the properties of the specification that were checked
  against them.

  Conventions.
  - [size_t], [uintptr_t] and pointers are 64-bit unsigned integers
    (LP64, little endian).  They are modelled as [Z] and every
    arithmetic operation of the source is followed by [wrap].
  - The null pointer is the address [0].
  - The backing region is part of a byte-addressed memory [mem]; the
    headers of the free-list allocator and the link words of the pool are
    read from and written to it byte by byte, exactly where the source
    puts them.
  - Loops whose trip count depends on a linked list in memory take a
    [fuel] argument and return [None] when it runs out. *)

From Stdlib Require Import ZArith List Bool Lia.
Import ListNotations.
Local Open Scope Z_scope.

(* ================================================================== *)
(** * Part I. The model                                                *)
(* ================================================================== *)

(** ** Platform constants (LP64) *)
Module Platform.

(** [SIZE_MOD] is 2^64: the number of values of a [size_t]. *)
Definition SIZE_MOD : Z := 18446744073709551616.
Definition SIZE_MAX : Z := SIZE_MOD - 1.

(** Unsigned wrap-around of [size_t] / [uintptr_t] arithmetic. *)
Definition wrap (x : Z) : Z := x mod SIZE_MOD.

(** [~x] on a [size_t]. *)
Definition size_not (x : Z) : Z := wrap (Z.lnot x).

(** [sizeof(void* )]. *)
Definition SIZEOF_PTR : Z := 8.

(** [alignof(std::max_align_t)]. *)
Definition MAX_ALIGN : Z := 16.

End Platform.
Export Platform.

(** ** Byte-addressed memory *)
Module Memory.

(** A memory maps every address to the byte stored there.  Nothing is
    assumed about cells that were never written: theorems quantify over
    the initial memory. *)
Definition mem : Type := Z -> Z.

Definition load8 (m : mem) (a : Z) : Z := m a mod 256.

Definition store8 (m : mem) (a v : Z) : mem :=
  fun x => if x =? a then v mod 256 else m x.

(** Little-endian load and store of an [n]-byte unsigned integer. *)
Fixpoint load_le (n : nat) (m : mem) (a : Z) : Z :=
  match n with
  | O => 0
  | S k => load8 m a + 256 * load_le k m (a + 1)
  end.

Fixpoint store_le (n : nat) (m : mem) (a v : Z) : mem :=
  match n with
  | O => m
  | S k => store_le k (store8 m a v) (a + 1) (v / 256)
  end.

(** A [size_t] or a pointer in memory. *)
Definition load64 : mem -> Z -> Z := load_le 8.
Definition store64 : mem -> Z -> Z -> mem := store_le 8.

(** The memory in which every byte is zero (a zero-initialised buffer). *)
Definition zeroed : mem := fun _ => 0.

End Memory.
Export Memory.

(** ** include/allocx/utils.hpp *)
Module utils.

(** [(value + alignment - 1) & ~(alignment - 1)] *)
Definition align_up (value alignment : Z) : Z :=
  Z.land (wrap (wrap (value + alignment) - 1))
         (size_not (wrap (alignment - 1))).

Definition align_pointer (ptr alignment : Z) : Z := align_up ptr alignment.

(** [(ptr & (alignment - 1)) == 0] *)
Definition is_aligned (ptr alignment : Z) : bool :=
  Z.land ptr (wrap (alignment - 1)) =? 0.

(** [(alignment - (address & (alignment - 1))) & (alignment - 1)] *)
Definition calc_padding (address alignment : Z) : Z :=
  Z.land (wrap (alignment - Z.land address (wrap (alignment - 1))))
         (wrap (alignment - 1)).

(** [value && ((value & (value - 1)) == 0)] *)
Definition is_power_of_two (value : Z) : bool :=
  negb (value =? 0) && (Z.land value (wrap (value - 1)) =? 0).

Definition ptr_add (ptr offset : Z) : Z := wrap (ptr + offset).

(** [calc_padding_with_header]; [None] is the division by a zero
    alignment. *)
Definition calc_padding_with_header (address alignment header_size : Z)
  : option Z :=
  let padding := calc_padding address alignment in
  if padding <? header_size then
    let needed := wrap (header_size - padding) in
    if alignment =? 0 then None
    else
      Some (wrap (padding
                  + wrap (alignment
                          * (wrap (wrap (needed + alignment) - 1)
                             / alignment))))
  else Some padding.

(** [next_power_of_two]; [sizeof(size_t) > 4], so the shift by 32 is
    compiled in. *)
Definition next_power_of_two (value : Z) : Z :=
  if value =? 0 then 1
  else
    let v0 := wrap (value - 1) in
    let v1 := Z.lor v0 (Z.shiftr v0 1) in
    let v2 := Z.lor v1 (Z.shiftr v1 2) in
    let v3 := Z.lor v2 (Z.shiftr v2 4) in
    let v4 := Z.lor v3 (Z.shiftr v3 8) in
    let v5 := Z.lor v4 (Z.shiftr v4 16) in
    let v6 := Z.lor v5 (Z.shiftr v5 32) in
    wrap (v6 + 1).

(** A 64-bit word read as a [ptrdiff_t] (two's complement). *)
Definition to_ptrdiff (x : Z) : Z :=
  if x <? 9223372036854775808 then x else x - SIZE_MOD.

(** [ptr_diff(end, start)] *)
Definition ptr_diff (end_ptr start : Z) : Z :=
  to_ptrdiff (wrap (end_ptr - start)).

End utils.
Export utils.

(** ** Object identity

  The three engines are move-only objects.  Move assignment compares the
  addresses of its two operands ([this != &other]), so the objects live
  in a store indexed by their identity. *)
Module Objects.

Definition store (T : Type) : Type := nat -> T.

Definition put {T : Type} (s : store T) (i : nat) (v : T) : store T :=
  fun j => if Nat.eqb j i then v else s j.

End Objects.
Export Objects.

(** ** src/stack_allocator.cpp *)
Module StackAllocator.

Record t : Type := mk
  { m_memory : Z;
    m_size : Z;
    m_offset : Z;
    m_owns_memory : bool }.

(** [StackAllocator(size_t size)]; [raw] is what [::operator new(size)]
    returns. *)
Definition new_owned (raw size : Z) : t :=
  {| m_memory := if 0 <? size then raw else 0;
     m_size := size;
     m_offset := 0;
     m_owns_memory := true |}.

(** [StackAllocator(void* buffer, size_t size)] *)
Definition new_borrowed (buffer size : Z) : t :=
  {| m_memory := buffer; m_size := size; m_offset := 0;
     m_owns_memory := false |}.

(** The state in which a move leaves its source. *)
Definition moved_out (other : t) : t :=
  {| m_memory := 0; m_size := 0; m_offset := 0; m_owns_memory := false |}.

(** Move constructor: the new object and the source after the move. *)
Definition move_construct (other : t) : t * t := (other, moved_out other).

(** Move assignment [s[this] = std::move(s[other])]. *)
Definition move_assign (s : store t) (this other : nat) : store t :=
  if Nat.eqb this other then s
  else put (put s this (s other)) other (moved_out (s other)).

(** [allocate]: the returned pointer ([0] is [nullptr]) and the new
    state. *)
Definition allocate (a : t) (size alignment : Z) : Z * t :=
  if size =? 0 then (0, a)
  else
    let current_addr := wrap (m_memory a + m_offset a) in
    let padding := calc_padding current_addr alignment in
    if m_size a <? wrap (wrap (m_offset a + padding) + size) then (0, a)
    else
      let aligned_offset := wrap (m_offset a + padding) in
      let ptr := wrap (m_memory a + aligned_offset) in
      (ptr,
       {| m_memory := m_memory a; m_size := m_size a;
          m_offset := wrap (aligned_offset + size);
          m_owns_memory := m_owns_memory a |}).

Definition deallocate (a : t) (ptr size : Z) : t := a.

Definition reset (a : t) : t :=
  {| m_memory := m_memory a; m_size := m_size a; m_offset := 0;
     m_owns_memory := m_owns_memory a |}.

Definition get_marker (a : t) : Z := m_offset a.

(** [rollback]: [None] is the failure of
    [assert(marker <= m_offset)]. *)
Definition rollback (a : t) (marker : Z) : option t :=
  if marker <=? m_offset a then
    Some {| m_memory := m_memory a; m_size := m_size a;
            m_offset := marker; m_owns_memory := m_owns_memory a |}
  else None.

Definition owns (a : t) (ptr : Z) : bool :=
  (m_memory a <=? ptr) && (ptr <? wrap (m_memory a + m_size a)).

Definition total_size (a : t) : Z := m_size a.
Definition used_size (a : t) : Z := m_offset a.
Definition free_size (a : t) : Z := wrap (m_size a - m_offset a).

(** A run of allocation requests [(size, alignment)]: the pointers
    returned, in order, and the final state. *)
Fixpoint allocate_all (a : t) (reqs : list (Z * Z)) : list Z * t :=
  match reqs with
  | [] => ([], a)
  | (size, alignment) :: rest =>
      let '(p, a1) := allocate a size alignment in
      let '(ps, a2) := allocate_all a1 rest in
      (p :: ps, a2)
  end.

End StackAllocator.

(** ** src/pool_allocator.cpp *)
Module PoolAllocator.

Record t : Type := mk
  { m_memory : Z;
    m_memory_size : Z;
    m_chunk_size : Z;
    m_chunk_count : Z;
    m_free_count : Z;
    m_alignment : Z;
    m_free_list : Z;
    m_owns_memory : bool }.

Definition set_free_list (a : t) (head count : Z) : t :=
  {| m_memory := m_memory a; m_memory_size := m_memory_size a;
     m_chunk_size := m_chunk_size a; m_chunk_count := m_chunk_count a;
     m_free_count := count; m_alignment := m_alignment a;
     m_free_list := head; m_owns_memory := m_owns_memory a |}.

(** The [for] loop of [init_free_list]: [n] times, write into the
    current chunk the address of the next one and step to it. *)
Fixpoint link_chunks (n : nat) (m : mem) (chunk chunk_size : Z) : mem * Z :=
  match n with
  | O => (m, chunk)
  | S k =>
      let next := wrap (chunk + chunk_size) in
      link_chunks k (store64 m chunk next) next chunk_size
  end.

Definition init_free_list (a : t) (m : mem) : t * mem :=
  let '(m1, last) :=
    link_chunks (Z.to_nat (wrap (m_chunk_count a - 1))) m
                (m_memory a) (m_chunk_size a) in
  (set_free_list a (m_memory a) (m_chunk_count a), store64 m1 last 0).

(** [PoolAllocator(chunk_size, chunk_count, alignment)]; [raw] is what
    [::operator new(m_memory_size + alignment)] returns. *)
Definition new_owned (raw chunk_size chunk_count alignment : Z) (m : mem)
  : t * mem :=
  let cs := align_up (Z.max chunk_size SIZEOF_PTR) alignment in
  let msz := wrap (cs * chunk_count) in
  let a0 := {| m_memory := 0; m_memory_size := msz; m_chunk_size := cs;
               m_chunk_count := chunk_count; m_free_count := chunk_count;
               m_alignment := alignment; m_free_list := 0;
               m_owns_memory := true |} in
  if 0 <? msz then
    init_free_list
      {| m_memory := align_pointer raw alignment; m_memory_size := msz;
         m_chunk_size := cs; m_chunk_count := chunk_count;
         m_free_count := chunk_count; m_alignment := alignment;
         m_free_list := 0; m_owns_memory := true |} m
  else (a0, m).

(** [PoolAllocator(buffer, buffer_size, chunk_size, alignment)]; [None]
    is the division by a zero chunk size. *)
Definition new_borrowed (buffer buffer_size chunk_size alignment : Z)
    (m : mem) : option (t * mem) :=
  let memory := align_pointer buffer alignment in
  let offset := wrap (memory - buffer) in
  let msz := wrap (buffer_size - offset) in
  let cs := align_up (Z.max chunk_size SIZEOF_PTR) alignment in
  if cs =? 0 then None
  else
    let count := msz / cs in
    let a0 := {| m_memory := memory; m_memory_size := msz;
                 m_chunk_size := cs; m_chunk_count := count;
                 m_free_count := count; m_alignment := alignment;
                 m_free_list := 0; m_owns_memory := false |} in
    if 0 <? count then Some (init_free_list a0 m) else Some (a0, m).

Definition moved_out (other : t) : t :=
  {| m_memory := 0; m_memory_size := 0;
     m_chunk_size := m_chunk_size other; m_chunk_count := 0;
     m_free_count := 0; m_alignment := m_alignment other;
     m_free_list := 0; m_owns_memory := false |}.

Definition move_construct (other : t) : t * t := (other, moved_out other).

Definition move_assign (s : store t) (this other : nat) : store t :=
  if Nat.eqb this other then s
  else put (put s this (s other)) other (moved_out (s other)).

(** [allocate]: both arguments are ignored. *)
Definition allocate (a : t) (m : mem) (size alignment : Z) : Z * t :=
  if m_free_list a =? 0 then (0, a)
  else
    let ptr := m_free_list a in
    (ptr, set_free_list a (load64 m ptr) (wrap (m_free_count a - 1))).

(** [deallocate]: the [owns] assertion exists only under [DEBUG]. *)
Definition deallocate (a : t) (m : mem) (ptr size : Z) : t * mem :=
  if ptr =? 0 then (a, m)
  else (set_free_list a ptr (wrap (m_free_count a + 1)),
        store64 m ptr (m_free_list a)).

Definition reset (a : t) (m : mem) : t * mem :=
  if 0 <? m_chunk_count a then init_free_list a m else (a, m).

(** [owns]; [None] is the remainder by a zero chunk size. *)
Definition owns (a : t) (ptr : Z) : option bool :=
  let start := m_memory a in
  let end_ptr := wrap (start + m_memory_size a) in
  if (ptr <? start) || (end_ptr <=? ptr) then Some false
  else
    let offset := wrap (ptr - start) in
    if m_chunk_size a =? 0 then None
    else Some (offset mod m_chunk_size a =? 0).

Definition total_size (a : t) : Z := m_memory_size a.
Definition used_size (a : t) : Z :=
  wrap (wrap (m_chunk_count a - m_free_count a) * m_chunk_size a).
Definition chunk_size (a : t) : Z := m_chunk_size a.
Definition chunk_count (a : t) : Z := m_chunk_count a.
Definition free_count (a : t) : Z := m_free_count a.

End PoolAllocator.

(** ** The free-list allocator (freelist_allocator.hpp and its .cpp) *)
Module FreeListAllocator.

Inductive Strategy : Type := FirstFit | BestFit | WorstFit.

(** [struct BlockHeader { size_t size; BlockHeader* next; bool is_free;
    uint8_t padding; }]: the fields lie at offsets 0, 8, 16 and 17 and
    the struct is padded to 24 bytes. *)
Definition HEADER_SIZE : Z := 24.
Definition MIN_BLOCK_SIZE : Z := SIZEOF_PTR.

Definition hdr_size (m : mem) (b : Z) : Z := load64 m b.
Definition hdr_next (m : mem) (b : Z) : Z := load64 m (b + 8).
(** A [bool] is read as "the byte is not zero". *)
Definition hdr_is_free (m : mem) (b : Z) : bool := negb (load8 m (b + 16) =? 0).
Definition hdr_padding (m : mem) (b : Z) : Z := load8 m (b + 17).

Definition set_size (m : mem) (b v : Z) : mem := store64 m b v.
Definition set_next (m : mem) (b v : Z) : mem := store64 m (b + 8) v.
Definition set_is_free (m : mem) (b : Z) (v : bool) : mem :=
  store8 m (b + 16) (if v then 1 else 0).
(** Writing a [size_t] into the [uint8_t] field keeps its low byte. *)
Definition set_padding (m : mem) (b v : Z) : mem := store8 m (b + 17) v.

Record t : Type := mk
  { m_memory : Z;
    m_size : Z;
    m_used : Z;
    m_strategy : Strategy;
    m_free_list : Z;
    m_owns_memory : bool }.

Definition with_list (a : t) (head : Z) : t :=
  {| m_memory := m_memory a; m_size := m_size a; m_used := m_used a;
     m_strategy := m_strategy a; m_free_list := head;
     m_owns_memory := m_owns_memory a |}.

Definition with_used (a : t) (used : Z) : t :=
  {| m_memory := m_memory a; m_size := m_size a; m_used := used;
     m_strategy := m_strategy a; m_free_list := m_free_list a;
     m_owns_memory := m_owns_memory a |}.

Definition init (a : t) (m : mem) : t * mem :=
  let b := m_memory a in
  let m1 := set_size m b (wrap (m_size a - HEADER_SIZE)) in
  let m2 := set_next m1 b 0 in
  let m3 := set_is_free m2 b true in
  let m4 := set_padding m3 b 0 in
  (with_used (with_list a b) 0, m4).

(** [FreeListAllocator(size, strategy)]; [raw] is what
    [::operator new(size)] returns. *)
Definition new_owned (raw size : Z) (strategy : Strategy) (m : mem)
  : t * mem :=
  if HEADER_SIZE <? size then
    init {| m_memory := raw; m_size := size; m_used := 0;
            m_strategy := strategy; m_free_list := 0;
            m_owns_memory := true |} m
  else ({| m_memory := 0; m_size := size; m_used := 0;
           m_strategy := strategy; m_free_list := 0;
           m_owns_memory := true |}, m).

(** [FreeListAllocator(buffer, size, strategy)] *)
Definition new_borrowed (buffer size : Z) (strategy : Strategy) (m : mem)
  : t * mem :=
  let a0 := {| m_memory := buffer; m_size := size; m_used := 0;
               m_strategy := strategy; m_free_list := 0;
               m_owns_memory := false |} in
  if HEADER_SIZE <? size then init a0 m else (a0, m).

Definition moved_out (other : t) : t :=
  {| m_memory := 0; m_size := 0; m_used := 0;
     m_strategy := m_strategy other; m_free_list := 0;
     m_owns_memory := false |}.

Definition move_construct (other : t) : t * t := (other, moved_out other).

Definition move_assign (s : store t) (this other : nat) : store t :=
  if Nat.eqb this other then s
  else put (put s this (s other)) other (moved_out (s other)).

(** The padding a block at [b] needs for [alignment]. *)
Definition block_padding (b alignment : Z) : Z :=
  calc_padding (wrap (b + HEADER_SIZE)) alignment.

(** [find_first_fit]: the loop from [current] on. *)
Fixpoint first_fit_from (fuel : nat) (m : mem) (current size alignment : Z)
  : option Z :=
  if current =? 0 then Some 0
  else
    match fuel with
    | O => None
    | S k =>
        let padding := block_padding current alignment in
        if wrap (size + padding) <=? hdr_size m current then Some current
        else first_fit_from k m (hdr_next m current) size alignment
    end.

(** [find_best_fit]: the loop from [current] on, with the locals [best]
    and [smallest_suitable]. *)
Fixpoint best_fit_from (fuel : nat) (m : mem)
    (current size alignment best smallest_suitable : Z) : option Z :=
  if current =? 0 then Some best
  else
    match fuel with
    | O => None
    | S k =>
        let padding := block_padding current alignment in
        let required := wrap (size + padding) in
        if (required <=? hdr_size m current)
           && (hdr_size m current <? smallest_suitable)
        then
          if hdr_size m current =? required then Some current
          else best_fit_from k m (hdr_next m current) size alignment
                             current (hdr_size m current)
        else best_fit_from k m (hdr_next m current) size alignment
                           best smallest_suitable
    end.

(** [find_worst_fit]: the loop from [current] on, with the locals
    [worst] and [largest_suitable]. *)
Fixpoint worst_fit_from (fuel : nat) (m : mem)
    (current size alignment worst largest_suitable : Z) : option Z :=
  if current =? 0 then Some worst
  else
    match fuel with
    | O => None
    | S k =>
        let padding := block_padding current alignment in
        let required := wrap (size + padding) in
        if (required <=? hdr_size m current)
           && (largest_suitable <? hdr_size m current)
        then worst_fit_from k m (hdr_next m current) size alignment
                            current (hdr_size m current)
        else worst_fit_from k m (hdr_next m current) size alignment
                            worst largest_suitable
    end.

Definition find_first_fit (fuel : nat) (a : t) (m : mem)
    (size alignment : Z) : option Z :=
  first_fit_from fuel m (m_free_list a) size alignment.

Definition find_best_fit (fuel : nat) (a : t) (m : mem)
    (size alignment : Z) : option Z :=
  best_fit_from fuel m (m_free_list a) size alignment 0 SIZE_MAX.

Definition find_worst_fit (fuel : nat) (a : t) (m : mem)
    (size alignment : Z) : option Z :=
  worst_fit_from fuel m (m_free_list a) size alignment 0 0.

(** The [switch (m_strategy)] of [allocate]. *)
Definition find_block (fuel : nat) (a : t) (m : mem)
    (size alignment : Z) : option Z :=
  match m_strategy a with
  | FirstFit => find_first_fit fuel a m size alignment
  | BestFit => find_best_fit fuel a m size alignment
  | WorstFit => find_worst_fit fuel a m size alignment
  end.

(** Where [split_block] puts the new block. *)
Definition split_point (block size padding : Z) : Z :=
  wrap (wrap (wrap (block + HEADER_SIZE) + padding) + size).

Definition split_block (m : mem) (block size padding : Z) : mem :=
  let remaining :=
    wrap (wrap (wrap (hdr_size m block - size) - padding) - HEADER_SIZE) in
  let new_block := split_point block size padding in
  let m1 := set_size m new_block remaining in
  let m2 := set_is_free m1 new_block true in
  let m3 := set_padding m2 new_block 0 in
  let m4 := set_size m3 block (wrap (padding + size)) in
  let m5 := set_next m4 new_block (hdr_next m4 block) in
  set_next m5 block new_block.

(** The [while] loop of [remove_free_block]: the node at which the walk
    stops ([0] when the list ends first). *)
Fixpoint predecessor_from (fuel : nat) (m : mem) (current block : Z)
  : option Z :=
  if current =? 0 then Some 0
  else if hdr_next m current =? block then Some current
  else
    match fuel with
    | O => None
    | S k => predecessor_from k m (hdr_next m current) block
    end.

Definition remove_free_block (fuel : nat) (a : t) (m : mem) (block : Z)
  : option (t * mem) :=
  if m_free_list a =? block then Some (with_list a (hdr_next m block), m)
  else
    match predecessor_from fuel m (m_free_list a) block with
    | None => None
    | Some current =>
        if current =? 0 then Some (a, m)
        else Some (a, set_next m current (hdr_next m block))
    end.

Definition insert_free_block (a : t) (m : mem) (block : Z) : t * mem :=
  (with_list a block, set_next m block (m_free_list a)).

(** The [while] loop of [coalesce]. *)
Fixpoint coalesce_from (fuel : nat) (m : mem) (current : Z) : option mem :=
  if current =? 0 then Some m
  else
    let next := hdr_next m current in
    if next =? 0 then Some m
    else
      match fuel with
      | O => None
      | S k =>
          let current_end :=
            wrap (wrap (current + HEADER_SIZE) + hdr_size m current) in
          if current_end =? next then
            let m1 :=
              set_size m current
                (wrap (hdr_size m current
                       + wrap (HEADER_SIZE + hdr_size m next))) in
            let m2 := set_next m1 current (hdr_next m1 next) in
            coalesce_from k m2 current
          else coalesce_from k m next
      end.

Definition coalesce (fuel : nat) (a : t) (m : mem) : option mem :=
  coalesce_from fuel m (m_free_list a).

(** [allocate]: the pointer ([0] is [nullptr]), the new state and the
    new memory. *)
Definition allocate (fuel : nat) (a : t) (m : mem) (size alignment : Z)
  : option (Z * t * mem) :=
  if size =? 0 then Some (0, a, m)
  else
    let size := Z.max size MIN_BLOCK_SIZE in
    match find_block fuel a m size alignment with
    | None => None
    | Some block =>
        if block =? 0 then Some (0, a, m)
        else
          let padding := block_padding block alignment in
          let total_size := wrap (padding + size) in
          let m1 :=
            if wrap (wrap (total_size + HEADER_SIZE) + MIN_BLOCK_SIZE)
               <=? hdr_size m block
            then split_block m block size padding
            else m in
          match remove_free_block fuel a m1 block with
          | None => None
          | Some (a2, m2) =>
              let m3 := set_is_free m2 block false in
              let m4 := set_padding m3 block padding in
              let a3 :=
                with_used a2
                  (wrap (m_used a2 + wrap (HEADER_SIZE + hdr_size m4 block))) in
              Some (wrap (wrap (block + HEADER_SIZE) + padding), a3, m4)
          end
    end.

(** The [for] loop of [deallocate]: [n] candidate offsets from [offset]
    on; [0] when no candidate is accepted. *)
Fixpoint scan_header (n : nat) (a : t) (m : mem) (data offset : Z) : Z :=
  match n with
  | O => 0
  | S k =>
      let candidate := wrap (data - offset) in
      if (m_memory a <=? candidate)
         && negb (hdr_is_free m candidate)
         && (hdr_padding m candidate =? wrap (offset - HEADER_SIZE))
      then candidate
      else scan_header k a m data (offset + 1)
  end.

(** The header [deallocate] works on: the offsets tried are
    [HEADER_SIZE .. HEADER_SIZE + alignof(std::max_align_t)]. *)
Definition recover_header (a : t) (m : mem) (ptr : Z) : Z :=
  let block := scan_header (Z.to_nat (MAX_ALIGN + 1)) a m ptr HEADER_SIZE in
  if block =? 0 then wrap (ptr - HEADER_SIZE) else block.

(** [deallocate]: the assertions exist only under [DEBUG]. *)
Definition deallocate (fuel : nat) (a : t) (m : mem) (ptr : Z)
  : option (t * mem) :=
  if ptr =? 0 then Some (a, m)
  else
    let block := recover_header a m ptr in
    let a1 :=
      with_used a (wrap (m_used a - wrap (HEADER_SIZE + hdr_size m block))) in
    let m1 := set_is_free m block true in
    let '(a2, m2) := insert_free_block a1 m1 block in
    match coalesce fuel a2 m2 with
    | None => None
    | Some m3 => Some (a2, m3)
    end.

Definition reset (a : t) (m : mem) : t * mem :=
  if HEADER_SIZE <? m_size a then init a m else (a, m).

Definition owns (a : t) (ptr : Z) : bool :=
  (m_memory a <=? ptr) && (ptr <? wrap (m_memory a + m_size a)).

Definition total_size (a : t) : Z := m_size a.
Definition used_size (a : t) : Z := m_used a.

(** The [while] loop of [free_block_count]. *)
Fixpoint count_from (fuel : nat) (m : mem) (current count : Z)
  : option Z :=
  if current =? 0 then Some count
  else
    match fuel with
    | O => None
    | S k => count_from k m (hdr_next m current) (wrap (count + 1))
    end.

Definition free_block_count (fuel : nat) (a : t) (m : mem) : option Z :=
  count_from fuel m (m_free_list a) 0.

(** The [while] loop of [largest_free_block]. *)
Fixpoint largest_from (fuel : nat) (m : mem) (current largest : Z)
  : option Z :=
  if current =? 0 then Some largest
  else
    match fuel with
    | O => None
    | S k =>
        largest_from k m (hdr_next m current)
          (if largest <? hdr_size m current then hdr_size m current
           else largest)
    end.

Definition largest_free_block (fuel : nat) (a : t) (m : mem) : option Z :=
  largest_from fuel m (m_free_list a) 0.

End FreeListAllocator.

(* ================================================================== *)
(** * Part II. Vocabulary of the specification                         *)
(* ================================================================== *)

(** ** Vocabulary: the bump allocator *)
Module StackSpec.
Import StackAllocator.

(** The state of an allocator whose region [m_memory .. m_memory+m_size)
    lies in the address space, does not start at the null address unless
    it is empty, and whose cursor is inside it. *)
Definition wf (a : t) : Prop :=
  0 <= m_memory a /\ 0 <= m_offset a <= m_size a /\
  m_memory a + m_size a <= SIZE_MOD /\
  (m_size a = 0 \/ 0 < m_memory a).

(** The padding [allocate] computes in state [a]. *)
Definition pad (a : t) (alignment : Z) : Z :=
  calc_padding (wrap (m_memory a + m_offset a)) alignment.

(** A request whose bound check cannot wrap around in a region of [cap]
    bytes. *)
Definition sane (cap : Z) (r : Z * Z) : Prop :=
  0 <= fst r /\ 0 <= snd r < SIZE_MOD /\ is_power_of_two (snd r) = true /\
  cap + snd r + fst r <= SIZE_MOD.

(** The successful allocations of a run, as (pointer, size) pairs in the
    order in which they were made. *)
Fixpoint granted (ps : list Z) (reqs : list (Z * Z)) : list (Z * Z) :=
  match ps, reqs with
  | p :: ps', (size, _) :: reqs' =>
      if p =? 0 then granted ps' reqs' else (p, size) :: granted ps' reqs'
  | _, _ => []
  end.

(** Every block of the list ends before the later ones begin. *)
Fixpoint in_order (l : list (Z * Z)) : Prop :=
  match l with
  | [] => True
  | (p, size) :: rest =>
      Forall (fun q => p + size <= fst q) rest /\ in_order rest
  end.

End StackSpec.

(** ** Vocabulary: the pool *)
Module PoolSpec.
Import PoolAllocator.

(** The intrusive free list: [l] lists the nodes met from [head] on,
    each holding in its first word the address of the next, up to the
    null pointer. *)
Fixpoint chain (m : mem) (head : Z) (l : list Z) : Prop :=
  match l with
  | [] => head = 0
  | x :: rest => head = x /\ x <> 0 /\ chain m (load64 m x) rest
  end.

(** The start of one of the [m_chunk_count] chunks. *)
Definition is_chunk (a : t) (x : Z) : Prop :=
  exists i, 0 <= i < m_chunk_count a /\ x = m_memory a + i * m_chunk_size a.

(** The chunk starts, in address order. *)
Fixpoint chunks (c chunk_size : Z) (n : nat) : list Z :=
  match n with
  | O => []
  | S k => c :: chunks (c + chunk_size) chunk_size k
  end.

(** What a caller may do with a pool: allocate, return a chunk it holds
    (or the null pointer), reset, and write a byte into a chunk it
    holds. *)
Inductive op : Type :=
| Allocate
| Deallocate (p : Z)
| Reset
| Write (addr byte : Z).

(** A pool, the memory and the chunks the caller holds. *)
Record client : Type := mk_client
  { pool : t; memory : mem; live : list Z }.

Definition holds (c : client) (p : Z) : bool := existsb (Z.eqb p) (live c).

Definition inside (c : client) (addr : Z) : bool :=
  existsb (fun p => (p <=? addr) && (addr <? p + m_chunk_size (pool c)))
          (live c).

(** One operation: [None] when the caller breaks the contract, else the
    new situation and the pointers [allocate] returned. *)
Definition step (c : client) (o : op) : option (client * list Z) :=
  match o with
  | Allocate =>
      let '(p, a1) := allocate (pool c) (memory c) 0 0 in
      Some ({| pool := a1; memory := memory c;
               live := if p =? 0 then live c else p :: live c |}, [p])
  | Deallocate p =>
      if (p =? 0) || holds c p then
        let '(a1, m1) := deallocate (pool c) (memory c) p 0 in
        Some ({| pool := a1; memory := m1;
                 live := List.remove Z.eq_dec p (live c) |}, [])
      else None
  | Reset =>
      let '(a1, m1) := reset (pool c) (memory c) in
      Some ({| pool := a1; memory := m1; live := [] |}, [])
  | Write addr byte =>
      if inside c addr then
        Some ({| pool := pool c; memory := store8 (memory c) addr byte;
                 live := live c |}, [])
      else None
  end.

Fixpoint run (c : client) (ops : list op) : option (client * list Z) :=
  match ops with
  | [] => Some (c, [])
  | o :: rest =>
      match step c o with
      | None => None
      | Some (c1, ps) =>
          match run c1 rest with
          | None => None
          | Some (c2, qs) => Some (c2, ps ++ qs)
          end
      end
  end.

(** The layout of a pool whose chunks are aligned to [alignment] and lie
    in the address space. *)
Definition laid_out (a : t) (alignment : Z) : Prop :=
  0 <= m_chunk_count a /\
  (m_chunk_count a = 0 \/
   0 < m_memory a /\ 8 <= m_chunk_size a /\
   m_memory a + m_chunk_count a * m_chunk_size a <= SIZE_MOD /\
   0 < alignment /\
   m_memory a mod alignment = 0 /\ m_chunk_size a mod alignment = 0).

(** The invariant of a run: the free list is a duplicate-free chain of
    chunks, none of which the caller holds. *)
Definition consistent (c : client) (alignment : Z) : Prop :=
  laid_out (pool c) alignment /\
  exists l, chain (memory c) (m_free_list (pool c)) l /\ NoDup l /\
            Forall (is_chunk (pool c)) l /\
            Forall (is_chunk (pool c)) (live c) /\
            (forall x, In x l -> ~ In x (live c)).

(** The free list seen as a stack of chunk addresses: what an operation
    makes of the list [l] of the free chunks, top first. *)
Definition free_after (a : t) (l : list Z) (o : op) : list Z :=
  match o with
  | Allocate => tl l
  | Deallocate p => if p =? 0 then l else p :: l
  | Reset =>
      if 0 <? m_chunk_count a
      then chunks (m_memory a) (m_chunk_size a) (Z.to_nat (m_chunk_count a))
      else l
  | Write _ _ => l
  end.

(** The pointers an operation returns when the free chunks are [l]. *)
Definition answer (l : list Z) (o : op) : list Z :=
  match o with
  | Allocate => [hd 0 l]
  | _ => []
  end.

(** The pointers a run of operations returns when it starts with the
    free chunks [l]. *)
Fixpoint answers (a : t) (l : list Z) (ops : list op) : list Z :=
  match ops with
  | [] => []
  | o :: rest => answer l o ++ answers a (free_after a l o) rest
  end.

(** The counters agree with the free list [l] and with the chunks the
    caller holds. *)
Definition tallied (c : client) (l : list Z) : Prop :=
  m_free_count (pool c) = Z.of_nat (length l) /\
  Z.of_nat (length l) + Z.of_nat (length (live c)) = m_chunk_count (pool c) /\
  NoDup (live c).

End PoolSpec.

(** ** Vocabulary: the free-list allocator *)
Module HeapSpec.
Import FreeListAllocator.

(** A segment of the free list: [l] lists the blocks met from [head]
    on, each pointing to the next through [next], up to [tail]. *)
Fixpoint segment (m : mem) (head : Z) (l : list Z) (tail : Z) : Prop :=
  match l with
  | [] => head = tail
  | b :: rest => head = b /\ b <> 0 /\ segment m (hdr_next m b) rest tail
  end.

(** The whole free list ends with the null pointer. *)
Definition free_list (m : mem) (head : Z) (l : list Z) : Prop :=
  segment m head l 0.

(** The headers of the blocks of [l] do not overlap. *)
Definition apart (l : list Z) : Prop :=
  forall x y, In x l -> In y l -> x <> y ->
              x + HEADER_SIZE <= y \/ y + HEADER_SIZE <= x.

(** The header of [x] lies outside the block at [b], header and payload. *)
Definition outside (m : mem) (b x : Z) : Prop :=
  x + HEADER_SIZE <= b \/ b + HEADER_SIZE + hdr_size m b <= x.

(** What a request of [size] bytes aligned to [alignment] needs from the
    block at [b], as the three searches compute it. *)
Definition required (size alignment b : Z) : Z :=
  wrap (size + block_padding b alignment).

Definition fits (m : mem) (size alignment b : Z) : Prop :=
  required size alignment b <= hdr_size m b.

Definition exact_fit (m : mem) (size alignment b : Z) : Prop :=
  hdr_size m b = required size alignment b.

(** The sizes of the blocks of the free list, in scan order. *)
Fixpoint free_sizes (fuel : nat) (m : mem) (current : Z) : option (list Z) :=
  if current =? 0 then Some []
  else
    match fuel with
    | O => None
    | S k =>
        match free_sizes k m (hdr_next m current) with
        | None => None
        | Some l => Some (hdr_size m current :: l)
        end
    end.

(** The blocks that tile the region, walked in address order from [addr]
    to [stop]: [None] when the walk does not end exactly at [stop]. *)
Fixpoint blocks (fuel : nat) (m : mem) (addr stop : Z) : option (list Z) :=
  if addr =? stop then Some []
  else if stop <? addr then None
  else
    match fuel with
    | O => None
    | S k =>
        match blocks k m (addr + HEADER_SIZE + hdr_size m addr) stop with
        | None => None
        | Some l => Some (addr :: l)
        end
    end.

(** The sum of [HEADER_SIZE + size] over all blocks of [bs]. *)
Fixpoint tiled_bytes (m : mem) (bs : list Z) : Z :=
  match bs with
  | [] => 0
  | b :: rest => HEADER_SIZE + hdr_size m b + tiled_bytes m rest
  end.

(** The same sum over the blocks whose [is_free] is false. *)
Fixpoint used_bytes (m : mem) (bs : list Z) : Z :=
  match bs with
  | [] => 0
  | b :: rest =>
      (if hdr_is_free m b then 0 else HEADER_SIZE + hdr_size m b)
      + used_bytes m rest
  end.

(** The invariants H1 and H5 of the heap, as a test: the blocks tile the
    region and [used_size] is the sum over the blocks that are not
    free. *)
Definition accounted (fuel : nat) (a : t) (m : mem) : bool :=
  match blocks fuel m (m_memory a) (m_memory a + m_size a) with
  | Some bs =>
      (tiled_bytes m bs =? m_size a) && (used_size a =? used_bytes m bs)
  | None => false
  end.

(** Sequencing of operations that may run out of fuel. *)
Definition and_then {A B : Type} (x : option A) (f : A -> option B)
  : option B :=
  match x with
  | None => None
  | Some v => f v
  end.

(** [allocate] followed by more work on the new state; the pointer is
    handed to the continuation. *)
Definition allocating {B : Type} (fuel : nat) (size alignment : Z)
    (s : t * mem) (k : Z -> t * mem -> option B) : option B :=
  and_then (allocate fuel (fst s) (snd s) size alignment)
           (fun r => k (fst (fst r)) (snd (fst r), snd r)).

(** The outcome of a scenario that does not run out of fuel. *)
Definition unpack (s : option (t * mem)) : t * mem :=
  match s with
  | Some v => v
  | None =>
      ({| m_memory := 0; m_size := 0; m_used := 0; m_strategy := FirstFit;
          m_free_list := 0; m_owns_memory := false |}, zeroed)
  end.

(** What each search promises about the block [r] it returns from the
    free list [l]. *)
Definition earliest_fit (m : mem) (size alignment : Z) (l : list Z) (r : Z)
  : Prop :=
  (r = 0 /\ Forall (fun b => ~ fits m size alignment b) l) \/
  (exists l1 l2, l = l1 ++ r :: l2 /\ fits m size alignment r /\
     Forall (fun b => ~ fits m size alignment b) l1).

Definition smallest_fit (m : mem) (size alignment : Z) (l : list Z) (r : Z)
  : Prop :=
  (r = 0 /\
   Forall (fun b => fits m size alignment b -> SIZE_MAX <= hdr_size m b) l) \/
  (exists l1 l2, l = l1 ++ r :: l2 /\ fits m size alignment r /\
     Forall (fun b => fits m size alignment b -> hdr_size m r < hdr_size m b)
            l1 /\
     (exact_fit m size alignment r \/
      Forall (fun b => fits m size alignment b -> hdr_size m r <= hdr_size m b)
             l2)).

Definition largest_fit (m : mem) (size alignment : Z) (l : list Z) (r : Z)
  : Prop :=
  (r = 0 /\
   Forall (fun b => fits m size alignment b -> hdr_size m b <= 0) l) \/
  (exists l1 l2, l = l1 ++ r :: l2 /\ fits m size alignment r /\
     Forall (fun b => fits m size alignment b -> hdr_size m b < hdr_size m r)
            l1 /\
     Forall (fun b => fits m size alignment b -> hdr_size m b <= hdr_size m r)
            l2).

(** A heap of 568 bytes at address 4096 in zeroed memory, driven through
    its public operations until its free list holds, in scan order, blocks
    of 80, 200 and 120 bytes.  All requests ask for alignment 1, so no
    block needs padding. *)
Definition seeded (strategy : Strategy) : option (t * mem) :=
  let s0 := new_borrowed 4096 568 strategy zeroed in
  allocating 8 120 1 s0 (fun p120 s1 =>
  allocating 8 8 1 s1 (fun _ s2 =>
  allocating 8 200 1 s2 (fun p200 s3 =>
  allocating 8 8 1 s3 (fun _ s4 =>
  allocating 8 80 1 s4 (fun p80 s5 =>
  allocating 8 8 1 s5 (fun _ s6 =>
  and_then (deallocate 8 (fst s6) (snd s6) p120) (fun s7 =>
  and_then (deallocate 8 (fst s7) (snd s7) p200) (fun s8 =>
  deallocate 8 (fst s8) (snd s8) p80)))))))).

(** On the seeded heap: the sizes on the free list, in scan order, and
    the size of the block the search selects for a request of 100 bytes
    with alignment 1. *)
Definition fit_example (strategy : Strategy)
  : option (list Z * Z) :=
  and_then (seeded strategy) (fun s =>
  and_then (free_sizes 8 (snd s) (m_free_list (fst s))) (fun sizes =>
  and_then (find_block 8 (fst s) (snd s) 100 1) (fun b =>
  Some (sizes, hdr_size (snd s) b)))).

(** A best-fit heap of 488 bytes at address 4104 in zeroed memory whose
    free list holds, in scan order, the blocks at 4104 (104 bytes), 4272
    (104 bytes) and 4440 (96 bytes).  For alignment 16 the first and the
    third need no padding and the second needs 8 bytes. *)
Definition three_free_blocks : option (t * mem) :=
  let s0 := new_borrowed 4104 488 BestFit zeroed in
  allocating 8 104 1 s0 (fun pa s1 =>
  allocating 8 16 1 s1 (fun _ s2 =>
  allocating 8 104 1 s2 (fun pb s3 =>
  allocating 8 16 1 s3 (fun _ s4 =>
  allocating 8 96 1 s4 (fun pc s5 =>
  allocating 8 8 1 s5 (fun _ s6 =>
  and_then (deallocate 8 (fst s6) (snd s6) pc) (fun s7 =>
  and_then (deallocate 8 (fst s7) (snd s7) pb) (fun s8 =>
  deallocate 8 (fst s8) (snd s8) pa)))))))).

(** A heap of 1024 bytes at address 4096 in zeroed memory whose free
    list holds a block of 16 bytes followed by a block of 920 bytes. *)
Definition two_free_blocks : option (t * mem) :=
  let s0 := new_borrowed 4096 1024 FirstFit zeroed in
  allocating 8 16 1 s0 (fun p1 s1 =>
  allocating 8 16 1 s1 (fun _ s2 =>
  deallocate 8 (fst s2) (snd s2) p1)).

(** The free list with the sizes of its blocks: [l] lists the pairs
    (address, size) met from [head] on, up to the null pointer. *)
Fixpoint sized_list (m : mem) (head : Z) (l : list (Z * Z)) : Prop :=
  match l with
  | [] => head = 0
  | (b, s) :: rest =>
      head = b /\ b <> 0 /\ hdr_size m b = s /\
      sized_list m (hdr_next m b) rest
  end.

(** Every block of the list lies in the address space. *)
Definition in_space (l : list (Z * Z)) : Prop :=
  Forall (fun q => fst q + HEADER_SIZE + snd q < SIZE_MOD) l.

(** What [coalesce] makes of a list of blocks: a block absorbs the block
    that follows it in the list when that block begins where it ends. *)
Fixpoint merge_into (cur : Z * Z) (rest : list (Z * Z)) : list (Z * Z) :=
  match rest with
  | [] => [cur]
  | (b, s) :: rest' =>
      if fst cur + HEADER_SIZE + snd cur =? b
      then merge_into (fst cur, snd cur + HEADER_SIZE + s) rest'
      else cur :: merge_into (b, s) rest'
  end.

Definition merged (l : list (Z * Z)) : list (Z * Z) :=
  match l with
  | [] => []
  | cur :: rest => merge_into cur rest
  end.

(** The bytes the blocks of a list take, headers included. *)
Fixpoint bytes_of (l : list (Z * Z)) : Z :=
  match l with
  | [] => 0
  | (_, s) :: rest => HEADER_SIZE + s + bytes_of rest
  end.

(** No block of the list ends where the next one in the list begins. *)
Fixpoint no_neighbours (l : list (Z * Z)) : Prop :=
  match l with
  | [] => True
  | (b, s) :: rest =>
      match rest with
      | [] => True
      | (b', _) :: _ => b + HEADER_SIZE + s <> b'
      end /\ no_neighbours rest
  end.

(** The blocks in use that tile the region from [addr] to [stop], in
    address order. *)
Fixpoint tiles (m : mem) (addr : Z) (bs : list Z) (stop : Z) : Prop :=
  match bs with
  | [] => addr = stop
  | b :: rest =>
      addr = b /\ hdr_is_free m b = false /\
      tiles m (b + HEADER_SIZE + hdr_size m b) rest stop
  end.

(** The two allocator states manage the same region in the same way. *)
Definition same_region (a1 a : t) : Prop :=
  m_memory a1 = m_memory a /\ m_size a1 = m_size a /\
  m_strategy a1 = m_strategy a /\ m_owns_memory a1 = m_owns_memory a.

(** Where the bytes in use end when they are packed at the start of the
    region. *)
Definition frontier (a : t) : Z := m_memory a + m_used a.

(** The state of a heap on which nothing was deallocated: the blocks in
    use [bs] tile the region up to the frontier, and either one free block
    takes the rest of the region or the region is full and the free list
    empty. *)
Definition packed (a : t) (m : mem) (bs : list Z) : Prop :=
  tiles m (m_memory a) bs (frontier a) /\
  ((m_free_list a = frontier a /\
    hdr_is_free m (frontier a) = true /\
    hdr_next m (frontier a) = 0 /\
    frontier a + HEADER_SIZE + hdr_size m (frontier a)
    = m_memory a + m_size a) \/
   (m_free_list a = 0 /\ m_used a = m_size a)).

(** What a caller may ask of a heap, and runs of such operations: the
    final state, the final memory and the pointers [allocate] returned;
    [None] when a walk of the free list runs out of fuel. *)
Inductive op : Type :=
| Allocate (size alignment : Z)
| Deallocate (ptr : Z)
| Reset.

Definition step (fuel : nat) (s : t * mem) (o : op)
  : option (t * mem * list Z) :=
  match o with
  | Allocate size alignment =>
      match allocate fuel (fst s) (snd s) size alignment with
      | Some (p, a1, m1) => Some (a1, m1, [p])
      | None => None
      end
  | Deallocate ptr =>
      match deallocate fuel (fst s) (snd s) ptr with
      | Some (a1, m1) => Some (a1, m1, [])
      | None => None
      end
  | Reset => Some (reset (fst s) (snd s), [])
  end.

Fixpoint run (fuel : nat) (s : t * mem) (ops : list op)
  : option (t * mem * list Z) :=
  match ops with
  | [] => Some (s, [])
  | o :: rest =>
      match step fuel s o with
      | None => None
      | Some (s1, ps) =>
          match run fuel s1 rest with
          | None => None
          | Some (s2, qs) => Some (s2, ps ++ qs)
          end
      end
  end.

(** A run of allocation requests [(size, alignment)]. *)
Definition requests (reqs : list (Z * Z)) : list op :=
  map (fun r => Allocate (fst r) (snd r)) reqs.

End HeapSpec.


(* ================================================================== *)
(** * Part III. Properties                                             *)
(* ================================================================== *)

(** ** Layout arithmetic *)

Lemma SIZE_MOD_pow : SIZE_MOD = 2 ^ 64.
Proof. reflexivity. Qed.

Lemma wrap_small (x : Z) : 0 <= x < SIZE_MOD -> wrap x = x.
Proof. intros H. unfold wrap. apply Z.mod_small. exact H. Qed.

Lemma wrap_range (x : Z) : 0 <= wrap x < SIZE_MOD.
Proof. unfold wrap. apply Z.mod_pos_bound. reflexivity. Qed.

Lemma pow2_below_size (k : Z) : 0 <= k < 64 -> 0 < 2 ^ k < SIZE_MOD.
Proof.
  intros Hk. split.
  - apply Z.pow_pos_nonneg; lia.
  - rewrite SIZE_MOD_pow. apply Z.pow_lt_mono_r; lia.
Qed.

(** The test of the source accepts exactly the powers of two. *)
Lemma is_power_of_two_log (A : Z) :
  0 <= A < SIZE_MOD -> is_power_of_two A = true ->
  exists k, 0 <= k < 64 /\ A = 2 ^ k.
Proof.
  intros HA H. unfold is_power_of_two in H.
  apply andb_prop in H. destruct H as [Hnz Hland].
  apply negb_true_iff in Hnz. apply Z.eqb_neq in Hnz.
  apply Z.eqb_eq in Hland.
  assert (Hpos : 0 < A) by lia.
  rewrite wrap_small in Hland by lia.
  pose proof (Z.log2_spec A Hpos) as [Hlo Hhi].
  pose proof (Z.log2_nonneg A) as Hk0.
  exists (Z.log2 A). split.
  - split; [exact Hk0|].
    apply Z.log2_lt_pow2; [exact Hpos|]. rewrite <- SIZE_MOD_pow. lia.
  - destruct (Z.eq_dec A (2 ^ Z.log2 A)) as [E|N]; [exact E|exfalso].
    assert (Hk1 : Z.log2 (A - 1) = Z.log2 A).
    { apply Z.log2_unique; [exact Hk0|]. lia. }
    assert (Hb1 : Z.testbit (A - 1) (Z.log2 A) = true).
    { rewrite <- Hk1. apply Z.bit_log2. lia. }
    assert (Hb0 : Z.testbit A (Z.log2 A) = true) by (apply Z.bit_log2; exact Hpos).
    assert (Hb : Z.testbit (Z.land A (A - 1)) (Z.log2 A) = true).
    { rewrite Z.land_spec, Hb0, Hb1. reflexivity. }
    rewrite Hland in Hb. rewrite Z.bits_0 in Hb. discriminate.
Qed.

Lemma is_power_of_two_pow (k : Z) : 0 <= k < 64 -> is_power_of_two (2 ^ k) = true.
Proof.
  intros Hk. pose proof (pow2_below_size k Hk) as Hr.
  unfold is_power_of_two. apply andb_true_intro. split.
  - apply negb_true_iff. apply Z.eqb_neq. lia.
  - apply Z.eqb_eq. rewrite wrap_small by lia.
    replace (2 ^ k - 1) with (Z.ones k) by (rewrite Z.ones_equiv; lia).
    rewrite Z.land_ones by lia. apply Z.mod_same. lia.
Qed.

Lemma calc_padding_pow (x k : Z) :
  0 <= k < 64 ->
  calc_padding x (2 ^ k) = (2 ^ k - x mod 2 ^ k) mod 2 ^ k.
Proof.
  intros Hk. pose proof (pow2_below_size k Hk) as Hr.
  unfold calc_padding. rewrite (wrap_small (2 ^ k - 1)) by lia.
  replace (2 ^ k - 1) with (Z.ones k) by (rewrite Z.ones_equiv; lia).
  rewrite !Z.land_ones by lia.
  pose proof (Z.mod_pos_bound x (2 ^ k) ltac:(lia)) as Hm.
  rewrite wrap_small by lia. reflexivity.
Qed.

Lemma calc_padding_range (x k : Z) :
  0 <= k < 64 -> 0 <= calc_padding x (2 ^ k) < 2 ^ k.
Proof.
  intros Hk. rewrite calc_padding_pow by exact Hk.
  apply Z.mod_pos_bound. apply Z.pow_pos_nonneg; lia.
Qed.

Lemma calc_padding_aligns (x k : Z) :
  0 <= k < 64 -> (x + calc_padding x (2 ^ k)) mod 2 ^ k = 0.
Proof.
  intros Hk. rewrite calc_padding_pow by exact Hk.
  pose proof (pow2_below_size k Hk) as Hr.
  rewrite Zplus_mod_idemp_r.
  replace (x + (2 ^ k - x mod 2 ^ k)) with (x - x mod 2 ^ k + 1 * 2 ^ k) by lia.
  rewrite Z_mod_plus_full. rewrite Zminus_mod_idemp_r.
  rewrite Z.sub_diag. apply Z.mod_0_l. lia.
Qed.



Lemma wrap_mod_pow (x k : Z) :
  0 <= k < 64 -> wrap x mod 2 ^ k = x mod 2 ^ k.
Proof.
  intros Hk. pose proof (pow2_below_size k Hk) as H2k.
  unfold wrap. rewrite SIZE_MOD_pow.
  replace (2 ^ 64) with (2 ^ k * 2 ^ (64 - k))
    by (rewrite <- Z.pow_add_r by lia; f_equal; lia).
  rewrite Z.rem_mul_r by lia.
  rewrite Z.mul_comm, Z_mod_plus_full. apply Z.mod_mod. lia.
Qed.

(** **** C9 (as stated, refuted).  For the alignment 3 the bit masks of
    [calc_padding] give 0 at address 2, and not (3 - 2 mod 3) mod 3 = 1. *)
Lemma calc_padding_differs_off_powers_of_two :
  ~ (forall x A, 0 <= x -> 1 <= A ->
                 calc_padding x A = (A - x mod A) mod A).
Proof.
  intros H. specialize (H 2 3 ltac:(lia) ltac:(lia)).
  vm_compute in H. discriminate.
Qed.

(** **** C9 (amended).  [calc_padding x A] is (A - (x mod A)) mod A for
    every [x >= 0] and every [A >= 1] that is a power of two (and a
    [size_t]). *)
Theorem calc_padding_identity (x A : Z) :
  0 <= x -> 1 <= A < SIZE_MOD -> is_power_of_two A = true ->
  calc_padding x A = (A - x mod A) mod A.
Proof.
  intros _ HA Hp.
  destruct (is_power_of_two_log A ltac:(lia) Hp) as [k [Hk ->]].
  apply calc_padding_pow. exact Hk.
Qed.

(** The padding of address 37 for the alignment 16 is 11. *)
Lemma calc_padding_identity_witness :
  calc_padding 37 16 = (16 - 37 mod 16) mod 16.
Proof.
  apply (calc_padding_identity 37 16);
    [lia|unfold SIZE_MOD; lia|reflexivity].
Defined.

(** ** The memory *)
Section MemoryFacts.

Lemma load8_range (m : mem) (a : Z) : 0 <= load8 m a < 256.
Proof. unfold load8. apply Z.mod_pos_bound. lia. Qed.

Lemma load8_store8_same (m : mem) (a v : Z) :
  load8 (store8 m a v) a = v mod 256.
Proof.
  unfold load8, store8. rewrite Z.eqb_refl. apply Z.mod_mod. lia.
Qed.

Lemma load8_store8_other (m : mem) (a b v : Z) :
  b <> a -> load8 (store8 m a v) b = load8 m b.
Proof.
  intros N. unfold load8, store8.
  destruct (Z.eqb_spec b a); [contradiction|reflexivity].
Qed.

(** A store of [n] bytes at [a] leaves every cell outside [a .. a+n)
    as it was. *)
Lemma store_le_outside (n : nat) :
  forall (m : mem) (a v x : Z),
    x < a \/ a + Z.of_nat n <= x -> store_le n m a v x = m x.
Proof.
  induction n as [|n IH]; intros m a v x Hx; [reflexivity|].
  cbn [store_le]. rewrite IH by lia.
  unfold store8. destruct (Z.eqb_spec x a); [lia|reflexivity].
Qed.

Lemma load_le_ext (n : nat) :
  forall (m1 m2 : mem) (a : Z),
    (forall x, a <= x < a + Z.of_nat n -> m1 x = m2 x) ->
    load_le n m1 a = load_le n m2 a.
Proof.
  induction n as [|n IH]; intros m1 m2 a H; [reflexivity|].
  cbn [load_le]. unfold load8. rewrite (H a) by lia.
  rewrite (IH m1 m2 (a + 1)); [reflexivity|].
  intros x Hx. apply H. lia.
Qed.

Lemma load_le_range (n : nat) :
  forall (m : mem) (a : Z), 0 <= load_le n m a < 256 ^ Z.of_nat n.
Proof.
  induction n as [|n IH]; intros m a.
  - cbn. lia.
  - cbn [load_le]. rewrite Nat2Z.inj_succ, Z.pow_succ_r by lia.
    pose proof (load8_range m a). pose proof (IH m (a + 1)). lia.
Qed.

Lemma load_le_store_le_same (n : nat) :
  forall (m : mem) (a v : Z),
    load_le n (store_le n m a v) a = v mod 256 ^ Z.of_nat n.
Proof.
  induction n as [|n IH]; intros m a v.
  - cbn. rewrite Z.mod_1_r. reflexivity.
  - cbn [load_le store_le]. rewrite IH.
    unfold load8 at 1. rewrite store_le_outside by lia.
    fold (load8 (store8 m a v) a). rewrite load8_store8_same.
    rewrite Nat2Z.inj_succ, Z.pow_succ_r by lia.
    rewrite Z.rem_mul_r by (try apply Z.pow_nonzero; lia).
    reflexivity.
Qed.

Lemma load_le_store_le_disjoint (k n : nat) (m : mem) (a b v : Z) :
  a + Z.of_nat n <= b \/ b + Z.of_nat k <= a ->
  load_le k (store_le n m a v) b = load_le k m b.
Proof.
  intros H. apply load_le_ext. intros x Hx.
  apply store_le_outside. lia.
Qed.

Lemma load_le_store8_outside (k : nat) (m : mem) (a b v : Z) :
  a < b \/ b + Z.of_nat k <= a ->
  load_le k (store8 m a v) b = load_le k m b.
Proof.
  intros H. apply load_le_ext. intros x Hx.
  unfold store8. destruct (Z.eqb_spec x a); [lia|reflexivity].
Qed.

Lemma load8_store_le_outside (n : nat) (m : mem) (a b v : Z) :
  b < a \/ a + Z.of_nat n <= b ->
  load8 (store_le n m a v) b = load8 m b.
Proof.
  intros H. unfold load8. rewrite store_le_outside by exact H. reflexivity.
Qed.

(** The same facts for the 8-byte words of the source. *)
Lemma load64_range (m : mem) (a : Z) : 0 <= load64 m a < SIZE_MOD.
Proof. exact (load_le_range 8 m a). Qed.

Lemma load64_store64_same (m : mem) (a v : Z) :
  load64 (store64 m a v) a = wrap v.
Proof. exact (load_le_store_le_same 8 m a v). Qed.

Lemma load64_store64_disjoint (m : mem) (a b v : Z) :
  a + 8 <= b \/ b + 8 <= a ->
  load64 (store64 m a v) b = load64 m b.
Proof. intros H. apply (load_le_store_le_disjoint 8 8). simpl. lia. Qed.

Lemma load64_store8_outside (m : mem) (a b v : Z) :
  a < b \/ b + 8 <= a -> load64 (store8 m a v) b = load64 m b.
Proof. intros H. apply (load_le_store8_outside 8). simpl. lia. Qed.

Lemma load8_store64_outside (m : mem) (a b v : Z) :
  b < a \/ a + 8 <= b -> load8 (store64 m a v) b = load8 m b.
Proof. intros H. apply (load8_store_le_outside 8). simpl. lia. Qed.

End MemoryFacts.

(** Unfolding of the header accessors, and rewriting of a load after
    stores elsewhere. *)
Ltac fields :=
  unfold FreeListAllocator.hdr_size, FreeListAllocator.hdr_next,
         FreeListAllocator.hdr_is_free, FreeListAllocator.hdr_padding,
         FreeListAllocator.set_size, FreeListAllocator.set_next,
         FreeListAllocator.set_is_free, FreeListAllocator.set_padding in *.

Ltac mem_step :=
  first [ rewrite load64_store64_same
        | rewrite load8_store8_same
        | rewrite load64_store64_disjoint by lia
        | rewrite load64_store8_outside by lia
        | rewrite load8_store64_outside by lia
        | rewrite load8_store8_other by lia ].

(** ** Rounding up to an alignment *)
Section AlignFacts.

Lemma wrap_land (x : Z) : wrap x = Z.land x (Z.ones 64).
Proof. rewrite Z.land_ones by lia. reflexivity. Qed.

(** On a power of two, and when [value + alignment] does not exceed
    2^64, [align_up] rounds up to the next multiple. *)
Lemma align_up_pow (x k : Z) :
  0 <= k < 64 -> 0 <= x -> x + 2 ^ k <= SIZE_MOD ->
  align_up x (2 ^ k) = 2 ^ k * ((x + 2 ^ k - 1) / 2 ^ k).
Proof.
  intros Hk Hx Hsum. pose proof (pow2_below_size k Hk) as H2k.
  unfold align_up, size_not.
  assert (E1 : wrap (wrap (x + 2 ^ k) - 1) = x + 2 ^ k - 1).
  { unfold wrap. rewrite Zminus_mod_idemp_l. apply Z.mod_small. lia. }
  rewrite E1. rewrite (wrap_small (2 ^ k - 1)) by lia.
  replace (2 ^ k - 1) with (Z.ones k) by (rewrite Z.ones_equiv; lia).
  rewrite wrap_land.
  rewrite (Z.land_comm (Z.lnot (Z.ones k))), Z.land_assoc.
  rewrite (Z.land_ones (x + 2 ^ k - 1) 64) by lia.
  change (2 ^ 64) with SIZE_MOD.
  rewrite (Z.mod_small (x + 2 ^ k - 1)) by lia.
  rewrite <- Z.ldiff_land, Z.ldiff_ones_r by lia.
  rewrite Z.shiftr_div_pow2, Z.shiftl_mul_pow2 by lia. lia.
Qed.

Lemma align_up_pow_facts (x k : Z) :
  0 <= k < 64 -> 0 <= x -> x + 2 ^ k <= SIZE_MOD ->
  align_up x (2 ^ k) mod 2 ^ k = 0 /\
  x <= align_up x (2 ^ k) < x + 2 ^ k.
Proof.
  intros Hk Hx Hsum. pose proof (pow2_below_size k Hk) as H2k.
  rewrite align_up_pow by assumption.
  split.
  - rewrite Z.mul_comm. apply Z_mod_mult.
  - pose proof (Z.div_mod (x + 2 ^ k - 1) (2 ^ k) ltac:(lia)) as Hd.
    pose proof (Z.mod_pos_bound (x + 2 ^ k - 1) (2 ^ k) ltac:(lia)) as Hm.
    lia.
Qed.

End AlignFacts.

(** ** The bump allocator *)
Section StackFacts.
Import StackAllocator StackSpec.

Lemma stack_allocate_keeps_region (a : t) (size alignment : Z) :
  m_memory (snd (allocate a size alignment)) = m_memory a /\
  m_size (snd (allocate a size alignment)) = m_size a /\
  m_owns_memory (snd (allocate a size alignment)) = m_owns_memory a.
Proof.
  unfold allocate. destruct (size =? 0); [auto|].
  destruct (m_size a <? _); simpl; auto.
Qed.

Lemma stack_allocate_all_keeps_region (reqs : list (Z * Z)) :
  forall a, m_memory (snd (allocate_all a reqs)) = m_memory a /\
            m_size (snd (allocate_all a reqs)) = m_size a.
Proof.
  induction reqs as [|[size alignment] rest IH]; intros a; simpl; [auto|].
  pose proof (stack_allocate_keeps_region a size alignment) as [Hm [Hs _]].
  destruct (allocate a size alignment) as [p a1]. simpl in Hm, Hs.
  specialize (IH a1). destruct (allocate_all a1 rest) as [ps a2].
  simpl in *. destruct IH as [IH1 IH2]. split; congruence.
Qed.

(** [allocate] on a request that cannot wrap, in a well-formed state. *)
Lemma stack_allocate_spec (a : t) (size alignment : Z) :
  wf a -> sane (m_size a) (size, alignment) ->
  let p := pad a alignment in
  (size = 0 -> allocate a size alignment = (0, a)) /\
  (m_size a < m_offset a + p + size -> allocate a size alignment = (0, a)) /\
  (size <> 0 -> m_offset a + p + size <= m_size a ->
     allocate a size alignment =
       (m_memory a + m_offset a + p,
        {| m_memory := m_memory a; m_size := m_size a;
           m_offset := m_offset a + p + size;
           m_owns_memory := m_owns_memory a |}) /\
     (m_memory a + m_offset a + p) mod alignment = 0).
Proof.
  intros [Hb [Hc [Hr _]]] [Hs [Ha [Hp Hw]]]. simpl in Hs, Ha, Hp, Hw.
  destruct (is_power_of_two_log alignment Ha Hp) as [k [Hk ->]].
  pose proof (pow2_below_size k Hk) as H2k.
  pose proof (calc_padding_range (wrap (m_memory a + m_offset a)) k Hk)
    as Hpad.
  fold (pad a (2 ^ k)) in Hpad. intros p. subst p.
  unfold allocate. fold (pad a (2 ^ k)).
  split; [intros ->; reflexivity|]. split.
  - intros Hov. destruct (size =? 0); [reflexivity|].
    rewrite (wrap_small (m_offset a + pad a (2 ^ k))) by lia.
    rewrite (wrap_small (m_offset a + pad a (2 ^ k) + size)) by lia.
    destruct (Z.ltb_spec (m_size a) (m_offset a + pad a (2 ^ k) + size));
      [reflexivity|lia].
  - intros Hnz Hfit. destruct (Z.eqb_spec size 0) as [E|_]; [contradiction|].
    rewrite (wrap_small (m_offset a + pad a (2 ^ k))) by lia.
    rewrite (wrap_small (m_offset a + pad a (2 ^ k) + size)) by lia.
    destruct (Z.ltb_spec (m_size a) (m_offset a + pad a (2 ^ k) + size));
      [lia|].
    rewrite (wrap_small (m_memory a + _)) by lia.
    split; [f_equal; lia|].
    unfold pad.
    pose proof (calc_padding_aligns (wrap (m_memory a + m_offset a)) k Hk)
      as Hal.
    rewrite <- Zplus_mod_idemp_l, wrap_mod_pow, Zplus_mod_idemp_l in Hal
      by exact Hk.
    rewrite <- Hal. f_equal.
Qed.

(** One step of a run: the cursor only grows, and a granted block lies
    between the old and the new cursor. *)
Lemma stack_allocate_step (a : t) (size alignment : Z) :
  wf a -> sane (m_size a) (size, alignment) ->
  let p := fst (allocate a size alignment) in
  let a1 := snd (allocate a size alignment) in
  wf a1 /\ m_offset a <= m_offset a1 /\
  (p <> 0 -> m_memory a + m_offset a <= p /\
             p + size <= m_memory a + m_offset a1).
Proof.
  intros Hwf Hsane.
  pose proof (stack_allocate_spec a size alignment Hwf Hsane)
    as [H0 [Hfail Hok]].
  destruct Hwf as [Hb [Hc [Hr Hnn]]].
  pose proof Hsane as [Hs [Ha [Hp Hw]]]. simpl in Hs, Ha, Hp, Hw.
  destruct (is_power_of_two_log alignment Ha Hp) as [k [Hk Ek]].
  pose proof (calc_padding_range (wrap (m_memory a + m_offset a)) k Hk)
    as Hpad.
  rewrite <- Ek in Hpad. fold (pad a alignment) in Hpad.
  destruct (Z.eq_dec size 0) as [E|N].
  { rewrite (H0 E). simpl. unfold wf. repeat split; try lia. }
  destruct (Z_lt_le_dec (m_size a) (m_offset a + pad a alignment + size))
    as [L|L].
  { rewrite (Hfail L). simpl. unfold wf. repeat split; try lia. }
  destruct (Hok N L) as [E _]. rewrite E. simpl. unfold wf. simpl.
  repeat split; try lia.
Qed.

(** In a run of requests that cannot wrap, every granted block begins at
    or after the cursor the run started from, and ends before every block
    granted after it. *)
Lemma stack_allocate_all_in_order (reqs : list (Z * Z)) :
  forall a, wf a -> Forall (sane (m_size a)) reqs ->
  let ps := fst (allocate_all a reqs) in
  in_order (granted ps reqs) /\
  Forall (fun q => m_memory a + m_offset a <= fst q) (granted ps reqs).
Proof.
  induction reqs as [|[size alignment] rest IH]; intros a Hwf Hall; simpl.
  { split; [exact I|constructor]. }
  inversion Hall as [|r l Hsane Hrest]; subst.
  pose proof (stack_allocate_step a size alignment Hwf Hsane)
    as [Hwf1 [Hmono Hblk]].
  pose proof (stack_allocate_keeps_region a size alignment) as [Hm [Hs _]].
  destruct (allocate a size alignment) as [p a1]. simpl in *.
  rewrite <- Hs in Hrest.
  specialize (IH a1 Hwf1 Hrest).
  destruct (allocate_all a1 rest) as [ps a2]. simpl in *.
  destruct IH as [IHo IHb].
  assert (Hlater : Forall (fun q => m_memory a + m_offset a <= fst q)
                          (granted ps rest)).
  { eapply Forall_impl; [|exact IHb]. intros q Hq. simpl in Hq. lia. }
  destruct (Z.eqb_spec p 0) as [E|N].
  - split; assumption.
  - destruct (Hblk N) as [Hlo Hhi]. split.
    + simpl. split; [|exact IHo].
      eapply Forall_impl; [|exact IHb]. intros q Hq. simpl in Hq. lia.
    + constructor; [simpl; lia|exact Hlater].
Qed.

(** **** C1.  [allocate] compares [m_offset + padding + size], computed
    in [size_t], with [m_size].  For a request of [SIZE_MAX - 49] bytes
    made when 100 of 1024 bytes are in use the sum wraps around to 50:
    although cursor + pad + size exceeds the capacity, [allocate] returns
    the non-null pointer [base + 100] and moves the cursor back to 50,
    and the next request of 100 bytes is granted [base + 50], inside the
    block granted first. *)
Theorem stack_allocate_size_wraps :
  let a0 := new_borrowed 4096 1024 in
  let p0 := fst (allocate a0 100 1) in
  let a1 := snd (allocate a0 100 1) in
  let huge := SIZE_MAX - 49 in
  let p1 := fst (allocate a1 huge 1) in
  let a2 := snd (allocate a1 huge 1) in
  let p2 := fst (allocate a2 100 1) in
  wf a1 /\ p0 = 4096 /\ m_offset a1 = 100 /\
  m_offset a1 + pad a1 1 + huge > m_size a1 /\
  p1 = 4196 /\ m_offset a2 = 50 /\
  p2 = 4146 /\ p0 <= p2 < p0 + 100.
Proof.
  vm_compute. repeat split; try reflexivity; try discriminate.
  right; reflexivity.
Qed.

(** **** C8.  A marker taken in any state, followed by any run of
    allocations and, provided the marker does not exceed the cursor
    reached, by a rollback to it: [used_size] and [free_size] are what
    they were when the marker was taken. *)
Theorem stack_rollback_restores (a : t) (reqs : list (Z * Z)) :
  let s := get_marker a in
  let a1 := snd (allocate_all a reqs) in
  s <= m_offset a1 ->
  exists a2, rollback a1 s = Some a2 /\
             m_offset a2 = m_offset a /\
             used_size a2 = used_size a /\
             free_size a2 = free_size a.
Proof.
  intros s a1 Hle.
  pose proof (stack_allocate_all_keeps_region reqs a) as [_ Hs].
  fold a1 in Hs. unfold rollback.
  destruct (Z.leb_spec s (m_offset a1)) as [_|Hgt]; [|lia].
  eexists. split; [reflexivity|].
  unfold used_size, free_size; simpl. rewrite Hs. auto.
Qed.

(** A marker taken at 100 bytes, two more allocations, and the rollback. *)
Lemma stack_rollback_restores_witness :
  let a := snd (allocate (new_borrowed 4096 1024) 100 1) in
  let reqs := [(200, 16); (300, 16)] in
  exists a2, rollback (snd (allocate_all a reqs)) (get_marker a) = Some a2 /\
             m_offset a2 = m_offset a /\
             used_size a2 = used_size a /\
             free_size a2 = free_size a.
Proof.
  apply (stack_rollback_restores
           (snd (allocate (new_borrowed 4096 1024) 100 1))
           [(200, 16); (300, 16)]).
  vm_compute. discriminate.
Defined.

(** In a run of requests that cannot wrap the cursor never falls below
    a marker taken before the run. *)
Lemma stack_cursor_monotone (reqs : list (Z * Z)) :
  forall a, wf a -> Forall (sane (m_size a)) reqs ->
  get_marker a <= m_offset (snd (allocate_all a reqs)).
Proof.
  induction reqs as [|[size alignment] rest IH]; intros a Hwf Hall; simpl.
  { unfold get_marker. lia. }
  inversion Hall as [|r l Hsane Hrest]; subst.
  pose proof (stack_allocate_step a size alignment Hwf Hsane)
    as [Hwf1 [Hmono _]].
  pose proof (stack_allocate_keeps_region a size alignment) as [_ [Hs _]].
  destruct (allocate a size alignment) as [p a1]. simpl in *.
  rewrite <- Hs in Hrest. specialize (IH a1 Hwf1 Hrest).
  destruct (allocate_all a1 rest) as [ps a2]. simpl in *.
  unfold get_marker in *. lia.
Qed.
End StackFacts.

(** ** The pool *)
Section PoolFacts.
Import PoolAllocator PoolSpec.

Lemma chain_ext (l : list Z) :
  forall (m1 m2 : mem) (head : Z),
    (forall x, In x l -> load64 m1 x = load64 m2 x) ->
    chain m1 head l -> chain m2 head l.
Proof.
  induction l as [|x rest IH]; intros m1 m2 head Heq H; simpl in *.
  - exact H.
  - destruct H as [-> [Hnz Hc]]. repeat split; [exact Hnz|].
    rewrite <- (Heq x) by (left; reflexivity).
    apply (IH m1); [|exact Hc]. intros y Hy. apply Heq. right. exact Hy.
Qed.

Lemma chunks_bounds (S : Z) (n : nat) :
  forall c x, 0 < S -> In x (chunks c S n) ->
    exists i, 0 <= i < Z.of_nat n /\ x = c + i * S.
Proof.
  induction n as [|n IH]; intros c x HS Hin; simpl in Hin; [contradiction|].
  destruct Hin as [<-|Hin].
  - exists 0. lia.
  - destruct (IH (c + S) x HS Hin) as [i [Hi ->]]. exists (i + 1). lia.
Qed.

Lemma chunks_NoDup (S : Z) (n : nat) :
  forall c, 0 < S -> NoDup (chunks c S n).
Proof.
  induction n as [|n IH]; intros c HS; simpl; constructor.
  - intros Hin. destruct (chunks_bounds S n (c + S) c HS Hin) as [i [Hi E]]. nia.
  - apply IH. exact HS.
Qed.

(** The loop of [init_free_list] links [n] chunks and touches nothing
    else. *)
Lemma link_chunks_spec (S : Z) (n : nat) :
  forall (m : mem) (c : Z),
    8 <= S -> 0 <= c -> c + (Z.of_nat n + 1) * S <= SIZE_MOD ->
    snd (link_chunks n m c S) = c + Z.of_nat n * S /\
    (forall j, 0 <= j < Z.of_nat n ->
       load64 (fst (link_chunks n m c S)) (c + j * S) = c + (j + 1) * S) /\
    (forall x, x < c \/ c + Z.of_nat n * S <= x ->
       fst (link_chunks n m c S) x = m x).
Proof.
  induction n as [|n IH]; intros m c HS Hc Hend.
  - simpl. split; [lia|]. split; [intros j Hj; lia|reflexivity].
  - cbn [link_chunks]. rewrite Nat2Z.inj_succ in *.
    assert (Ew : wrap (c + S) = c + S) by (apply wrap_small; nia).
    rewrite Ew.
    destruct (IH (store64 m c (c + S)) (c + S) HS ltac:(lia) ltac:(nia))
      as [Hlast [Hlinks Hframe]].
    split; [rewrite Hlast; lia|]. split.
    + intros j Hj. destruct (Z.eq_dec j 0) as [->|Nj].
      * replace (c + 0 * S) with c by lia.
        transitivity (load64 (store64 m c (c + S)) c).
        { apply load_le_ext. intros x Hx. apply Hframe. simpl in Hx. lia. }
        rewrite load64_store64_same. rewrite Ew. lia.
      * replace (c + j * S) with (c + S + (j - 1) * S) by lia.
        rewrite Hlinks by lia. lia.
    + intros x Hx. rewrite Hframe by nia.
      apply store_le_outside. simpl. nia.
Qed.

Lemma chain_chunks (m : mem) (S : Z) (n : nat) :
  forall c, 0 < c -> 0 < S ->
    (forall j, 0 <= j < Z.of_nat n ->
       load64 m (c + j * S) = if j + 1 =? Z.of_nat n then 0 else c + (j + 1) * S) ->
    chain m (if Nat.eqb n 0 then 0 else c) (chunks c S n).
Proof.
  induction n as [|n IH]; intros c Hc HS H; simpl; [reflexivity|].
  split; [reflexivity|]. split; [lia|].
  pose proof (H 0 ltac:(lia)) as H0.
  replace (c + 0 * S) with c in H0 by lia. rewrite H0.
  specialize (IH (c + S) ltac:(lia) HS).
  destruct n as [|n].
  - simpl. reflexivity.
  - replace (0 + 1 =? Z.of_nat (Datatypes.S (Datatypes.S n))) with false
      by (symmetry; apply Z.eqb_neq; lia).
    replace (c + (0 + 1) * S) with (c + S) by lia.
    apply IH. intros j Hj.
    replace (c + S + j * S) with (c + (j + 1) * S) by lia.
    rewrite H by lia.
    replace (j + 1 + 1 =? Z.of_nat (Datatypes.S (Datatypes.S n)))
      with (j + 1 =? Z.of_nat (Datatypes.S n)).
    + replace (c + S + (j + 1) * S) with (c + (j + 1 + 1) * S) by lia.
      reflexivity.
    + destruct (Z.eqb_spec (j + 1) (Z.of_nat (Datatypes.S n)));
        destruct (Z.eqb_spec (j + 1 + 1) (Z.of_nat (Datatypes.S (Datatypes.S n))));
        try reflexivity; lia.
Qed.

Lemma is_chunk_apart (a : t) (x y : Z) :
  0 < m_chunk_size a -> is_chunk a x -> is_chunk a y -> x <> y ->
  x + m_chunk_size a <= y \/ y + m_chunk_size a <= x.
Proof.
  intros HS [i [Hi ->]] [j [Hj ->]] N.
  assert (i < j \/ j < i) as [L|L] by (destruct (Z.eq_dec i j); [subst; lia|lia]).
  - left. nia.
  - right. nia.
Qed.

Lemma is_chunk_aligned (a : t) (A x : Z) :
  laid_out a A -> is_chunk a x -> x mod A = 0 /\ 0 < x.
Proof.
  intros [HN [E|[Hb [HS [Hend [HA [Hbm HSm]]]]]]] [i [Hi ->]]; [lia|].
  split; [|nia].
  rewrite <- Zplus_mod_idemp_l, Hbm. simpl.
  rewrite <- Zmult_mod_idemp_r, HSm, Z.mul_0_r. apply Z.mod_0_l. lia.
Qed.

(** [init_free_list] makes every chunk free. *)
Lemma init_free_list_consistent (a : t) (m : mem) (A : Z) :
  laid_out a A -> 0 < m_chunk_count a ->
  consistent {| pool := fst (init_free_list a m);
                memory := snd (init_free_list a m); live := [] |} A.
Proof.
  intros Hlay HN. pose proof Hlay as [_ [E|[Hb [HS [Hend [HA [Hbm HSm]]]]]]]; [lia|].
  unfold init_free_list.
  assert (HNw : wrap (m_chunk_count a - 1) = m_chunk_count a - 1)
    by (apply wrap_small; nia).
  rewrite HNw.
  set (n := Z.to_nat (m_chunk_count a - 1)).
  assert (Hn : Z.of_nat n = m_chunk_count a - 1) by (unfold n; lia).
  pose proof (link_chunks_spec (m_chunk_size a) n m (m_memory a) HS
                ltac:(lia) ltac:(rewrite Hn; nia)) as [Hlast [Hlinks Hframe]].
  destruct (link_chunks n m (m_memory a) (m_chunk_size a)) as [m1 last].
  simpl in Hlast, Hlinks, Hframe. subst last.
  unfold consistent. cbn [pool memory live fst snd].
  split; [exact Hlay|].
  exists (chunks (m_memory a) (m_chunk_size a) (Datatypes.S n)).
  split; [|split; [|split; [|split]]].
  - apply (chain_chunks _ _ (Datatypes.S n)); [lia|lia|].
    intros j Hj. rewrite Nat2Z.inj_succ in *.
    destruct (Z.eqb_spec (j + 1) (Z.succ (Z.of_nat n))) as [E|N].
    + replace j with (Z.of_nat n) by lia.
      rewrite load64_store64_same. reflexivity.
    + rewrite load64_store64_disjoint by nia. apply Hlinks. lia.
  - apply chunks_NoDup. lia.
  - apply Forall_forall. intros x Hx.
    destruct (chunks_bounds (m_chunk_size a) _ _ _ ltac:(lia) Hx) as [i [Hi ->]].
    exists i. simpl. split; [lia|reflexivity].
  - constructor.
  - intros x _ [].
Qed.


Lemma chain_head_size (m : mem) (a : t) (head : Z) (l : list Z) :
  chain m head l -> Forall (is_chunk a) l ->
  m_memory a + m_chunk_count a * m_chunk_size a <= SIZE_MOD ->
  0 < m_memory a -> 0 < m_chunk_size a ->
  0 <= head < SIZE_MOD.
Proof.
  intros Hc Hall Hend Hb HS. destruct l as [|x rest]; simpl in Hc.
  - subst. unfold SIZE_MOD. lia.
  - destruct Hc as [-> _]. inversion Hall as [|? ? [i [Hi ->]] _]; subst. nia.
Qed.

Lemma holds_In (c : client) (p : Z) : holds c p = true -> In p (live c).
Proof.
  unfold holds. intros H. apply existsb_exists in H.
  destruct H as [q [Hq E]]. apply Z.eqb_eq in E. subst. exact Hq.
Qed.

(** Every operation the contract allows keeps the pool consistent, and
    [allocate] returns the null pointer or the start of a chunk. *)
Lemma pool_step_consistent (c c1 : client) (o : op) (ps : list Z) (A : Z) :
  consistent c A -> step c o = Some (c1, ps) ->
  consistent c1 A /\ Forall (fun p => p mod A = 0) ps.
Proof.
  intros [Hlay [l [Hchain [Hnd [Hfree [Hlive Hsep]]]]]] Hstep.
  destruct o as [|p| |addr byte]; simpl in Hstep.
  - (* allocate *)
    unfold allocate in Hstep.
    destruct (Z.eqb_spec (m_free_list (pool c)) 0) as [E0|N0].
    + inversion Hstep; subst; clear Hstep. simpl. split.
      * split; [exact Hlay|]. exists l. simpl. auto.
      * constructor; [apply Zmod_0_l|constructor].
    + destruct l as [|x rest]; simpl in Hchain; [contradiction|].
      destruct Hchain as [Ehead [Hx Hrest]].
      rewrite Ehead in Hstep.
      destruct (Z.eqb_spec x 0) as [|_]; [contradiction|].
      inversion Hstep; subst; clear Hstep.
      inversion Hnd as [|? ? Hxr Hnd']; subst.
      inversion Hfree as [|? ? Hcx Hfree']; subst.
      split.
      * split; [exact Hlay|]. exists rest. cbn [pool memory live].
        split; [exact Hrest|]. split; [exact Hnd'|].
        split; [exact Hfree'|]. split.
        { constructor; assumption. }
        { intros y Hy [Ey|Hl].
          - subst. contradiction.
          - apply (Hsep y); [right; exact Hy|exact Hl]. }
      * constructor; [|constructor].
        apply (is_chunk_aligned (pool c)); assumption.
  - (* deallocate *)
    destruct (Z.eqb_spec p 0) as [Ep|Np]; simpl in Hstep.
    + subst p. unfold deallocate in Hstep. simpl in Hstep.
      inversion Hstep; subst; clear Hstep. split; [|constructor].
      split; [exact Hlay|]. exists l. cbn [pool memory live].
      repeat split; try assumption.
      * apply Forall_forall. intros y Hy. apply in_remove in Hy.
        rewrite Forall_forall in Hlive. apply Hlive. tauto.
      * intros y Hy Hr. apply in_remove in Hr. apply (Hsep y); tauto.
    + destruct (holds c p) eqn:Hh; [|discriminate].
      apply holds_In in Hh.
      unfold deallocate in Hstep.
      destruct (Z.eqb_spec p 0) as [|_]; [contradiction|].
      inversion Hstep; subst; clear Hstep. split; [|constructor].
      assert (Hcp : is_chunk (pool c) p)
        by (rewrite Forall_forall in Hlive; apply Hlive; exact Hh).
      pose proof Hlay as [HN [E|[Hb [HS [Hend [HA [Hbm HSm]]]]]]].
      { destruct Hcp as [i [Hi _]]. lia. }
      assert (Hpl : ~ In p l) by (intros Hin; apply (Hsep p Hin Hh)).
      split; [exact Hlay|]. exists (p :: l). cbn [pool memory live].
      split; [|split; [|split; [|split]]].
      * simpl. split; [reflexivity|]. split; [exact Np|].
        rewrite load64_store64_same.
        rewrite wrap_small
          by (eapply chain_head_size; eauto; lia).
        apply (chain_ext l (memory c)); [|exact Hchain].
        intros y Hy. symmetry. apply load64_store64_disjoint.
        assert (Hcy : is_chunk (pool c) y)
          by (rewrite Forall_forall in Hfree; apply Hfree; exact Hy).
        assert (Hne : p <> y) by (intros ->; contradiction).
        pose proof (is_chunk_apart (pool c) p y ltac:(lia) Hcp Hcy Hne). lia.
      * constructor; assumption.
      * constructor; assumption.
      * apply Forall_forall. intros y Hy. apply in_remove in Hy.
        rewrite Forall_forall in Hlive. apply Hlive. tauto.
      * intros y [<-|Hy] Hr.
        { apply in_remove in Hr. tauto. }
        { apply in_remove in Hr. apply (Hsep y); tauto. }
  - (* reset *)
    unfold reset in Hstep.
    destruct (Z.ltb_spec 0 (m_chunk_count (pool c))) as [Hpos|Hzero].
    + pose proof (init_free_list_consistent (pool c) (memory c) A Hlay Hpos) as Hi.
      destruct (init_free_list (pool c) (memory c)) as [a1 m1].
      inversion Hstep; subst; clear Hstep. split; [exact Hi|constructor].
    + inversion Hstep; subst; clear Hstep. split; [|constructor].
      split; [exact Hlay|]. exists l. cbn [pool memory live].
      repeat split; try assumption; [constructor|intros y _ []].
  - (* a write into a chunk the caller holds *)
    destruct (inside c addr) eqn:Hin; [|discriminate].
    inversion Hstep; subst; clear Hstep. split; [|constructor].
    unfold inside in Hin. apply existsb_exists in Hin.
    destruct Hin as [p [Hp Hrange]].
    apply andb_prop in Hrange. destruct Hrange as [Hlo Hhi].
    apply Z.leb_le in Hlo. apply Z.ltb_lt in Hhi.
    assert (Hcp : is_chunk (pool c) p)
      by (rewrite Forall_forall in Hlive; apply Hlive; exact Hp).
    pose proof Hlay as [HN [E|[Hb [HS [Hend [HA [Hbm HSm]]]]]]].
    { destruct Hcp as [i [Hi _]]. lia. }
    split; [exact Hlay|]. exists l. cbn [pool memory live].
    repeat split; try assumption.
    apply (chain_ext l (memory c)); [|exact Hchain].
    intros y Hy. symmetry. apply load64_store8_outside.
    assert (Hcy : is_chunk (pool c) y)
      by (rewrite Forall_forall in Hfree; apply Hfree; exact Hy).
    assert (Hne : p <> y) by (intros ->; apply (Hsep y Hy Hp)).
    pose proof (is_chunk_apart (pool c) p y ltac:(lia) Hcp Hcy Hne). lia.
Qed.

Lemma pool_run_consistent (ops : list op) (A : Z) :
  forall (c c1 : client) (ps : list Z),
    consistent c A -> run c ops = Some (c1, ps) ->
    consistent c1 A /\ Forall (fun p => p mod A = 0) ps.
Proof.
  induction ops as [|o rest IH]; intros c c1 ps Hc Hrun; simpl in Hrun.
  - inversion Hrun; subst. split; [exact Hc|constructor].
  - destruct (step c o) as [[c' qs]|] eqn:Hs; [|discriminate].
    destruct (run c' rest) as [[c'' rs]|] eqn:Hr; [|discriminate].
    inversion Hrun; subst; clear Hrun.
    destruct (pool_step_consistent c c' o qs A Hc Hs) as [Hc' Hq].
    destruct (IH c' c1 rs Hc' Hr) as [Hc1 Hrs].
    split; [exact Hc1|]. apply Forall_app. split; assumption.
Qed.

(** The pool built by the owning constructor is consistent when the
    alignment is a power of two and the block [operator new] returned,
    of [m_memory_size + alignment] bytes, lies in the address space. *)
Lemma pool_new_owned_consistent (raw C N A : Z) (m : mem) :
  0 <= A < SIZE_MOD -> is_power_of_two A = true ->
  0 <= C -> Z.max C SIZEOF_PTR + A <= SIZE_MOD ->
  0 <= N -> 0 < raw ->
  raw + A + N * align_up (Z.max C SIZEOF_PTR) A <= SIZE_MOD ->
  consistent {| pool := fst (new_owned raw C N A m);
                memory := snd (new_owned raw C N A m); live := [] |} A.
Proof.
  intros HA Hp HC HCA HN Hraw Hend.
  destruct (is_power_of_two_log A HA Hp) as [k [Hk ->]].
  pose proof (pow2_below_size k Hk) as H2k.
  unfold SIZEOF_PTR in *.
  pose proof (align_up_pow_facts (Z.max C 8) k Hk ltac:(lia) HCA) as [HSm HSr].
  pose proof (align_up_pow_facts raw k Hk ltac:(lia) ltac:(nia)) as [Hbm Hbr].
  unfold new_owned, SIZEOF_PTR, align_pointer.
  set (S := align_up (Z.max C 8) (2 ^ k)) in *.
  set (base := align_up raw (2 ^ k)) in *.
  assert (HS8 : 8 <= S) by lia.
  destruct (Z.eq_dec N 0) as [->|HN0].
  - rewrite Z.mul_0_r. simpl. split.
    + split; simpl; [lia|left; reflexivity].
    + exists []. simpl. split; [reflexivity|]. split; [constructor|].
      split; [constructor|]. split; [constructor|]. intros x [].
  - rewrite (wrap_small (S * N)) by nia.
    destruct (Z.ltb_spec 0 (S * N)) as [_|Hbad]; [|nia].
    apply init_free_list_consistent; simpl; [|lia].
    split; simpl; [lia|right]. repeat split; try lia; try assumption.
Qed.

(** The same for the pool built over a caller's buffer that lies in the
    address space and holds at least [alignment] bytes. *)
Lemma pool_new_borrowed_consistent (buffer size C A : Z) (m m1 : mem) (a : t) :
  0 <= A < SIZE_MOD -> is_power_of_two A = true ->
  0 <= C -> Z.max C SIZEOF_PTR + A <= SIZE_MOD ->
  0 < buffer -> buffer + size <= SIZE_MOD -> A <= size ->
  new_borrowed buffer size C A m = Some (a, m1) ->
  consistent {| pool := a; memory := m1; live := [] |} A.
Proof.
  intros HA Hp HC HCA Hbuf Hend Hsize Hnew.
  destruct (is_power_of_two_log A HA Hp) as [k [Hk ->]].
  pose proof (pow2_below_size k Hk) as H2k.
  unfold SIZEOF_PTR in *.
  pose proof (align_up_pow_facts (Z.max C 8) k Hk ltac:(lia) HCA) as [HSm HSr].
  pose proof (align_up_pow_facts buffer k Hk ltac:(lia) ltac:(lia)) as [Hbm Hbr].
  unfold new_borrowed, SIZEOF_PTR, align_pointer in Hnew.
  set (S := align_up (Z.max C 8) (2 ^ k)) in *.
  set (base := align_up buffer (2 ^ k)) in *.
  assert (HS8 : 8 <= S) by lia.
  destruct (Z.eqb_spec S 0) as [|_]; [lia|].
  rewrite (wrap_small (base - buffer)) in Hnew by lia.
  rewrite (wrap_small (size - (base - buffer))) in Hnew by lia.
  set (usable := size - (base - buffer)) in *.
  assert (Hcount : 0 <= usable / S /\ S * (usable / S) <= usable).
  { split; [apply Z.div_pos; lia|apply Z.mul_div_le; lia]. }
  destruct (Z.ltb_spec 0 (usable / S)) as [Hpos|Hzero].
  - inversion Hnew as [Hinit]; clear Hnew.
    rewrite (surjective_pairing (init_free_list _ m)) in Hinit.
    inversion Hinit; subst a m1; clear Hinit.
    apply init_free_list_consistent; simpl; [|lia].
    split; simpl; [lia|right]. repeat split; try lia; try assumption.
  - inversion Hnew; subst a m1; clear Hnew. split.
    + split; simpl; [lia|left; lia].
    + exists []. simpl. split; [reflexivity|]. split; [constructor|].
      split; [constructor|]. split; [constructor|]. intros x [].
Qed.

Lemma init_free_list_chunk_size (a : t) (m : mem) :
  m_chunk_size (fst (init_free_list a m)) = m_chunk_size a.
Proof.
  unfold init_free_list. destruct (link_chunks _ _ _ _). reflexivity.
Qed.

(** **** C6.  Whatever the state of the pool and the contents of the
    memory: when [allocate] returns a non-null [p] and [deallocate(p)]
    follows, the next [allocate] returns [p] again. *)
Theorem pool_lifo_reuse (a : t) (m m1 : mem) (s1 al1 s2 s3 al3 : Z) :
  let p := fst (allocate a m s1 al1) in
  let a1 := snd (allocate a m s1 al1) in
  let a2 := fst (deallocate a1 m1 p s2) in
  let m2 := snd (deallocate a1 m1 p s2) in
  p <> 0 -> fst (allocate a2 m2 s3 al3) = p.
Proof.
  intros p a1 a2 m2 Hp. subst a2 m2. unfold deallocate.
  destruct (Z.eqb_spec p 0) as [|_]; [contradiction|].
  unfold allocate at 1. simpl.
  destruct (Z.eqb_spec p 0) as [|_]; [contradiction|reflexivity].
Qed.

(** A pool of ten chunks of 64 bytes: the chunk handed out first comes
    back after it was returned. *)
Lemma pool_lifo_reuse_witness :
  let a := fst (new_owned 4100 64 10 16 zeroed) in
  let m := snd (new_owned 4100 64 10 16 zeroed) in
  let p := fst (allocate a m 0 0) in
  let a1 := snd (allocate a m 0 0) in
  p = 4112 /\
  fst (allocate (fst (deallocate a1 m p 0)) (snd (deallocate a1 m p 0)) 0 0)
  = p.
Proof.
  split; [reflexivity|].
  apply (pool_lifo_reuse (fst (new_owned 4100 64 10 16 zeroed))
           (snd (new_owned 4100 64 10 16 zeroed))
           (snd (new_owned 4100 64 10 16 zeroed)) 0 0 0 0 0).
  vm_compute. discriminate.
Defined.

(** **** C7.  For a power-of-two alignment both constructors set the
    chunk size to [align_up(max(chunk_size, sizeof(void* )), alignment)];
    for a chunk size of 10 and an alignment of 64 that is 64, and in every
    run of a pool so built (allocations, returns of chunks the caller
    holds, resets, writes into chunks the caller holds) every pointer
    [allocate] returns is a multiple of 64. *)
Theorem pool_chunk_size_and_alignment :
  (forall raw C N A m,
     is_power_of_two A = true ->
     chunk_size (fst (new_owned raw C N A m))
     = align_up (Z.max C SIZEOF_PTR) A) /\
  (forall buffer size C A m a m1,
     is_power_of_two A = true ->
     new_borrowed buffer size C A m = Some (a, m1) ->
     chunk_size a = align_up (Z.max C SIZEOF_PTR) A) /\
  align_up (Z.max 10 SIZEOF_PTR) 64 = 64 /\
  (forall raw N m ops c ps,
     0 < raw -> 0 <= N -> raw + 64 + N * 64 <= SIZE_MOD ->
     run {| pool := fst (new_owned raw 10 N 64 m);
            memory := snd (new_owned raw 10 N 64 m); live := [] |} ops
     = Some (c, ps) ->
     Forall (fun p => p mod 64 = 0) ps) /\
  (forall buffer size m a m1 ops c ps,
     0 < buffer -> buffer + size <= SIZE_MOD -> 64 <= size ->
     new_borrowed buffer size 10 64 m = Some (a, m1) ->
     run {| pool := a; memory := m1; live := [] |} ops = Some (c, ps) ->
     Forall (fun p => p mod 64 = 0) ps).
Proof.
  split; [|split; [|split; [|split]]].
  - intros raw C N A m _. unfold new_owned, chunk_size.
    destruct (0 <? _); [|reflexivity].
    apply init_free_list_chunk_size.
  - intros buffer size C A m a m1 _ H. unfold new_borrowed in H.
    destruct (_ =? 0) in H; [discriminate|].
    destruct (0 <? _) in H; inversion H as [H1]; clear H; [|reflexivity].
    apply (f_equal fst) in H1. cbn [fst] in H1. rewrite <- H1.
    apply init_free_list_chunk_size.
  - reflexivity.
  - intros raw N m ops c ps Hraw HN Hend Hrun.
    eapply pool_run_consistent; [|exact Hrun].
    change (align_up (Z.max 10 SIZEOF_PTR) 64) with 64 in *.
    apply pool_new_owned_consistent;
      first [assumption | reflexivity
            | change (align_up (Z.max 10 SIZEOF_PTR) 64) with 64;
              unfold SIZE_MOD, SIZEOF_PTR in *; lia].
  - intros buffer size m a m1 ops c ps Hbuf Hend Hsize Hnew Hrun.
    eapply pool_run_consistent; [|exact Hrun].
    apply (pool_new_borrowed_consistent buffer size 10 64 m m1 a);
      first [assumption | reflexivity
            | unfold SIZE_MOD, SIZEOF_PTR in *; lia].
Qed.

(** An owned pool of three chunks of 10 bytes aligned to 64, whose block
    [operator new] put at 4100. *)
Lemma pool_chunk_size_and_alignment_witness :
  exists c,
    run {| pool := fst (new_owned 4100 10 3 64 zeroed);
           memory := snd (new_owned 4100 10 3 64 zeroed); live := [] |}
        [Allocate; Allocate; Write 4170 255; Deallocate 4160; Allocate;
         Allocate; Allocate; Reset; Allocate]
    = Some (c, [4160; 4224; 4160; 4288; 0; 4160]) /\
    Forall (fun p => p mod 64 = 0) [4160; 4224; 4160; 4288; 0; 4160].
Proof.
  eexists. split; [vm_compute; reflexivity|].
  eapply (proj1 (proj2 (proj2 (proj2 pool_chunk_size_and_alignment)))
            4100 3 zeroed
            [Allocate; Allocate; Write 4170 255; Deallocate 4160; Allocate;
             Allocate; Allocate; Reset; Allocate]);
    [lia|lia|unfold SIZE_MOD; lia|vm_compute; reflexivity].
Defined.

End PoolFacts.

(** ** The free-list allocator: the three searches *)
Section HeapSearch.
Import FreeListAllocator HeapSpec.

Variable m : mem.
Variables size alignment : Z.

Let fit (b : Z) : Prop := fits m size alignment b.
Let sz (b : Z) : Z := hdr_size m b.

Lemma fits_dec (b : Z) :
  (wrap (size + block_padding b alignment) <=? hdr_size m b) = true <-> fit b.
Proof. unfold fit, fits, required. apply Z.leb_le. Qed.

(** First fit returns the first block that fits. *)
Lemma first_fit_from_spec (l : list Z) :
  forall (fuel : nat) (head : Z),
    free_list m head l -> (length l <= fuel)%nat ->
    exists r, first_fit_from fuel m head size alignment = Some r /\
      ((r = 0 /\ Forall (fun b => ~ fit b) l) \/
       (exists l1 l2, l = l1 ++ r :: l2 /\ fit r /\
                      Forall (fun b => ~ fit b) l1)).
Proof.
  induction l as [|b rest IH]; intros fuel head Hl Hfuel.
  - unfold free_list in Hl. simpl in Hl. subst head.
    exists 0. split; [destruct fuel; reflexivity|]. left. split; [reflexivity|constructor].
  - destruct Hl as [-> [Hb Hrest]].
    destruct fuel as [|fuel]; [simpl in Hfuel; lia|].
    cbn [first_fit_from]. destruct (Z.eqb_spec b 0) as [|_]; [contradiction|].
    destruct (wrap (size + block_padding b alignment) <=? hdr_size m b) eqn:E.
    + apply fits_dec in E. exists b. split; [reflexivity|]. right.
      exists [], rest. split; [reflexivity|]. split; [exact E|constructor].
    + assert (Hn : ~ fit b) by (intros F; apply fits_dec in F; congruence).
      destruct (IH fuel (hdr_next m b) Hrest ltac:(simpl in Hfuel; lia))
        as [r [Hr [[-> Hall]|[l1 [l2 [-> [Hf Hall]]]]]]];
        eexists; (split; [exact Hr|]).
      * left. split; [reflexivity|]. constructor; assumption.
      * right. exists (b :: l1), l2. split; [reflexivity|].
        split; [exact Hf|]. constructor; assumption.
Qed.

(** Best fit, from any state of its two locals. *)
Lemma best_fit_from_spec (l : list Z) :
  forall (fuel : nat) (head best smallest : Z),
    free_list m head l -> (length l <= fuel)%nat ->
    exists r, best_fit_from fuel m head size alignment best smallest = Some r /\
      ((r = best /\ Forall (fun b => fit b -> smallest <= sz b) l) \/
       (exists l1 l2, l = l1 ++ r :: l2 /\ fit r /\ sz r < smallest /\
          Forall (fun b => fit b -> sz r < sz b) l1 /\
          (exact_fit m size alignment r \/
           Forall (fun b => fit b -> sz r <= sz b) l2))).
Proof.
  induction l as [|b rest IH]; intros fuel head best smallest Hl Hfuel.
  - unfold free_list in Hl. simpl in Hl. subst head.
    exists best. split; [destruct fuel; reflexivity|]. left.
    split; [reflexivity|constructor].
  - destruct Hl as [-> [Hb Hrest]].
    destruct fuel as [|fuel]; [simpl in Hfuel; lia|].
    cbn [best_fit_from]. destruct (Z.eqb_spec b 0) as [|_]; [contradiction|].
    destruct (wrap (size + block_padding b alignment) <=? hdr_size m b) eqn:E;
      [destruct (Z.ltb_spec (hdr_size m b) smallest) as [Hlt|Hge]|]; cbn [andb].
    + apply fits_dec in E.
      destruct (Z.eqb_spec (hdr_size m b)
                  (wrap (size + block_padding b alignment))) as [Ex|Nx].
      * exists b. split; [reflexivity|]. right. exists [], rest.
        split; [reflexivity|]. split; [exact E|]. split; [exact Hlt|].
        split; [constructor|]. left. exact Ex.
      * destruct (IH fuel (hdr_next m b) b (hdr_size m b) Hrest
                    ltac:(simpl in Hfuel; lia))
          as [r [Hr [[-> Hall]|[l1 [l2 [-> [Hf [Hs [Hall Htail]]]]]]]]];
          eexists; (split; [exact Hr|]); right.
        { exists [], rest. split; [reflexivity|]. split; [exact E|].
          split; [exact Hlt|]. split; [constructor|]. right. exact Hall. }
        { exists (b :: l1), l2. split; [reflexivity|]. split; [exact Hf|].
          unfold sz in *. split; [lia|]. split; [|exact Htail].
          constructor; [intros _; lia|exact Hall]. }
    + apply fits_dec in E.
      destruct (IH fuel (hdr_next m b) best smallest Hrest
                  ltac:(simpl in Hfuel; lia))
        as [r [Hr [[-> Hall]|[l1 [l2 [-> [Hf [Hs [Hall Htail]]]]]]]]];
        eexists; (split; [exact Hr|]).
      * left. split; [reflexivity|]. constructor; [intros _; exact Hge|exact Hall].
      * right. exists (b :: l1), l2. split; [reflexivity|]. split; [exact Hf|].
        split; [exact Hs|]. split; [|exact Htail].
        constructor; [intros _; unfold sz in *; lia|exact Hall].
    + assert (Hn : ~ fit b) by (intros F; apply fits_dec in F; congruence).
      destruct (IH fuel (hdr_next m b) best smallest Hrest
                  ltac:(simpl in Hfuel; lia))
        as [r [Hr [[-> Hall]|[l1 [l2 [-> [Hf [Hs [Hall Htail]]]]]]]]];
        eexists; (split; [exact Hr|]).
      * left. split; [reflexivity|]. constructor; [intros F; contradiction|exact Hall].
      * right. exists (b :: l1), l2. split; [reflexivity|]. split; [exact Hf|].
        split; [exact Hs|]. split; [|exact Htail].
        constructor; [intros F; contradiction|exact Hall].
Qed.

(** Worst fit, from any state of its two locals. *)
Lemma worst_fit_from_spec (l : list Z) :
  forall (fuel : nat) (head worst largest : Z),
    free_list m head l -> (length l <= fuel)%nat ->
    exists r, worst_fit_from fuel m head size alignment worst largest = Some r /\
      ((r = worst /\ Forall (fun b => fit b -> sz b <= largest) l) \/
       (exists l1 l2, l = l1 ++ r :: l2 /\ fit r /\ largest < sz r /\
          Forall (fun b => fit b -> sz b < sz r) l1 /\
          Forall (fun b => fit b -> sz b <= sz r) l2)).
Proof.
  induction l as [|b rest IH]; intros fuel head worst largest Hl Hfuel.
  - unfold free_list in Hl. simpl in Hl. subst head.
    exists worst. split; [destruct fuel; reflexivity|]. left.
    split; [reflexivity|constructor].
  - destruct Hl as [-> [Hb Hrest]].
    destruct fuel as [|fuel]; [simpl in Hfuel; lia|].
    cbn [worst_fit_from]. destruct (Z.eqb_spec b 0) as [|_]; [contradiction|].
    destruct (wrap (size + block_padding b alignment) <=? hdr_size m b) eqn:E;
      [destruct (Z.ltb_spec largest (hdr_size m b)) as [Hlt|Hge]|]; cbn [andb].
    + apply fits_dec in E.
      destruct (IH fuel (hdr_next m b) b (hdr_size m b) Hrest
                  ltac:(simpl in Hfuel; lia))
        as [r [Hr [[-> Hall]|[l1 [l2 [-> [Hf [Hs [Hall Htail]]]]]]]]];
        eexists; (split; [exact Hr|]); right.
      * exists [], rest. split; [reflexivity|]. split; [exact E|].
        split; [exact Hlt|]. split; [constructor|exact Hall].
      * exists (b :: l1), l2. split; [reflexivity|]. split; [exact Hf|].
        unfold sz in *. split; [lia|]. split; [|exact Htail].
        constructor; [intros _; lia|exact Hall].
    + apply fits_dec in E.
      destruct (IH fuel (hdr_next m b) worst largest Hrest
                  ltac:(simpl in Hfuel; lia))
        as [r [Hr [[-> Hall]|[l1 [l2 [-> [Hf [Hs [Hall Htail]]]]]]]]];
        eexists; (split; [exact Hr|]).
      * left. split; [reflexivity|]. constructor; [intros _; exact Hge|exact Hall].
      * right. exists (b :: l1), l2. split; [reflexivity|]. split; [exact Hf|].
        split; [exact Hs|]. split; [|exact Htail].
        constructor; [intros _; unfold sz in *; lia|exact Hall].
    + assert (Hn : ~ fit b) by (intros F; apply fits_dec in F; congruence).
      destruct (IH fuel (hdr_next m b) worst largest Hrest
                  ltac:(simpl in Hfuel; lia))
        as [r [Hr [[-> Hall]|[l1 [l2 [-> [Hf [Hs [Hall Htail]]]]]]]]];
        eexists; (split; [exact Hr|]).
      * left. split; [reflexivity|]. constructor; [intros F; contradiction|exact Hall].
      * right. exists (b :: l1), l2. split; [reflexivity|]. split; [exact Hf|].
        split; [exact Hs|]. split; [|exact Htail].
        constructor; [intros F; contradiction|exact Hall].
Qed.

(** Best fit returns the first exact fit, when it is smaller than every
    fitting block before it, whatever follows it in memory. *)
Lemma best_fit_from_stops (l1 : list Z) :
  forall (fuel : nat) (head best smallest b tail : Z),
    segment m head (l1 ++ [b]) tail -> (length l1 < fuel)%nat ->
    exact_fit m size alignment b -> sz b < smallest ->
    Forall (fun x => ~ exact_fit m size alignment x) l1 ->
    Forall (fun x => fit x -> sz b < sz x) l1 ->
    best_fit_from fuel m head size alignment best smallest = Some b.
Proof.
  induction l1 as [|x rest IH];
    intros fuel head best smallest b tail Hseg Hfuel Hex Hlt Hnone Hall.
  - simpl in Hseg. destruct Hseg as [-> [Hb _]].
    destruct fuel as [|fuel]; [lia|].
    cbn [best_fit_from]. destruct (Z.eqb_spec b 0) as [|_]; [contradiction|].
    unfold exact_fit, required in Hex. unfold sz in Hlt.
    rewrite <- Hex. rewrite Z.leb_refl.
    destruct (Z.ltb_spec (hdr_size m b) smallest); [|lia].
    cbn [andb]. rewrite Z.eqb_refl. reflexivity.
  - simpl in Hseg. destruct Hseg as [-> [Hx Hseg]].
    destruct fuel as [|fuel]; [simpl in Hfuel; lia|].
    inversion Hall as [|? ? Hx1 Hall']; subst.
    inversion Hnone as [|? ? Hx2 Hnone']; subst.
    cbn [best_fit_from]. destruct (Z.eqb_spec x 0) as [|_]; [contradiction|].
    destruct (wrap (size + block_padding x alignment) <=? hdr_size m x) eqn:E;
      [destruct (Z.ltb_spec (hdr_size m x) smallest) as [Hl|Hg]|]; cbn [andb].
    + apply fits_dec in E. specialize (Hx1 E). unfold sz in *.
      destruct (Z.eqb_spec (hdr_size m x)
                  (wrap (size + block_padding x alignment))) as [Ex|Nx].
      * exfalso. apply Hx2. exact Ex.
      * eapply IH; try eassumption; simpl in Hfuel; lia.
    + eapply IH; try eassumption; simpl in Hfuel; lia.
    + eapply IH; try eassumption; simpl in Hfuel; lia.
Qed.

End HeapSearch.

(** ** The free-list allocator: the list in memory *)
Section HeapList.
Import FreeListAllocator HeapSpec.

Lemma exists_last_or_nil {A : Type} (l : list A) :
  l = [] \/ exists l0 x, l = l0 ++ [x].
Proof.
  induction l as [|x l0 _] using rev_ind; [left; reflexivity|right; eauto].
Qed.

Lemma segment_ext (l : list Z) :
  forall (m1 m2 : mem) (head tail : Z),
    (forall x, In x l -> hdr_next m1 x = hdr_next m2 x) ->
    segment m1 head l tail -> segment m2 head l tail.
Proof.
  induction l as [|x rest IH]; intros m1 m2 head tail Heq H; simpl in *.
  - exact H.
  - destruct H as [-> [Hnz Hs]]. split; [reflexivity|]. split; [exact Hnz|].
    rewrite <- (Heq x) by (left; reflexivity).
    apply (IH m1); [|exact Hs]. intros y Hy. apply Heq. right. exact Hy.
Qed.

Lemma segment_app (m : mem) (l1 : list Z) :
  forall (l2 : list Z) (head tail : Z),
    segment m head (l1 ++ l2) tail <->
    exists mid, segment m head l1 mid /\ segment m mid l2 tail.
Proof.
  induction l1 as [|x rest IH]; intros l2 head tail; simpl.
  - split.
    + intros H. exists head. split; [reflexivity|exact H].
    + intros [mid [-> H]]. exact H.
  - split.
    + intros [-> [Hnz H]]. apply IH in H. destruct H as [mid [H1 H2]].
      exists mid. repeat split; assumption.
    + intros [mid [[-> [Hnz H1]] H2]]. repeat split; [exact Hnz|].
      apply IH. exists mid. split; assumption.
Qed.

(** Redirecting the [next] of the last block of a segment redirects the
    segment. *)
Lemma segment_retarget (m : mem) (l : list Z) :
  forall (head x tail target : Z),
    NoDup (l ++ [x]) -> apart (l ++ [x]) ->
    segment m head (l ++ [x]) tail ->
    segment (set_next m x target) head (l ++ [x]) (wrap target).
Proof.
  induction l as [|y rest IH]; intros head x tail target Hnd Hap Hs.
  - simpl in *. destruct Hs as [-> [Hnz _]]. split; [reflexivity|].
    split; [exact Hnz|]. unfold hdr_next, set_next.
    apply load64_store64_same.
  - simpl in Hs. destruct Hs as [-> [Hnz Hs]].
    simpl. split; [reflexivity|]. split; [exact Hnz|].
    inversion Hnd as [|? ? Hy Hnd']; subst.
    assert (Hyx : y <> x).
    { intros ->. apply Hy. apply in_or_app. right. left. reflexivity. }
    assert (Hd : y + HEADER_SIZE <= x \/ x + HEADER_SIZE <= y).
    { apply Hap; [left; reflexivity| |exact Hyx].
      right. apply in_or_app. right. left. reflexivity. }
    replace (hdr_next (set_next m x target) y) with (hdr_next m y).
    + apply IH with (tail := tail); [exact Hnd'| |exact Hs].
      intros u v Hu Hv. apply Hap; right; assumption.
    + unfold hdr_next, set_next, HEADER_SIZE in *.
      symmetry. apply load64_store64_disjoint. lia.
Qed.

(** The walk of [remove_free_block] stops at the block before [b]. *)
Lemma predecessor_from_spec (m : mem) (b : Z) (l : list Z) :
  forall (fuel : nat) (head x : Z),
    segment m head (l ++ [x]) b -> ~ In b (l ++ [x]) ->
    (length l <= fuel)%nat ->
    predecessor_from fuel m head b = Some x.
Proof.
  induction l as [|y rest IH]; intros fuel head x Hs Hb Hfuel.
  - simpl in Hs. destruct Hs as [-> [Hnz Hn]].
    destruct fuel; cbn [predecessor_from];
      (destruct (Z.eqb_spec x 0) as [|_]; [contradiction|]);
      rewrite Hn, Z.eqb_refl; reflexivity.
  - simpl in Hs. destruct Hs as [-> [Hnz Hs]].
    destruct fuel as [|fuel]; [simpl in Hfuel; lia|].
    cbn [predecessor_from].
    destruct (Z.eqb_spec y 0) as [|_]; [contradiction|].
    assert (Hne : hdr_next m y <> b).
    { intros E. apply Hb. right.
      destruct rest as [|z rest']; simpl in Hs.
      - destruct Hs as [E2 _]. left. congruence.
      - destruct Hs as [E2 _]. left. congruence. }
    destruct (Z.eqb_spec (hdr_next m y) b) as [|_]; [contradiction|].
    apply IH; [exact Hs| |simpl in Hfuel; lia].
    intros Hin. apply Hb. right. exact Hin.
Qed.

End HeapList.

(** ** The free-list allocator: splitting *)
Section HeapSplit.
Import FreeListAllocator HeapSpec.

Lemma store64_frame (m : mem) (a v y : Z) :
  y < a \/ a + 8 <= y -> store64 m a v y = m y.
Proof. intros H. apply (store_le_outside 8). simpl. lia. Qed.

Lemma store8_frame (m : mem) (a v y : Z) :
  y <> a -> store8 m a v y = m y.
Proof.
  intros H. unfold store8. destruct (Z.eqb_spec y a); [contradiction|reflexivity].
Qed.

Lemma hdr_next_frame (m1 m2 : mem) (x : Z) :
  (forall y, x + 8 <= y < x + 16 -> m1 y = m2 y) ->
  hdr_next m1 x = hdr_next m2 x.
Proof.
  intros H. unfold hdr_next. apply load_le_ext. intros y Hy.
  apply H. simpl in Hy. lia.
Qed.

Lemma block_padding_nonneg (b alignment : Z) : 0 <= block_padding b alignment.
Proof.
  unfold block_padding, calc_padding. apply Z.land_nonneg. left.
  apply wrap_range.
Qed.

Lemma hdr_size_range (m : mem) (b : Z) : 0 <= hdr_size m b < SIZE_MOD.
Proof. apply load64_range. Qed.

(** [split_block] on a block large enough to be split. *)
Lemma split_block_spec (m : mem) (b size pad : Z) :
  0 <= b -> 0 <= pad -> 0 <= size ->
  pad + size + HEADER_SIZE + MIN_BLOCK_SIZE <= hdr_size m b ->
  b + HEADER_SIZE + hdr_size m b <= SIZE_MOD ->
  let m1 := split_block m b size pad in
  let b1 := b + HEADER_SIZE + pad + size in
  split_point b size pad = b1 /\
  hdr_size m1 b1 = hdr_size m b - (pad + size) - HEADER_SIZE /\
  hdr_is_free m1 b1 = true /\
  hdr_padding m1 b1 = 0 /\
  hdr_size m1 b = pad + size /\
  hdr_next m1 b = b1 /\
  hdr_next m1 b1 = hdr_next m b /\
  (forall y, y < b \/ b + HEADER_SIZE + hdr_size m b <= y -> m1 y = m y).
Proof.
  intros Hb Hpad Hsize Hsplit Hend m1 b1.
  pose proof (hdr_size_range m b) as Hhs.
  pose proof (load64_range m (b + 8)) as Hnx.
  unfold HEADER_SIZE, MIN_BLOCK_SIZE, SIZEOF_PTR in *.
  assert (Esp : split_point b size pad = b1).
  { unfold split_point, HEADER_SIZE, b1.
    rewrite (wrap_small (b + 24)) by lia.
    rewrite (wrap_small (b + 24 + pad)) by lia.
    apply wrap_small. lia. }
  assert (Erem : wrap (wrap (wrap (hdr_size m b - size) - pad) - 24)
                 = hdr_size m b - (pad + size) - 24).
  { rewrite (wrap_small (hdr_size m b - size)) by lia.
    rewrite (wrap_small (hdr_size m b - size - pad)) by lia.
    rewrite wrap_small by lia. lia. }
  subst m1. unfold split_block. rewrite Esp.
  unfold HEADER_SIZE. rewrite Erem.
  rewrite (wrap_small (pad + size)) by lia.
  split; [reflexivity|].
  fields.
  repeat split.
  - repeat mem_step. apply wrap_small. lia.
  - repeat mem_step. reflexivity.
  - repeat mem_step. reflexivity.
  - repeat mem_step. apply wrap_small. lia.
  - repeat mem_step. apply wrap_small. unfold b1. lia.
  - repeat mem_step. apply wrap_small. lia.
  - intros y Hy.
    rewrite store64_frame by lia. rewrite store64_frame by lia.
    rewrite store64_frame by lia. rewrite store8_frame by lia.
    rewrite store8_frame by lia. apply store64_frame. lia.
Qed.


Lemma free_list_nonneg (m : mem) (l : list Z) :
  forall head, 0 <= head -> free_list m head l -> Forall (fun x => 0 < x) l.
Proof.
  induction l as [|x rest IH]; intros head Hh H; [constructor|].
  destruct H as [-> [Hnz Hs]]. constructor; [lia|].
  apply (IH (hdr_next m x)); [apply load64_range|exact Hs].
Qed.

(** **** C5 (amended).  When [allocate] splits the block [b] it selected,
    the residual block takes the place [b] had in the free list: the
    blocks before [b] and the blocks after it stay where they were, and
    the residual block is the head exactly when [b] was the head. *)
Theorem heap_split_takes_the_place (fuel : nat) (a : t) (m : mem)
    (size0 alignment b : Z) (l1 l2 : list Z) :
  let size := Z.max size0 MIN_BLOCK_SIZE in
  let pad := block_padding b alignment in
  let b1 := b + HEADER_SIZE + pad + size in
  0 < size0 < SIZE_MOD ->
  0 <= m_free_list a ->
  free_list m (m_free_list a) (l1 ++ b :: l2) ->
  NoDup (l1 ++ b :: l2) -> apart (l1 ++ b :: l2) ->
  Forall (outside m b) (l1 ++ l2) ->
  b + HEADER_SIZE + hdr_size m b <= SIZE_MOD ->
  (length l1 <= fuel)%nat ->
  find_block fuel a m size alignment = Some b ->
  pad + size + HEADER_SIZE + MIN_BLOCK_SIZE <= hdr_size m b ->
  exists a1 m1,
    allocate fuel a m size0 alignment
    = Some (b + HEADER_SIZE + pad, a1, m1) /\
    free_list m1 (m_free_list a1) (l1 ++ b1 :: l2) /\
    hdr_size m1 b1 = hdr_size m b - (pad + size) - HEADER_SIZE /\
    hdr_is_free m1 b1 = true /\
    hdr_size m1 b = pad + size /\
    hdr_is_free m1 b = false /\
    (m_free_list a1 = b1 <-> l1 = []).
Proof.
  intros size pad b1 Hsize0 Hhead Hfl Hnd Hap Hout Hend Hfuel Hfind Hsplit.
  pose proof (hdr_size_range m b) as Hhs.
  pose proof (block_padding_nonneg b alignment) as Hpad. fold pad in Hpad.
  pose proof (free_list_nonneg m _ _ Hhead Hfl) as Hpos.
  assert (Hb : 0 < b).
  { rewrite Forall_forall in Hpos. apply Hpos. apply in_or_app.
    right. left. reflexivity. }
  assert (Hsz : 8 <= size < SIZE_MOD).
  { unfold size, MIN_BLOCK_SIZE, SIZEOF_PTR, SIZE_MOD in *. lia. }
  destruct (split_block_spec m b size pad ltac:(lia) Hpad ltac:(lia) Hsplit Hend)
    as [Esp [Hs1 [Hf1 [Hp1 [Hsb [Hnb [Hnb1 Hframe]]]]]]].
  fold b1 in Esp, Hs1, Hf1, Hp1, Hnb, Hnb1.
  set (m6 := split_block m b size pad) in *.
  unfold HEADER_SIZE, MIN_BLOCK_SIZE, SIZEOF_PTR in *.
  assert (Hb1 : b + 24 + 8 <= b1 /\ b1 + 24 + 8 <= b + 24 + hdr_size m b)
    by (unfold b1; lia).
  (* the blocks of the list other than [b] keep their [next] *)
  assert (Hkeep : forall x, In x (l1 ++ l2) -> hdr_next m6 x = hdr_next m x).
  { intros x Hx. rewrite Forall_forall in Hout. specialize (Hout x Hx).
    unfold outside, HEADER_SIZE in Hout.
    apply hdr_next_frame. intros y Hy. apply Hframe. lia. }
  assert (Hother : forall x, In x (l1 ++ l2) ->
            x + 24 <= b \/ b + 24 + hdr_size m b <= x).
  { intros x Hx. rewrite Forall_forall in Hout. apply (Hout x Hx). }
  apply segment_app in Hfl. destruct Hfl as [mid [Hseg1 Hseg2]].
  simpl in Hseg2. destruct Hseg2 as [-> [Hbnz Hseg2]].
  (* the steps of [allocate] up to [remove_free_block] *)
  unfold allocate. destruct (Z.eqb_spec size0 0) as [|_]; [lia|].
  change (Z.max size0 MIN_BLOCK_SIZE) with size.
  rewrite Hfind. destruct (Z.eqb_spec b 0) as [|_]; [lia|].
  change (block_padding b alignment) with pad.
  unfold HEADER_SIZE, MIN_BLOCK_SIZE, SIZEOF_PTR.
  rewrite (wrap_small (pad + size)) by lia.
  rewrite (wrap_small (pad + size + 24)) by lia.
  rewrite (wrap_small (pad + size + 24 + 8)) by lia.
  destruct (Z.leb_spec (pad + size + 24 + 8) (hdr_size m b)) as [_|Hno]; [|lia].
  change (split_block m b size pad) with m6.
  rewrite (wrap_small (b + 24)) by lia.
  rewrite (wrap_small (b + 24 + pad)) by lia.
  destruct (exists_last_or_nil l1) as [->|[l0 [xk ->]]].
  - (* [b] was the head *)
    simpl in Hseg1. unfold remove_free_block. rewrite Hseg1.
    rewrite Z.eqb_refl. rewrite Hnb.
    eexists. eexists. split; [reflexivity|].
    cbn [m_free_list with_used with_list app].
    split; [|split; [|split; [|split; [|split]]]].
    + unfold free_list. simpl. split; [reflexivity|]. split; [lia|].
      fields. repeat mem_step. rewrite Hnb1.
      apply (segment_ext l2 m); [|exact Hseg2].
      intros x Hx. specialize (Hother x Hx). specialize (Hkeep x Hx).
      fields. repeat mem_step. symmetry. exact Hkeep.
    + fields. repeat mem_step. exact Hs1.
    + fields. repeat mem_step. exact Hf1.
    + fields. repeat mem_step. exact Hsb.
    + fields. repeat mem_step. reflexivity.
    + split; reflexivity.
  - (* [b] had a predecessor [xk] *)
    assert (Hxk : In xk ((l0 ++ [xk]) ++ l2)).
    { apply in_or_app. left. apply in_or_app. right. left. reflexivity. }
    assert (Hnd1 : NoDup ((l0 ++ [xk]) ++ [b])).
    { rewrite <- app_assoc in Hnd |- *. simpl in Hnd |- *.
      clear - Hnd. induction l0 as [|y r IH]; simpl in *.
      - inversion Hnd as [|? ? H1 H2]; subst. inversion H2; subst.
        constructor.
        + intros [E|[]]. apply H1. left. exact E.
        + constructor; [intros []|constructor].
      - inversion Hnd as [|? ? H1 H2]; subst. constructor.
        + intros Hin. apply H1. apply in_app_or in Hin.
          apply in_or_app. destruct Hin as [Hin|[<-|[<-|[]]]].
          * left. exact Hin.
          * right. left. reflexivity.
          * right. right. left. reflexivity.
        + apply IH. exact H2. }
    assert (Hbnot : ~ In b (l0 ++ [xk])).
    { intros Hin. apply NoDup_remove_2 in Hnd. apply Hnd.
      apply in_or_app. left. exact Hin. }
    assert (Hhd : m_free_list a <> b).
    { destruct l0 as [|y r]; simpl in Hseg1; destruct Hseg1 as [-> _];
        intros E; apply Hbnot; rewrite <- E; left; reflexivity. }
    assert (Hseg6 : segment m6 (m_free_list a) (l0 ++ [xk]) b).
    { apply (segment_ext _ m); [|exact Hseg1].
      intros x Hx. symmetry. apply Hkeep. apply in_or_app. left. exact Hx. }
    unfold remove_free_block.
    destruct (Z.eqb_spec (m_free_list a) b) as [|_]; [contradiction|].
    rewrite (predecessor_from_spec m6 b l0 fuel (m_free_list a) xk Hseg6 Hbnot)
      by (rewrite length_app in Hfuel; simpl in Hfuel; lia).
    assert (Hxkpos : 0 < xk)
      by (rewrite Forall_forall in Hpos; apply Hpos; apply in_or_app; left;
          apply in_or_app; right; left; reflexivity).
    destruct (Z.eqb_spec xk 0) as [|_]; [lia|].
    rewrite Hnb.
    eexists. eexists. split; [reflexivity|].
    cbn [m_free_list with_used with_list].
    pose proof (Hother xk Hxk) as Hxo.
    assert (Hapk : forall x, In x (l0 ++ l2) -> x + 24 <= xk \/ xk + 24 <= x).
    { intros x Hx. apply Hap.
      - apply in_app_or in Hx. apply in_or_app. destruct Hx as [Hx|Hx].
        + left. apply in_or_app. left. exact Hx.
        + right. right. exact Hx.
      - apply in_or_app. left. apply in_or_app. right. left. reflexivity.
      - intros ->. rewrite <- app_assoc in Hnd. simpl in Hnd.
        apply NoDup_remove_2 in Hnd. apply Hnd.
        apply in_app_or in Hx. apply in_or_app. destruct Hx as [Hx|Hx].
        + left. exact Hx.
        + right. right. exact Hx. }
    split; [|split; [|split; [|split; [|split]]]].
    + unfold free_list. apply segment_app. exists b1. split.
      * apply (segment_ext _ (set_next m6 xk b1)).
        { intros x Hx. fields.
          assert (Hxo' : x + 24 <= b \/ b + 24 + load64 m b <= x)
            by (apply Hother; apply in_or_app; left; exact Hx).
          repeat mem_step. reflexivity. }
        rewrite <- (wrap_small b1) at 2 by lia.
        apply segment_retarget with (tail := b); [| |exact Hseg6].
        { exact (NoDup_app_remove_r _ _ Hnd1). }
        { intros u v Hu Hv. apply Hap; apply in_or_app; left; assumption. }
      * simpl. split; [reflexivity|]. split; [lia|].
        fields. repeat mem_step. rewrite Hnb1.
        apply (segment_ext l2 m); [|exact Hseg2].
        intros x Hx.
        assert (Hx' : In x ((l0 ++ [xk]) ++ l2))
          by (apply in_or_app; right; exact Hx).
        specialize (Hother x Hx'). specialize (Hkeep x Hx').
        assert (Hxx : x + 24 <= xk \/ xk + 24 <= x)
          by (apply Hapk; apply in_or_app; right; exact Hx).
        fields. repeat mem_step. symmetry. exact Hkeep.
    + fields. repeat mem_step. exact Hs1.
    + fields. repeat mem_step. exact Hf1.
    + fields. repeat mem_step. exact Hsb.
    + fields. repeat mem_step. reflexivity.
    + split.
      * intros E. exfalso.
        destruct l0 as [|y r]; simpl in Hseg1; destruct Hseg1 as [Eh _].
        -- rewrite Eh in E. lia.
        -- assert (Hy : In y (((y :: r) ++ [xk]) ++ l2)) by (left; reflexivity).
           specialize (Hother y Hy). rewrite Eh in E. lia.
      * intros E. destruct l0; discriminate.
Qed.

End HeapSplit.

(** ** The free-list allocator: alignment, accounting, fit and split *)
Section HeapClaims.
Import FreeListAllocator HeapSpec.

Lemma block_padding_one (b : Z) : block_padding b 1 = 0.
Proof.
  unfold block_padding, calc_padding.
  change (wrap (1 - 1)) with 0. apply Z.land_0_r.
Qed.

(** A pointer [allocate] returns is aligned to the power of two that was
    asked for. *)
Lemma heap_allocate_aligned (fuel : nat) (a a1 : t) (m m1 : mem)
    (size alignment p : Z) :
  0 <= alignment < SIZE_MOD -> is_power_of_two alignment = true ->
  allocate fuel a m size alignment = Some (p, a1, m1) ->
  p mod alignment = 0.
Proof.
  intros HA Hp H. destruct (is_power_of_two_log alignment HA Hp) as [k [Hk ->]].
  unfold allocate in H.
  destruct (size =? 0); [inversion H; apply Zmod_0_l|].
  destruct (find_block _ _ _ _ _) as [block|]; [|discriminate].
  destruct (block =? 0); [inversion H; apply Zmod_0_l|].
  destruct (remove_free_block _ _ _ _) as [[a2 m2]|]; [|discriminate].
  inversion H; subst; clear H.
  rewrite wrap_mod_pow by exact Hk.
  unfold block_padding. apply calc_padding_aligns. exact Hk.
Qed.

(** Construction and [reset] leave one free block that covers the region:
    H1 and H5 hold. *)
Lemma heap_init_accounted (fuel : nat) (a : t) (m : mem) :
  HEADER_SIZE < m_size a < SIZE_MOD ->
  accounted (S fuel) (fst (init a m)) (snd (init a m)) = true.
Proof.
  unfold HEADER_SIZE. intros Hs.
  assert (Hsz : hdr_size (snd (init a m)) (m_memory a) = m_size a - 24).
  { unfold init. cbn [snd]. fields. repeat mem_step. unfold HEADER_SIZE.
    rewrite (wrap_small (m_size a - 24)) by lia. apply wrap_small. lia. }
  assert (Hfr : hdr_is_free (snd (init a m)) (m_memory a) = true).
  { unfold init. cbn [snd]. fields. repeat mem_step. reflexivity. }
  assert (Ha : fst (init a m) = with_used (with_list a (m_memory a)) 0)
    by reflexivity.
  unfold accounted. rewrite Ha.
  cbn [m_memory m_size with_used with_list used_size m_used].
  revert Hsz Hfr. generalize (snd (init a m)). intros m1 Hsz Hfr.
  cbn [blocks].
  destruct (Z.eqb_spec (m_memory a) (m_memory a + m_size a)) as [E|_]; [lia|].
  destruct (Z.ltb_spec (m_memory a + m_size a) (m_memory a)) as [L|_]; [lia|].
  rewrite Hsz. unfold HEADER_SIZE.
  replace (m_memory a + 24 + (m_size a - 24)) with (m_memory a + m_size a) by lia.
  assert (Hend : forall k, blocks k m1 (m_memory a + m_size a)
                                  (m_memory a + m_size a) = Some []).
  { intros k. destruct k; cbn [blocks]; rewrite Z.eqb_refl; reflexivity. }
  rewrite Hend. cbn [tiled_bytes used_bytes]. rewrite Hsz, Hfr.
  unfold HEADER_SIZE.
  replace (24 + (m_size a - 24) + 0) with (m_size a) by lia.
  rewrite Z.eqb_refl. reflexivity.
Qed.

(** **** C3 (as stated, refuted).  On a free list whose second block is
    an exact fit for a request of 96 bytes aligned to 16, best fit does
    not stop there: it goes on to the third block and returns it. *)
Lemma heap_best_fit_passes_an_exact_fit :
  let a := fst (unpack three_free_blocks) in
  let m := snd (unpack three_free_blocks) in
  free_list m (m_free_list a) [4104; 4272; 4440] /\
  exact_fit m 96 16 4272 /\
  find_best_fit 8 a m 96 16 = Some 4440.
Proof.
  vm_compute. repeat split; try reflexivity; discriminate.
Qed.

(** **** C3 (amended).  On the free list {80, 200, 120} with no padding
    needed a request of 100 bytes selects the block of 200 bytes under
    first fit, of 120 bytes under best fit and of 200 bytes under worst
    fit.  In general first fit returns the first block that fits; best
    fit returns a fitting block smaller than every fitting block before
    it and, unless it is an exact fit, no larger than any after it; worst
    fit returns a fitting block larger than every fitting block before it
    and no smaller than any after it.  Best fit stops at the first exact
    fit when that block is smaller than every fitting block before it. *)
Theorem heap_fit_strategies :
  (fit_example FirstFit = Some ([80; 200; 120], 200) /\
   fit_example BestFit = Some ([80; 200; 120], 120) /\
   fit_example WorstFit = Some ([80; 200; 120], 200) /\
   forall b, block_padding b 1 = 0) /\
  (forall fuel a m size alignment l,
     free_list m (m_free_list a) l -> (length l <= fuel)%nat ->
     (exists r, find_first_fit fuel a m size alignment = Some r /\
                earliest_fit m size alignment l r) /\
     (exists r, find_best_fit fuel a m size alignment = Some r /\
                smallest_fit m size alignment l r) /\
     (exists r, find_worst_fit fuel a m size alignment = Some r /\
                largest_fit m size alignment l r)) /\
  (forall fuel a m size alignment l1 b tail,
     segment m (m_free_list a) (l1 ++ [b]) tail -> (length l1 < fuel)%nat ->
     exact_fit m size alignment b -> hdr_size m b < SIZE_MAX ->
     Forall (fun x => ~ exact_fit m size alignment x) l1 ->
     Forall (fun x => fits m size alignment x -> hdr_size m b < hdr_size m x)
            l1 ->
     find_best_fit fuel a m size alignment = Some b).
Proof.
  split; [|split].
  - split; [vm_compute; reflexivity|].
    split; [vm_compute; reflexivity|].
    split; [vm_compute; reflexivity|]. exact block_padding_one.
  - intros fuel a m size alignment l Hl Hfuel. split; [|split].
    + apply first_fit_from_spec; assumption.
    + destruct (best_fit_from_spec m size alignment l fuel (m_free_list a)
                  0 SIZE_MAX Hl Hfuel) as [r [Hr H]].
      exists r. split; [exact Hr|]. unfold smallest_fit.
      destruct H as [[-> H]|[l1 [l2 [E [Hf [_ [H1 H2]]]]]]].
      * left. split; [reflexivity|exact H].
      * right. exists l1, l2. repeat split; assumption.
    + destruct (worst_fit_from_spec m size alignment l fuel (m_free_list a)
                  0 0 Hl Hfuel) as [r [Hr H]].
      exists r. split; [exact Hr|]. unfold largest_fit.
      destruct H as [[-> H]|[l1 [l2 [E [Hf [_ [H1 H2]]]]]]].
      * left. split; [reflexivity|exact H].
      * right. exists l1, l2. repeat split; assumption.
  - intros fuel a m size alignment l1 b tail Hseg Hfuel Hex Hlt Hnone Hall.
    unfold find_best_fit.
    apply (best_fit_from_stops m size alignment l1 fuel (m_free_list a)
             0 SIZE_MAX b tail); assumption.
Qed.

(** Best fit on the seeded heap, whose free blocks lie at 4528, 4272 and
    4096. *)
Lemma heap_fit_strategies_witness :
  let a := fst (unpack (seeded BestFit)) in
  let m := snd (unpack (seeded BestFit)) in
  exists r, find_best_fit 8 a m 100 1 = Some r /\
            smallest_fit m 100 1 [4528; 4272; 4096] r.
Proof.
  intros a m.
  refine (proj1 (proj2 (proj1 (proj2 heap_fit_strategies) 8%nat a m 100 1
                              [4528; 4272; 4096] _ _))).
  - vm_compute. repeat split; try reflexivity; discriminate.
  - simpl. lia.
Defined.

(** **** C5 (as stated, refuted).  The free list holds the block at 4096
    (16 bytes) and then the block at 4176 (920 bytes).  A request of 100
    bytes selects the second block and splits it; afterwards the head of
    the free list is still the block at 4096, and the residual block, at
    4300, comes after it. *)
Lemma heap_split_residual_not_at_head :
  let a := fst (unpack two_free_blocks) in
  let m := snd (unpack two_free_blocks) in
  free_list m (m_free_list a) [4096; 4176] /\
  find_block 8 a m 100 1 = Some 4176 /\
  block_padding 4176 1 + 100 + HEADER_SIZE + MIN_BLOCK_SIZE
  <= hdr_size m 4176 /\
  split_point 4176 100 (block_padding 4176 1) = 4300 /\
  match allocate 8 a m 100 1 with
  | Some (p, a1, m1) =>
      p = 4200 /\ hdr_is_free m1 4300 = true /\
      m_free_list a1 = 4096 /\ hdr_next m1 4096 = 4300 /\
      m_free_list a1 <> 4300
  | None => False
  end.
Proof.
  vm_compute. repeat split; try reflexivity; discriminate.
Qed.

(** The split of the second of two free blocks: the residual block, at
    4300, is second on the new free list. *)
Lemma heap_split_takes_the_place_witness :
  let a := fst (unpack two_free_blocks) in
  let m := snd (unpack two_free_blocks) in
  exists a1 m1,
    allocate 8 a m 100 1 = Some (4200, a1, m1) /\
    free_list m1 (m_free_list a1) [4096; 4300] /\
    hdr_size m1 4300 = 796 /\
    hdr_is_free m1 4300 = true /\
    hdr_size m1 4176 = 100 /\
    hdr_is_free m1 4176 = false /\
    (m_free_list a1 = 4300 <-> [4096] = []).
Proof.
  intros a m.
  assert (Hs : hdr_size m 4176 = 920) by (vm_compute; reflexivity).
  assert (Hp : block_padding 4176 1 = 0) by apply block_padding_one.
  pose proof (heap_split_takes_the_place 8 a m 100 1 4176 [4096] []) as H.
  cbv zeta in H. rewrite Hs, Hp in H.
  apply H; clear H.
  - unfold SIZE_MOD. lia.
  - vm_compute. discriminate.
  - vm_compute. repeat split; try reflexivity; discriminate.
  - simpl. repeat constructor; simpl; intuition lia.
  - intros x y [<-|[<-|[]]] [<-|[<-|[]]] N; unfold HEADER_SIZE; lia.
  - simpl. constructor; [|constructor]. unfold outside, HEADER_SIZE. lia.
  - unfold HEADER_SIZE, SIZE_MOD. lia.
  - simpl. lia.
  - vm_compute. reflexivity.
  - vm_compute. discriminate.
Defined.

(** The header [deallocate] works on is never more than
    [HEADER_SIZE + alignof(std::max_align_t)] bytes before the pointer,
    whatever the memory holds. *)
Lemma recover_header_range (a : t) (m : mem) (p : Z) :
  HEADER_SIZE + MAX_ALIGN <= p < SIZE_MOD ->
  p - (HEADER_SIZE + MAX_ALIGN) <= recover_header a m p <= p - HEADER_SIZE.
Proof.
  unfold HEADER_SIZE, MAX_ALIGN. intros Hp. unfold recover_header.
  assert (Hscan : forall n offset,
            24 <= offset -> offset + Z.of_nat n <= 41 ->
            scan_header n a m p offset = 0 \/
            p - 40 <= scan_header n a m p offset <= p - 24).
  { induction n as [|n IH]; intros offset Hlo Hhi; [left; reflexivity|].
    cbn [scan_header].
    destruct (_ && _ && _).
    - right. rewrite wrap_small by lia. lia.
    - apply IH; lia. }
  destruct (Hscan (Z.to_nat (16 + 1)) 24 ltac:(lia) ltac:(simpl; lia)) as [E|R].
  - unfold MAX_ALIGN, HEADER_SIZE. rewrite E. simpl.
    rewrite wrap_small by lia. lia.
  - unfold MAX_ALIGN, HEADER_SIZE.
    destruct (Z.eqb_spec (scan_header (Z.to_nat (16 + 1)) a m p 24) 0) as [E|N].
    + rewrite wrap_small by lia. lia.
    + exact R.
Qed.

(** When the block was allocated without padding, [deallocate] finds its
    header at the first offset it tries. *)
Lemma recover_header_zero_padding (a : t) (m : mem) (h : Z) :
  0 <= h -> h + HEADER_SIZE < SIZE_MOD -> m_memory a <= h ->
  hdr_is_free m h = false -> hdr_padding m h = 0 ->
  recover_header a m (h + HEADER_SIZE) = h.
Proof.
  unfold HEADER_SIZE. intros Hh Hend Hbase Hfree Hpad.
  unfold recover_header, MAX_ALIGN, HEADER_SIZE.
  change (Z.to_nat (16 + 1)) with 17%nat. cbn [scan_header].
  replace (h + 24 - 24) with h by lia.
  rewrite (wrap_small h) by lia. rewrite Hfree, Hpad.
  destruct (Z.leb_spec (m_memory a) h) as [_|]; [|lia].
  cbn. destruct (Z.eqb_spec h 0); [lia|reflexivity].
Qed.

(** The block at which the walk of [remove_free_block] stops points
    to [b]. *)
Lemma predecessor_from_next (m : mem) (b : Z) (fuel : nat) :
  forall head c,
    predecessor_from fuel m head b = Some c -> c <> 0 -> hdr_next m c = b.
Proof.
  induction fuel as [|k IH]; intros head c E N; cbn [predecessor_from] in E;
    destruct (Z.eqb_spec head 0) as [->|_]; try congruence;
    destruct (Z.eqb_spec (hdr_next m head) b) as [Eb|_]; try congruence.
  apply (IH _ _ E N).
Qed.

(** [remove_free_block] changes neither the region nor the byte count,
    and writes at most one [next] field. *)
Lemma remove_free_block_keeps (fuel : nat) (a a2 : t) (m m2 : mem) (b : Z) :
  remove_free_block fuel a m b = Some (a2, m2) ->
  m_memory a2 = m_memory a /\ m_size a2 = m_size a /\
  m_used a2 = m_used a /\
  (m2 = m \/ exists c, c <> 0 /\ hdr_next m c = b /\
                       m2 = set_next m c (hdr_next m b)).
Proof.
  unfold remove_free_block. intros H.
  destruct (m_free_list a =? b).
  - inversion H; subst. simpl. auto.
  - destruct (predecessor_from fuel m (m_free_list a) b) as [c|] eqn:E;
      [|discriminate].
    destruct (Z.eqb_spec c 0) as [->|N]; inversion H; subst; clear H.
    + auto.
    + repeat split; try reflexivity. right. exists c. split; [exact N|].
      split; [|reflexivity]. exact (predecessor_from_next _ _ _ _ _ E N).
Qed.

Lemma m_used_with_used (a : t) (u : Z) : m_used (with_used a u) = u.
Proof. reflexivity. Qed.

Lemma m_used_with_list (a : t) (h : Z) : m_used (with_list a h) = m_used a.
Proof. reflexivity. Qed.

(** The round trip of C4 for a block that needs no padding: [deallocate]
    finds the header [allocate] wrote and [used_size] is back at its value
    before the allocation. *)
Lemma heap_round_trip_without_padding (fuel fuel1 : nat) (a a1 a2 : t)
    (m m1 m2 : mem) (size alignment b p : Z) :
  0 <= m_used a < SIZE_MOD ->
  find_block fuel a m (Z.max size MIN_BLOCK_SIZE) alignment = Some b ->
  0 < b -> b + HEADER_SIZE < SIZE_MOD -> m_memory a <= b ->
  block_padding b alignment = 0 ->
  allocate fuel a m size alignment = Some (p, a1, m1) ->
  deallocate fuel1 a1 m1 p = Some (a2, m2) ->
  size <> 0 ->
  p = b + HEADER_SIZE /\ recover_header a1 m1 p = b /\
  used_size a2 = used_size a.
Proof.
  unfold HEADER_SIZE.
  intros Hused Hfind Hb Hend Hbase Hpad Halloc Hfree Hsize.
  unfold allocate in Halloc.
  destruct (Z.eqb_spec size 0) as [|_]; [contradiction|].
  rewrite Hfind in Halloc.
  destruct (Z.eqb_spec b 0) as [|_]; [lia|].
  rewrite Hpad in Halloc.
  destruct (remove_free_block fuel a _ b) as [[a3 m3]|] eqn:Hrem;
    [|discriminate].
  destruct (remove_free_block_keeps _ _ _ _ _ _ Hrem) as [Hmem [_ [Hu _]]].
  remember (set_padding (set_is_free m3 b false) b 0) as m4 eqn:Em4.
  remember (wrap (HEADER_SIZE + hdr_size m4 b)) as d eqn:Ed.
  assert (Hp : p = b + 24).
  { assert (E : Some (wrap (wrap (b + HEADER_SIZE) + 0),
                      with_used a3 (wrap (m_used a3 + d)), m4)
                = Some (p, a1, m1)) by exact Halloc.
    assert (E1 : wrap (wrap (b + HEADER_SIZE) + 0) = p) by congruence.
    unfold HEADER_SIZE in E1. rewrite (wrap_small (b + 24)) in E1 by lia.
    rewrite Z.add_0_r, (wrap_small (b + 24)) in E1 by lia. lia. }
  assert (Ha1 : a1 = with_used a3 (wrap (m_used a3 + d))) by congruence.
  assert (Hm1 : m1 = m4) by congruence.
  clear Halloc. subst m1.
  assert (Hfr : hdr_is_free m4 b = false).
  { subst m4. fields. repeat mem_step. reflexivity. }
  assert (Hpd : hdr_padding m4 b = 0).
  { subst m4. fields. repeat mem_step. reflexivity. }
  assert (Hrec : recover_header a1 m4 p = b).
  { subst p. apply recover_header_zero_padding; unfold HEADER_SIZE; try lia;
      try assumption.
    subst a1. change (m_memory (with_used a3 _)) with (m_memory a3). lia. }
  split; [exact Hp|]. split; [exact Hrec|].
  unfold deallocate in Hfree.
  destruct (Z.eqb_spec p 0) as [|_]; [lia|].
  rewrite Hrec in Hfree. unfold insert_free_block in Hfree.
  rewrite <- Ed in Hfree.
  destruct (coalesce _ _ _) as [m5|]; [|discriminate].
  assert (Ha2 : a2 = with_list (with_used a1 (wrap (m_used a1 - d))) b)
    by congruence.
  unfold used_size. rewrite Ha2, m_used_with_list, m_used_with_used.
  rewrite Ha1, m_used_with_used, Hu.
  unfold wrap. rewrite Zminus_mod_idemp_l.
  replace (m_used a + d - d) with (m_used a) by lia.
  apply Z.mod_small. exact Hused.
Qed.

(** What a successful [allocate] leaves behind: the block [b] the search
    selected is marked as used, records its padding (modulo 256), and the
    pointer returned lies [HEADER_SIZE + padding] bytes after [b]. *)
Lemma heap_allocate_result (fuel : nat) (a a1 : t) (m m1 : mem)
    (size alignment p : Z) :
  allocate fuel a m size alignment = Some (p, a1, m1) -> p <> 0 ->
  exists b,
    find_block fuel a m (Z.max size MIN_BLOCK_SIZE) alignment = Some b /\
    b <> 0 /\
    p = wrap (wrap (b + HEADER_SIZE) + block_padding b alignment) /\
    hdr_is_free m1 b = false /\
    hdr_padding m1 b = block_padding b alignment mod 256 /\
    m_memory a1 = m_memory a.
Proof.
  intros H Hp. unfold allocate in H.
  destruct (size =? 0); [congruence|].
  destruct (find_block _ _ _ _ _) as [b|]; [|discriminate].
  destruct (Z.eqb_spec b 0) as [|Hb]; [congruence|].
  destruct (remove_free_block _ _ _ _) as [[a2 m2]|] eqn:Hrem; [|discriminate].
  destruct (remove_free_block_keeps _ _ _ _ _ _ Hrem) as [Hmem _].
  remember (set_padding (set_is_free m2 b false) b
              (block_padding b alignment)) as m4 eqn:Em4.
  exists b. split; [reflexivity|]. split; [exact Hb|].
  split; [congruence|].
  assert (Hm : m1 = m4) by congruence.
  assert (Ha : m_memory a1 = m_memory a2).
  { assert (E : a1 = with_used a2
                       (wrap (m_used a2 + wrap (HEADER_SIZE + hdr_size m4 b))))
      by congruence.
    rewrite E. reflexivity. }
  subst m1 m4. split; [|split].
  - fields. repeat mem_step. reflexivity.
  - fields. repeat mem_step. reflexivity.
  - congruence.
Qed.

(** A block allocated with more than [alignof(std::max_align_t)] bytes of
    padding is out of reach of the scan of [deallocate], whatever the
    memory holds. *)
Lemma heap_header_out_of_reach (fuel : nat) (a a1 : t) (m m1 : mem)
    (size alignment p b : Z) :
  allocate fuel a m size alignment = Some (p, a1, m1) -> p <> 0 ->
  find_block fuel a m (Z.max size MIN_BLOCK_SIZE) alignment = Some b ->
  0 <= b -> b + HEADER_SIZE + block_padding b alignment < SIZE_MOD ->
  MAX_ALIGN < block_padding b alignment ->
  recover_header a1 m1 p <> b.
Proof.
  unfold HEADER_SIZE, MAX_ALIGN. intros H Hp Hfind Hb Hend Hpad.
  destruct (heap_allocate_result _ _ _ _ _ _ _ _ H Hp)
    as [b1 [Hf [_ [Ep _]]]].
  assert (b1 = b) by congruence. subst b1. unfold HEADER_SIZE in Ep.
  rewrite (wrap_small (b + 24)) in Ep by lia.
  rewrite wrap_small in Ep by lia.
  pose proof (recover_header_range a1 m1 p) as R.
  unfold HEADER_SIZE, MAX_ALIGN in R. lia.
Qed.

(** **** C2.  A heap over a zeroed buffer of 1024 bytes at address 4096
    satisfies H1 and H5 after construction and after [allocate(100)] with
    the default alignment; [deallocate] of the pointer just returned
    leaves the blocks tiling the region but sets [used_size] to
    2^64 - 4120 although no block is in use. *)
Theorem heap_deallocate_breaks_accounting :
  let s0 := new_borrowed 4096 1024 FirstFit zeroed in
  accounted 8 (fst s0) (snd s0) = true /\
  match allocate 8 (fst s0) (snd s0) 100 MAX_ALIGN with
  | Some (p, a1, m1) =>
      p = 4128 /\ accounted 8 a1 m1 = true /\
      match deallocate 8 a1 m1 p with
      | Some (a2, m2) =>
          blocks 8 m2 4096 (4096 + 1024) = Some [4096; 4228] /\
          tiled_bytes m2 [4096; 4228] = 1024 /\
          used_bytes m2 [4096; 4228] = 0 /\
          used_size a2 = SIZE_MOD - 4120 /\
          accounted 8 a2 m2 = false
      | None => False
      end
  | None => False
  end.
Proof.
  vm_compute. repeat split; reflexivity.
Qed.

(** **** C4.  On a heap over a zeroed buffer of 1024 bytes,
    [allocate(10, 32)] returns a pointer that is a multiple of 32, but
    the following [deallocate] does not find the header [allocate]
    wrote: with the buffer at 4096 (padding 8) it takes the block to
    start at 4104 instead of 4096, with the buffer at 4112 (padding 24)
    at 4136 instead of 4112, and [used_size], 0 before the allocation, is
    2^64 - 4120, respectively 34, afterwards. *)
Theorem heap_deallocate_misses_the_header :
  (let s0 := new_borrowed 4096 1024 FirstFit zeroed in
   used_size (fst s0) = 0 /\
   match allocate 8 (fst s0) (snd s0) 10 32 with
   | Some (p, a1, m1) =>
       p = 4128 /\ p mod 32 = 0 /\
       hdr_is_free m1 4096 = false /\ hdr_padding m1 4096 = 8 /\
       p - HEADER_SIZE - hdr_padding m1 4096 = 4096 /\
       recover_header a1 m1 p = 4104 /\
       match deallocate 8 a1 m1 p with
       | Some (a2, _) => used_size a2 = SIZE_MOD - 4120
       | None => False
       end
   | None => False
   end) /\
  (let s0 := new_borrowed 4112 1024 FirstFit zeroed in
   used_size (fst s0) = 0 /\
   match allocate 8 (fst s0) (snd s0) 10 32 with
   | Some (p, a1, m1) =>
       p = 4160 /\ p mod 32 = 0 /\
       hdr_is_free m1 4112 = false /\ hdr_padding m1 4112 = 24 /\
       p - HEADER_SIZE - hdr_padding m1 4112 = 4112 /\
       recover_header a1 m1 p = 4136 /\
       match deallocate 8 a1 m1 p with
       | Some (a2, _) => used_size a2 = 34
       | None => False
       end
   | None => False
   end).
Proof.
  vm_compute. repeat split; reflexivity.
Qed.

End HeapClaims.

(** ** Moved-from allocators *)
Section MovedFrom.

Lemma put_same {T : Type} (s : store T) (i : nat) (v : T) : put s i v i = v.
Proof. unfold put. rewrite Nat.eqb_refl. reflexivity. Qed.

Lemma stack_moved_out_inert (src : StackAllocator.t) (size alignment : Z) :
  0 <= size < SIZE_MOD -> 0 <= alignment < SIZE_MOD ->
  let dead := StackAllocator.moved_out src in
  snd (StackAllocator.allocate dead size alignment) = dead /\
  (is_power_of_two alignment = true ->
   StackAllocator.allocate dead size alignment = (0, dead)) /\
  (calc_padding 0 alignment + size < SIZE_MOD ->
   StackAllocator.allocate dead size alignment = (0, dead)) /\
  StackAllocator.total_size dead = 0 /\ StackAllocator.used_size dead = 0.
Proof.
  intros Hs HA dead.
  assert (Hpad : 0 <= calc_padding 0 alignment).
  { unfold calc_padding. apply Z.land_nonneg. right.
    apply Z.mod_pos_bound. unfold SIZE_MOD. lia. }
  assert (Hnowrap : calc_padding 0 alignment + size < SIZE_MOD ->
                    StackAllocator.allocate dead size alignment = (0, dead)).
  { intros Hsum. unfold StackAllocator.allocate.
    destruct (Z.eqb_spec size 0) as [|Hnz]; [reflexivity|].
    cbn [StackAllocator.m_memory StackAllocator.m_offset
         StackAllocator.m_size dead StackAllocator.moved_out].
    change (wrap (0 + 0)) with 0. rewrite Z.add_0_l.
    rewrite (wrap_small (calc_padding 0 alignment)) by lia.
    rewrite wrap_small by lia.
    destruct (Z.ltb_spec 0 (calc_padding 0 alignment + size));
      [reflexivity|lia]. }
  split; [|split; [|split; [exact Hnowrap|split; reflexivity]]].
  - unfold StackAllocator.allocate.
    destruct (Z.eqb_spec size 0) as [|Hnz]; [reflexivity|].
    cbn [StackAllocator.m_memory StackAllocator.m_offset
         StackAllocator.m_size dead StackAllocator.moved_out].
    change (wrap (0 + 0)) with 0. rewrite Z.add_0_l.
    set (total := wrap (wrap (calc_padding 0 alignment) + size)).
    pose proof (wrap_range (wrap (calc_padding 0 alignment) + size)) as Hr.
    fold total in Hr.
    destruct (Z.ltb_spec 0 total) as [|Hle]; [reflexivity|].
    cbn [snd]. replace total with 0 by lia. reflexivity.
  - intros Hp. apply Hnowrap.
    destruct (is_power_of_two_log alignment HA Hp) as [k [Hk ->]].
    rewrite calc_padding_pow by exact Hk.
    rewrite Z.mod_0_l by (pose proof (pow2_below_size k Hk); lia).
    rewrite Z.sub_0_r, Z.mod_same by (pose proof (pow2_below_size k Hk); lia).
    lia.
Qed.

Lemma pool_moved_out_inert (src : PoolAllocator.t) (m : mem)
    (size alignment : Z) :
  let dead := PoolAllocator.moved_out src in
  PoolAllocator.allocate dead m size alignment = (0, dead) /\
  PoolAllocator.total_size dead = 0 /\ PoolAllocator.used_size dead = 0.
Proof. repeat split. Qed.

Lemma heap_moved_out_inert (src : FreeListAllocator.t) (fuel : nat)
    (m : mem) (size alignment : Z) :
  let dead := FreeListAllocator.moved_out src in
  FreeListAllocator.allocate fuel dead m size alignment = Some (0, dead, m) /\
  FreeListAllocator.total_size dead = 0 /\
  FreeListAllocator.used_size dead = 0.
Proof.
  intros dead. split; [|split; reflexivity].
  unfold FreeListAllocator.allocate.
  destruct (size =? 0); [reflexivity|].
  unfold FreeListAllocator.find_block, FreeListAllocator.find_first_fit,
    FreeListAllocator.find_best_fit, FreeListAllocator.find_worst_fit.
  cbn [dead FreeListAllocator.moved_out FreeListAllocator.m_strategy
       FreeListAllocator.m_free_list].
  destruct (FreeListAllocator.m_strategy src); destruct fuel; reflexivity.
Qed.

(** **** C10 (as stated, refuted).  A moved-from bump allocator asked
    for [2^64 - 2] bytes at the alignment 3: the masks of [calc_padding]
    give the padding 2 at the address 0, the sum [0 + 2 + size] wraps
    around to 0, which is not above the capacity 0, and [allocate] returns
    the pointer 2, not the null pointer. *)
Lemma moved_from_bump_grants_a_wrapping_request :
  StackAllocator.allocate
    (snd (StackAllocator.move_construct
            (StackAllocator.new_borrowed 4096 1024)))
    18446744073709551614 3
  = (2, snd (StackAllocator.move_construct
               (StackAllocator.new_borrowed 4096 1024))) /\
  ~ (forall (src : StackAllocator.t) (size alignment : Z),
       0 <= size < SIZE_MOD -> 0 <= alignment < SIZE_MOD ->
       StackAllocator.allocate
         (snd (StackAllocator.move_construct src)) size alignment
       = (0, snd (StackAllocator.move_construct src))).
Proof.
  split; [vm_compute; reflexivity|].
  intros H.
  specialize (H (StackAllocator.new_borrowed 4096 1024)
                18446744073709551614 3
                ltac:(unfold SIZE_MOD; lia) ltac:(unfold SIZE_MOD; lia)).
  vm_compute in H. discriminate.
Qed.

(** **** C10 (amended).  After a move construction, and after a move
    assignment between two distinct objects, the source of the move is
    inert, for each of the three engines: [total_size] and [used_size]
    are 0, and [allocate] changes nothing and returns the null pointer;
    the bump allocator's [allocate] changes nothing for every request,
    and returns the null pointer for every power-of-two alignment and for
    every request whose padded size does not wrap around. *)
Theorem moved_from_is_inert :
  (forall (src : StackAllocator.t) (s : store StackAllocator.t)
          (this other : nat) (size alignment : Z),
     0 <= size < SIZE_MOD -> 0 <= alignment < SIZE_MOD -> this <> other ->
     forall dead,
       dead = snd (StackAllocator.move_construct src) \/
       dead = StackAllocator.move_assign s this other other ->
       snd (StackAllocator.allocate dead size alignment) = dead /\
       (is_power_of_two alignment = true ->
        StackAllocator.allocate dead size alignment = (0, dead)) /\
       (calc_padding 0 alignment + size < SIZE_MOD ->
        StackAllocator.allocate dead size alignment = (0, dead)) /\
       StackAllocator.total_size dead = 0 /\
       StackAllocator.used_size dead = 0) /\
  (forall (src : PoolAllocator.t) (s : store PoolAllocator.t)
          (this other : nat) (m : mem) (size alignment : Z),
     this <> other ->
     forall dead,
       dead = snd (PoolAllocator.move_construct src) \/
       dead = PoolAllocator.move_assign s this other other ->
       PoolAllocator.allocate dead m size alignment = (0, dead) /\
       PoolAllocator.total_size dead = 0 /\
       PoolAllocator.used_size dead = 0) /\
  (forall (src : FreeListAllocator.t) (s : store FreeListAllocator.t)
          (this other : nat) (fuel : nat) (m : mem) (size alignment : Z),
     this <> other ->
     forall dead,
       dead = snd (FreeListAllocator.move_construct src) \/
       dead = FreeListAllocator.move_assign s this other other ->
       FreeListAllocator.allocate fuel dead m size alignment
       = Some (0, dead, m) /\
       FreeListAllocator.total_size dead = 0 /\
       FreeListAllocator.used_size dead = 0).
Proof.
  split; [|split].
  - intros src s this other size alignment Hs HA Hne dead [->| ->].
    + apply stack_moved_out_inert; assumption.
    + unfold StackAllocator.move_assign.
      apply Nat.eqb_neq in Hne. rewrite Hne. rewrite put_same.
      apply stack_moved_out_inert; assumption.
  - intros src s this other m size alignment Hne dead [->| ->].
    + apply pool_moved_out_inert.
    + unfold PoolAllocator.move_assign.
      apply Nat.eqb_neq in Hne. rewrite Hne. rewrite put_same.
      apply pool_moved_out_inert.
  - intros src s this other fuel m size alignment Hne dead [->| ->].
    + apply heap_moved_out_inert.
    + unfold FreeListAllocator.move_assign.
      apply Nat.eqb_neq in Hne. rewrite Hne. rewrite put_same.
      apply heap_moved_out_inert.
Qed.

(** A bump allocator with 100 bytes in use, moved from, and asked for 64
    bytes at the alignment 16. *)
Lemma moved_from_is_inert_witness :
  let live := snd (StackAllocator.allocate
                     (StackAllocator.new_borrowed 4096 1024) 100 1) in
  let dead := snd (StackAllocator.move_construct live) in
  StackAllocator.used_size live = 100 /\
  StackAllocator.allocate dead 64 16 = (0, dead) /\
  snd (StackAllocator.allocate dead 64 16) = dead /\
  StackAllocator.total_size dead = 0 /\
  StackAllocator.used_size dead = 0.
Proof.
  intros live dead. split; [reflexivity|].
  pose proof (proj1 moved_from_is_inert live (fun _ => live) 0%nat 1%nat
                64 16 ltac:(unfold SIZE_MOD; lia) ltac:(unfold SIZE_MOD; lia)
                ltac:(discriminate) dead (or_introl eq_refl))
    as [Hstate [Hpow [_ [Htotal Hused]]]].
  split; [apply Hpow; reflexivity|].
  split; [exact Hstate|]. split; [exact Htotal|exact Hused].
Defined.

End MovedFrom.

(* ================================================================== *)
(** * Part IV. Further properties of the code                          *)
(* ================================================================== *)

(** ** utils.hpp: alignment and padding *)
Section UtilsFacts.

Lemma is_aligned_pow (ptr k : Z) :
  0 <= k < 64 -> (is_aligned ptr (2 ^ k) = true <-> ptr mod 2 ^ k = 0).
Proof.
  intros Hk. pose proof (pow2_below_size k Hk) as H2k.
  unfold is_aligned. rewrite (wrap_small (2 ^ k - 1)) by lia.
  replace (2 ^ k - 1) with (Z.ones k) by (rewrite Z.ones_equiv; lia).
  rewrite Z.land_ones by lia. apply Z.eqb_eq.
Qed.

(** Above the last multiple of the alignment the sum of [align_up]
    wraps around and the result is 0. *)
Lemma align_up_pow_wraps (x k : Z) :
  0 <= k < 64 -> SIZE_MOD - 2 ^ k < x < SIZE_MOD ->
  align_up x (2 ^ k) = 0.
Proof.
  intros Hk Hx. pose proof (pow2_below_size k Hk) as H2k.
  unfold align_up, size_not.
  assert (E1 : wrap (wrap (x + 2 ^ k) - 1) = x + 2 ^ k - 1 - SIZE_MOD).
  { unfold wrap. rewrite Zminus_mod_idemp_l.
    set (y := x + 2 ^ k - 1 - SIZE_MOD).
    replace (x + 2 ^ k - 1) with (y + 1 * SIZE_MOD) by (unfold y; lia).
    rewrite Z_mod_plus_full. apply Z.mod_small. unfold y. lia. }
  rewrite E1. set (y := x + 2 ^ k - 1 - SIZE_MOD).
  assert (Hy : 0 <= y < 2 ^ k) by (unfold y; lia).
  rewrite (wrap_small (2 ^ k - 1)) by lia.
  replace (2 ^ k - 1) with (Z.ones k) by (rewrite Z.ones_equiv; lia).
  rewrite wrap_land.
  rewrite (Z.land_comm (Z.lnot (Z.ones k))), Z.land_assoc.
  rewrite (Z.land_ones y 64) by lia.
  change (2 ^ 64) with SIZE_MOD.
  rewrite (Z.mod_small y) by lia.
  rewrite <- Z.ldiff_land, Z.ldiff_ones_r by lia.
  rewrite Z.shiftr_div_pow2 by lia. rewrite Z.div_small by lia.
  apply Z.shiftl_0_l.
Qed.

(** [align_up] returns the least multiple of the alignment that is not
    below the value, when that multiple is a [size_t]; for the values
    above the last such multiple its sum wraps around and it returns 0. *)
Theorem align_up_rounds_up (value A : Z) :
  0 <= value < SIZE_MOD -> 0 <= A < SIZE_MOD -> is_power_of_two A = true ->
  (value + A <= SIZE_MOD ->
     value <= align_up value A < value + A /\
     align_up value A mod A = 0 /\
     (forall y, value <= y -> y mod A = 0 -> align_up value A <= y)) /\
  (SIZE_MOD < value + A -> align_up value A = 0).
Proof.
  intros Hv HA Hp.
  destruct (is_power_of_two_log A HA Hp) as [k [Hk ->]].
  pose proof (pow2_below_size k Hk) as H2k.
  split.
  - intros Hsum.
    destruct (align_up_pow_facts value k Hk ltac:(lia) Hsum) as [Hm Hr].
    split; [exact Hr|]. split; [exact Hm|].
    intros y Hy Ey.
    apply Z.mod_divide in Hm; [|lia]. apply Z.mod_divide in Ey; [|lia].
    destruct Hm as [q1 E1]. destruct Ey as [q2 E2].
    assert (Hq : q1 <= q2) by nia.
    rewrite E1, E2. nia.
  - intros Hsum. apply align_up_pow_wraps; [exact Hk|lia].
Qed.

(** 100 rounded up to a multiple of 16. *)
Lemma align_up_rounds_up_witness :
  (100 + 16 <= SIZE_MOD ->
     100 <= align_up 100 16 < 100 + 16 /\
     align_up 100 16 mod 16 = 0 /\
     (forall y, 100 <= y -> y mod 16 = 0 -> align_up 100 16 <= y)) /\
  (SIZE_MOD < 100 + 16 -> align_up 100 16 = 0).
Proof.
  apply (align_up_rounds_up 100 16);
    [unfold SIZE_MOD; lia|unfold SIZE_MOD; lia|reflexivity].
Defined.

(** What [align_pointer] returns passes [is_aligned], for every pointer;
    it is the pointer moved up by less than the alignment unless the sum
    wraps around. *)
Theorem align_pointer_is_aligned (ptr A : Z) :
  0 <= ptr < SIZE_MOD -> 0 <= A < SIZE_MOD -> is_power_of_two A = true ->
  is_aligned (align_pointer ptr A) A = true /\
  (ptr + A <= SIZE_MOD -> ptr <= align_pointer ptr A < ptr + A).
Proof.
  intros Hptr HA Hp.
  destruct (is_power_of_two_log A HA Hp) as [k [Hk ->]].
  pose proof (pow2_below_size k Hk) as H2k.
  unfold align_pointer. split.
  - apply is_aligned_pow; [exact Hk|].
    destruct (Z_le_gt_dec (ptr + 2 ^ k) SIZE_MOD) as [L|G].
    + apply align_up_pow_facts; [exact Hk|lia|exact L].
    + rewrite align_up_pow_wraps by (try exact Hk; lia).
      apply Z.mod_0_l. lia.
  - intros L. apply align_up_pow_facts; [exact Hk|lia|exact L].
Qed.

Lemma align_pointer_is_aligned_witness :
  is_aligned (align_pointer 4100 64) 64 = true /\
  (4100 + 64 <= SIZE_MOD -> 4100 <= align_pointer 4100 64 < 4100 + 64).
Proof.
  apply (align_pointer_is_aligned 4100 64);
    [unfold SIZE_MOD; lia|unfold SIZE_MOD; lia|reflexivity].
Defined.

(** [calc_padding_with_header] returns the least padding that leaves
    room for the header and aligns the address. *)
Theorem calc_padding_with_header_spec (address A header_size : Z) :
  0 <= A < SIZE_MOD -> is_power_of_two A = true ->
  0 <= header_size -> header_size + A <= SIZE_MOD ->
  exists r, calc_padding_with_header address A header_size = Some r /\
    header_size <= r < header_size + A /\
    (address + r) mod A = 0 /\
    (header_size <= calc_padding address A -> r = calc_padding address A).
Proof.
  intros HA Hp HH Hsum.
  destruct (is_power_of_two_log A HA Hp) as [k [Hk ->]].
  pose proof (pow2_below_size k Hk) as H2k.
  pose proof (calc_padding_range address k Hk) as Hpr.
  pose proof (calc_padding_aligns address k Hk) as Hpa.
  unfold calc_padding_with_header.
  set (pad := calc_padding address (2 ^ k)) in *.
  destruct (Z.ltb_spec pad header_size) as [Hlt|Hge].
  - destruct (Z.eqb_spec (2 ^ k) 0) as [E|_]; [lia|].
    rewrite (wrap_small (header_size - pad)) by lia.
    set (needed := header_size - pad).
    assert (E1 : wrap (wrap (needed + 2 ^ k) - 1) = needed + 2 ^ k - 1).
    { unfold wrap. rewrite Zminus_mod_idemp_l. apply Z.mod_small.
      unfold needed. lia. }
    rewrite E1.
    set (q := (needed + 2 ^ k - 1) / 2 ^ k).
    pose proof (Z.div_mod (needed + 2 ^ k - 1) (2 ^ k) ltac:(lia)) as Hd.
    pose proof (Z.mod_pos_bound (needed + 2 ^ k - 1) (2 ^ k) ltac:(lia))
      as Hm.
    fold q in Hd.
    assert (Hq : needed <= 2 ^ k * q < needed + 2 ^ k) by lia.
    rewrite (wrap_small (2 ^ k * q)) by (unfold needed in *; lia).
    rewrite wrap_small by (unfold needed in *; lia).
    eexists. split; [reflexivity|].
    split; [unfold needed in *; lia|]. split.
    + replace (address + (pad + 2 ^ k * q))
        with (address + pad + q * 2 ^ k) by lia.
      rewrite Z_mod_plus_full. exact Hpa.
    + intros Hle. lia.
  - eexists. split; [reflexivity|].
    split; [lia|]. split; [exact Hpa|]. intros _. reflexivity.
Qed.

(** A header of 24 bytes before an address that must be aligned to 16. *)
Lemma calc_padding_with_header_spec_witness :
  exists r, calc_padding_with_header 4100 16 24 = Some r /\
    24 <= r < 24 + 16 /\
    (4100 + r) mod 16 = 0 /\
    (24 <= calc_padding 4100 16 -> r = calc_padding 4100 16).
Proof.
  apply (calc_padding_with_header_spec 4100 16 24);
    [unfold SIZE_MOD; lia|reflexivity|lia|unfold SIZE_MOD; lia].
Defined.

(** [is_power_of_two] accepts exactly the powers of two among the
    [size_t] values. *)
Theorem is_power_of_two_iff (value : Z) :
  0 <= value < SIZE_MOD ->
  (is_power_of_two value = true <-> exists k, 0 <= k < 64 /\ value = 2 ^ k).
Proof.
  intros Hv. split.
  - apply is_power_of_two_log. exact Hv.
  - intros [k [Hk ->]]. apply is_power_of_two_pow. exact Hk.
Qed.

Lemma is_power_of_two_iff_witness :
  is_power_of_two 4096 = true <-> exists k, 0 <= k < 64 /\ 4096 = 2 ^ k.
Proof.
  apply (is_power_of_two_iff 4096). unfold SIZE_MOD. lia.
Defined.

(** One step of the bit smearing of [next_power_of_two]: when bit [i] of
    [x] tells whether [n] has a bit among the [w] bits from [i] on, then
    after [x |= x >> w] it tells the same for [2 * w] bits. *)
Lemma smear_step (n x w : Z) :
  0 <= w ->
  (forall i, 0 <= i ->
     (Z.testbit x i = true <->
      exists j, 0 <= j < w /\ Z.testbit n (i + j) = true)) ->
  forall i, 0 <= i ->
    (Z.testbit (Z.lor x (Z.shiftr x w)) i = true <->
     exists j, 0 <= j < 2 * w /\ Z.testbit n (i + j) = true).
Proof.
  intros Hw H i Hi.
  rewrite Z.lor_spec, Z.shiftr_spec by exact Hi.
  rewrite orb_true_iff, (H i Hi), (H (i + w) ltac:(lia)). split.
  - intros [[j [Hj Hb]]|[j [Hj Hb]]].
    + exists j. split; [lia|exact Hb].
    + exists (w + j). split; [lia|].
      replace (i + (w + j)) with (i + w + j) by lia. exact Hb.
  - intros [j [Hj Hb]]. destruct (Z_lt_le_dec j w) as [L|L].
    + left. exists j. split; [lia|exact Hb].
    + right. exists (j - w). split; [lia|].
      replace (i + w + (j - w)) with (i + j) by lia. exact Hb.
Qed.

(** The six steps set every bit below the highest bit of [n]. *)
Lemma smear_all (n : Z) :
  0 < n < SIZE_MOD ->
  (let v1 := Z.lor n (Z.shiftr n 1) in
   let v2 := Z.lor v1 (Z.shiftr v1 2) in
   let v3 := Z.lor v2 (Z.shiftr v2 4) in
   let v4 := Z.lor v3 (Z.shiftr v3 8) in
   let v5 := Z.lor v4 (Z.shiftr v4 16) in
   Z.lor v5 (Z.shiftr v5 32)) = Z.ones (Z.log2 n + 1).
Proof.
  intros Hn. cbv zeta.
  assert (Hh : 0 <= Z.log2 n < 64).
  { split; [apply Z.log2_nonneg|].
    apply Z.log2_lt_pow2; [lia|]. rewrite <- SIZE_MOD_pow. lia. }
  assert (P1 : forall i, 0 <= i ->
            (Z.testbit n i = true <->
             exists j, 0 <= j < 1 /\ Z.testbit n (i + j) = true)).
  { intros i Hi. split.
    - intros Hb. exists 0. split; [lia|]. rewrite Z.add_0_r. exact Hb.
    - intros [j [Hj Hb]]. replace j with 0 in Hb by lia.
      rewrite Z.add_0_r in Hb. exact Hb. }
  pose proof (smear_step n _ 1 ltac:(lia) P1) as P2.
  pose proof (smear_step n _ 2 ltac:(lia) P2) as P4.
  pose proof (smear_step n _ 4 ltac:(lia) P4) as P8.
  pose proof (smear_step n _ 8 ltac:(lia) P8) as P16.
  pose proof (smear_step n _ 16 ltac:(lia) P16) as P32.
  pose proof (smear_step n _ 32 ltac:(lia) P32) as P64.
  clear P1 P2 P4 P8 P16 P32.
  apply Z.bits_inj'. intros i Hi.
  destruct (Z_le_gt_dec i (Z.log2 n)) as [L|G].
  - rewrite Z.ones_spec_low by lia.
    apply P64; [exact Hi|]. exists (Z.log2 n - i). split; [lia|].
    replace (i + (Z.log2 n - i)) with (Z.log2 n) by lia.
    apply Z.bit_log2. lia.
  - rewrite Z.ones_spec_high by lia.
    apply not_true_is_false. intros Hb.
    apply P64 in Hb; [|exact Hi]. destruct Hb as [j [Hj Hb]].
    rewrite Z.bits_above_log2 in Hb by lia. discriminate.
Qed.

Lemma next_power_of_two_log (value : Z) :
  2 <= value < SIZE_MOD ->
  next_power_of_two value = wrap (2 ^ (Z.log2 (value - 1) + 1)).
Proof.
  intros Hv. unfold next_power_of_two.
  destruct (Z.eqb_spec value 0) as [|_]; [lia|].
  rewrite (wrap_small (value - 1)) by lia.
  pose proof (smear_all (value - 1) ltac:(lia)) as Hs.
  cbv zeta in Hs. cbv zeta. rewrite Hs.
  rewrite Z.ones_equiv. f_equal. lia.
Qed.

(** [next_power_of_two] returns the least power of two that is not below
    the value, for every value up to 2^63 (1 for the value 0); above 2^63
    no power of two is a [size_t], the final increment wraps around and
    the result is 0. *)
Theorem next_power_of_two_spec (value : Z) :
  0 <= value < SIZE_MOD ->
  let r := next_power_of_two value in
  (value <= 2 ^ 63 ->
     is_power_of_two r = true /\ value <= r /\
     (1 <= value -> r < 2 * value) /\
     (forall k, 0 <= k < 64 -> value <= 2 ^ k -> r <= 2 ^ k)) /\
  (2 ^ 63 < value -> r = 0).
Proof.
  intros Hv r. subst r.
  assert (H63 : 2 ^ 63 < SIZE_MOD) by (unfold SIZE_MOD; lia).
  split.
  - intros Hle. destruct (Z_lt_le_dec value 2) as [Hsmall|Hbig].
    + assert (E : next_power_of_two value = 1).
      { assert (value = 0 \/ value = 1) as [->| ->] by lia; reflexivity. }
      rewrite E. split; [reflexivity|]. split; [lia|]. split; [lia|].
      intros k Hk _.
      pose proof (Z.pow_pos_nonneg 2 k ltac:(lia) ltac:(lia)). lia.
    + rewrite next_power_of_two_log by lia.
      set (h := Z.log2 (value - 1)).
      pose proof (Z.log2_spec (value - 1) ltac:(lia)) as [Hlo Hhi].
      fold h in Hlo, Hhi.
      assert (Hh : 0 <= h < 63).
      { split; [apply Z.log2_nonneg|]. apply Z.log2_lt_pow2; lia. }
      pose proof (pow2_below_size (h + 1) ltac:(lia)) as Hr.
      rewrite wrap_small by lia.
      replace (Z.succ h) with (h + 1) in Hhi by lia.
      assert (E2 : 2 ^ (h + 1) = 2 * 2 ^ h)
        by (rewrite Z.pow_add_r by lia; lia).
      split; [apply is_power_of_two_pow; lia|].
      split; [lia|]. split; [lia|].
      intros k Hk Hlek.
      apply Z.pow_le_mono_r; [lia|].
      assert (h < k); [|lia].
      apply Z.log2_lt_pow2; lia.
  - intros Hgt. rewrite next_power_of_two_log by lia.
    assert (Eh : Z.log2 (value - 1) = 63).
    { apply Z.log2_unique; [lia|].
      change (2 ^ Z.succ 63) with SIZE_MOD. lia. }
    rewrite Eh. reflexivity.
Qed.

Lemma next_power_of_two_spec_witness :
  let r := next_power_of_two 100 in
  (100 <= 2 ^ 63 ->
     is_power_of_two r = true /\ 100 <= r /\
     (1 <= 100 -> r < 2 * 100) /\
     (forall k, 0 <= k < 64 -> 100 <= 2 ^ k -> r <= 2 ^ k)) /\
  (2 ^ 63 < 100 -> r = 0).
Proof.
  apply (next_power_of_two_spec 100). unfold SIZE_MOD. lia.
Defined.

(** [ptr_diff] undoes [ptr_add], and advancing a pointer by its distance
    to another one reaches that one. *)
Theorem ptr_diff_ptr_add (p q n : Z) :
  0 <= p < SIZE_MOD -> 0 <= q < SIZE_MOD -> 0 <= n < 2 ^ 63 ->
  ptr_diff (ptr_add p n) p = n /\
  ptr_add p (wrap (ptr_diff q p)) = q.
Proof.
  intros Hp Hq Hn.
  assert (H63 : 2 ^ 63 < SIZE_MOD) by (unfold SIZE_MOD; lia).
  unfold ptr_diff, ptr_add, to_ptrdiff. split.
  - assert (E : wrap (wrap (p + n) - p) = n).
    { unfold wrap. rewrite Zminus_mod_idemp_l.
      replace (p + n - p) with n by lia. apply Z.mod_small. lia. }
    rewrite E. change 9223372036854775808 with (2 ^ 63).
    destruct (Z.ltb_spec n (2 ^ 63)); [reflexivity|lia].
  - pose proof (wrap_range (q - p)) as Hr.
    assert (E : wrap (if wrap (q - p) <? 9223372036854775808
                      then wrap (q - p) else wrap (q - p) - SIZE_MOD)
                = wrap (q - p)).
    { destruct (_ <? _).
      - apply wrap_small. exact Hr.
      - unfold wrap at 1.
        replace (wrap (q - p) - SIZE_MOD)
          with (wrap (q - p) + (-1) * SIZE_MOD) by lia.
        rewrite Z_mod_plus_full. apply Z.mod_small. exact Hr. }
    rewrite E. unfold wrap. rewrite Zplus_mod_idemp_r.
    replace (p + (q - p)) with q by lia. apply Z.mod_small. exact Hq.
Qed.

Lemma ptr_diff_ptr_add_witness :
  ptr_diff (ptr_add 4096 100) 4096 = 100 /\
  ptr_add 4096 (wrap (ptr_diff 4000 4096)) = 4000.
Proof.
  apply (ptr_diff_ptr_add 4096 4000 100); unfold SIZE_MOD; lia.
Defined.

End UtilsFacts.

(** ** The bump allocator: blocks, failure, reset *)
Section StackMore.
Import StackAllocator StackSpec.

Lemma stack_allocate_all_keeps_owner (reqs : list (Z * Z)) :
  forall a, m_owns_memory (snd (allocate_all a reqs)) = m_owns_memory a.
Proof.
  induction reqs as [|[size alignment] rest IH]; intros a; simpl; [auto|].
  pose proof (stack_allocate_keeps_region a size alignment) as [_ [_ Ho]].
  destruct (allocate a size alignment) as [p a1]. simpl in Ho.
  specialize (IH a1). destruct (allocate_all a1 rest) as [ps a2].
  simpl in *. congruence.
Qed.

(** In a run of requests that cannot wrap, the state stays well formed
    and every granted block lies between the cursor the run started from
    and the cursor it reached. *)
Lemma stack_allocate_all_bounds (reqs : list (Z * Z)) :
  forall a, wf a -> Forall (sane (m_size a)) reqs ->
  let ps := fst (allocate_all a reqs) in
  let a1 := snd (allocate_all a reqs) in
  wf a1 /\ m_offset a <= m_offset a1 /\
  Forall (fun q => m_memory a + m_offset a <= fst q /\
                   fst q + snd q <= m_memory a + m_offset a1)
         (granted ps reqs).
Proof.
  induction reqs as [|[size alignment] rest IH]; intros a Hwf Hall; simpl.
  { split; [exact Hwf|]. split; [lia|constructor]. }
  inversion Hall as [|r l Hsane Hrest]; subst.
  pose proof (stack_allocate_step a size alignment Hwf Hsane)
    as [Hwf1 [Hmono Hblk]].
  pose proof (stack_allocate_keeps_region a size alignment) as [Hm [Hs _]].
  destruct (allocate a size alignment) as [p a1]. simpl in *.
  rewrite <- Hs in Hrest.
  specialize (IH a1 Hwf1 Hrest).
  destruct (allocate_all a1 rest) as [ps a2]. simpl in *.
  destruct IH as [Hwf2 [Hmono2 IHb]].
  split; [exact Hwf2|]. split; [lia|].
  assert (Hlater : Forall (fun q => m_memory a + m_offset a <= fst q /\
                                    fst q + snd q <= m_memory a + m_offset a2)
                          (granted ps rest)).
  { eapply Forall_impl; [|exact IHb]. intros q Hq. simpl in Hq. lia. }
  destruct (Z.eqb_spec p 0) as [E|N]; [exact Hlater|].
  constructor; [|exact Hlater]. simpl. destruct (Hblk N) as [Hlo Hhi]. lia.
Qed.



(** In a run of requests that cannot wrap, every granted block lies
    inside the region and ends before every block granted after it. *)
Theorem stack_allocations_do_not_overlap (a : t) (reqs : list (Z * Z)) :
  wf a -> Forall (sane (m_size a)) reqs ->
  let ps := fst (allocate_all a reqs) in
  in_order (granted ps reqs) /\
  Forall (fun q => m_memory a + m_offset a <= fst q /\
                   fst q + snd q <= m_memory a + m_size a)
         (granted ps reqs).
Proof.
  intros Hwf Hall ps. subst ps. split.
  - apply stack_allocate_all_in_order; assumption.
  - pose proof (stack_allocate_all_bounds reqs a Hwf Hall) as [Hwf1 [_ Hb]].
    pose proof (stack_allocate_all_keeps_region reqs a) as [_ Hs].
    destruct Hwf1 as [_ [Hc _]]. rewrite Hs in Hc.
    eapply Forall_impl; [|exact Hb]. intros q Hq. simpl in Hq. lia.
Qed.

Lemma stack_allocations_do_not_overlap_witness :
  let a := new_borrowed 4096 1024 in
  let reqs := [(100, 1); (0, 8); (200, 16); (2000, 8); (300, 64)] in
  let ps := fst (allocate_all a reqs) in
  in_order (granted ps reqs) /\
  Forall (fun q => m_memory a + m_offset a <= fst q /\
                   fst q + snd q <= m_memory a + m_size a)
         (granted ps reqs).
Proof.
  apply (stack_allocations_do_not_overlap (new_borrowed 4096 1024)
           [(100, 1); (0, 8); (200, 16); (2000, 8); (300, 64)]).
  - vm_compute. repeat split; try discriminate. right. reflexivity.
  - repeat constructor; simpl; try discriminate.
Defined.

(** On a request that cannot wrap, [allocate] returns the null pointer
    exactly when the size is 0 or the padded block does not fit, and then
    it leaves the allocator as it was. *)
Theorem stack_allocate_null_iff (a : t) (size alignment : Z) :
  wf a -> sane (m_size a) (size, alignment) ->
  (fst (allocate a size alignment) = 0 <->
   size = 0 \/ m_size a < m_offset a + pad a alignment + size) /\
  (fst (allocate a size alignment) = 0 -> snd (allocate a size alignment) = a).
Proof.
  intros Hwf Hsane.
  pose proof (stack_allocate_spec a size alignment Hwf Hsane)
    as [H0 [Hfail Hok]].
  destruct Hwf as [Hb [Hc [Hr Hnn]]].
  pose proof Hsane as [Hs [Ha [Hpow Hw]]]. simpl in Hs, Ha, Hpow, Hw.
  destruct (is_power_of_two_log alignment Ha Hpow) as [k [Hk Ek]].
  pose proof (calc_padding_range (wrap (m_memory a + m_offset a)) k Hk)
    as Hpad.
  rewrite <- Ek in Hpad. fold (pad a alignment) in Hpad.
  destruct (Z.eq_dec size 0) as [E|N].
  { rewrite (H0 E). simpl. split; [|reflexivity].
    split; [intros _; left; exact E|reflexivity]. }
  destruct (Z_lt_le_dec (m_size a) (m_offset a + pad a alignment + size))
    as [L|L].
  { rewrite (Hfail L). simpl. split; [|reflexivity].
    split; [intros _; right; exact L|reflexivity]. }
  destruct (Hok N L) as [E _]. rewrite E. simpl.
  split; [split|]; intros H; exfalso; lia.
Qed.

(** A request of 2000 bytes from a buffer of 1024. *)
Lemma stack_allocate_null_iff_witness :
  let a := new_borrowed 4096 1024 in
  (fst (allocate a 2000 8) = 0 <->
   2000 = 0 \/ m_size a < m_offset a + pad a 8 + 2000) /\
  (fst (allocate a 2000 8) = 0 -> snd (allocate a 2000 8) = a).
Proof.
  apply (stack_allocate_null_iff (new_borrowed 4096 1024) 2000 8).
  - vm_compute. repeat split; try discriminate. right. reflexivity.
  - vm_compute. repeat split; discriminate.
Defined.

(** Whatever was requested since the construction, [reset] puts the
    allocator back into the state its constructor left it in. *)
Theorem stack_reset_restores_construction (buffer raw size : Z)
    (reqs : list (Z * Z)) :
  reset (snd (allocate_all (new_borrowed buffer size) reqs))
  = new_borrowed buffer size /\
  reset (snd (allocate_all (new_owned raw size) reqs))
  = new_owned raw size.
Proof.
  split.
  - pose proof (stack_allocate_all_keeps_region reqs
                  (new_borrowed buffer size)) as [Hm Hs].
    pose proof (stack_allocate_all_keeps_owner reqs
                  (new_borrowed buffer size)) as Ho.
    unfold reset. rewrite Hm, Hs, Ho. reflexivity.
  - pose proof (stack_allocate_all_keeps_region reqs
                  (new_owned raw size)) as [Hm Hs].
    pose proof (stack_allocate_all_keeps_owner reqs
                  (new_owned raw size)) as Ho.
    unfold reset. rewrite Hm, Hs, Ho. reflexivity.
Qed.

(** In a run of requests that cannot wrap, the bytes in use and the free
    bytes add up to the capacity, and the bytes in use never decrease. *)
Theorem stack_used_plus_free_is_total (a : t) (reqs : list (Z * Z)) :
  wf a -> Forall (sane (m_size a)) reqs ->
  let a1 := snd (allocate_all a reqs) in
  used_size a1 + free_size a1 = total_size a1 /\
  used_size a <= used_size a1 <= total_size a1.
Proof.
  intros Hwf Hall a1. subst a1.
  pose proof (stack_allocate_all_bounds reqs a Hwf Hall) as [Hwf1 [Hmono _]].
  destruct Hwf1 as [Hb [Hc [Hr Hnn]]].
  unfold used_size, free_size, total_size.
  rewrite wrap_small by (unfold SIZE_MOD in *; lia). lia.
Qed.

Lemma stack_used_plus_free_is_total_witness :
  let a := new_borrowed 4096 1024 in
  let a1 := snd (allocate_all a [(100, 1); (200, 16); (2000, 8)]) in
  used_size a1 + free_size a1 = total_size a1 /\
  used_size a <= used_size a1 <= total_size a1.
Proof.
  apply (stack_used_plus_free_is_total (new_borrowed 4096 1024)
           [(100, 1); (200, 16); (2000, 8)]).
  - vm_compute. repeat split; try discriminate. right. reflexivity.
  - repeat constructor; simpl; try discriminate.
Defined.

(** [deallocate] gives nothing back: a block granted after it begins
    where the block that was "freed" ends, or later. *)
Theorem stack_deallocate_reclaims_nothing (a : t)
    (size1 alignment1 size2 alignment2 dsize : Z) :
  wf a -> sane (m_size a) (size1, alignment1) ->
  sane (m_size a) (size2, alignment2) ->
  let p1 := fst (allocate a size1 alignment1) in
  let a1 := snd (allocate a size1 alignment1) in
  let a2 := deallocate a1 p1 dsize in
  let p2 := fst (allocate a2 size2 alignment2) in
  p1 <> 0 -> p2 <> 0 ->
  used_size a2 = used_size a1 /\ p1 + size1 <= p2.
Proof.
  intros Hwf Hs1 Hs2 p1 a1 a2 p2 Hp1 Hp2. subst p1 a1 a2 p2.
  unfold deallocate in *. split; [reflexivity|].
  pose proof (stack_allocate_step a size1 alignment1 Hwf Hs1)
    as [Hwf1 [_ Hblk1]].
  pose proof (stack_allocate_keeps_region a size1 alignment1) as [Hm [Hs _]].
  rewrite <- Hs in Hs2.
  pose proof (stack_allocate_step _ size2 alignment2 Hwf1 Hs2)
    as [_ [_ Hblk2]].
  specialize (Hblk1 Hp1). specialize (Hblk2 Hp2). lia.
Qed.

Lemma stack_deallocate_reclaims_nothing_witness :
  let a := new_borrowed 4096 1024 in
  let p1 := fst (allocate a 100 8) in
  let a1 := snd (allocate a 100 8) in
  let a2 := deallocate a1 p1 100 in
  let p2 := fst (allocate a2 100 8) in
  used_size a2 = used_size a1 /\ p1 + 100 <= p2.
Proof.
  apply (stack_deallocate_reclaims_nothing (new_borrowed 4096 1024)
           100 8 100 8 100).
  - vm_compute. repeat split; try discriminate. right. reflexivity.
  - vm_compute. repeat split; discriminate.
  - vm_compute. repeat split; discriminate.
  - vm_compute. discriminate.
  - vm_compute. discriminate.
Defined.

End StackMore.

(** ** The pool: the free list as a stack, the counters, ownership *)
Section PoolMore.
Import PoolAllocator PoolSpec.

Lemma chain_unique (m : mem) (l1 : list Z) :
  forall l2 head, chain m head l1 -> chain m head l2 -> l1 = l2.
Proof.
  induction l1 as [|x r IH]; intros [|y r2] head H1 H2; simpl in *.
  - reflexivity.
  - destruct H2 as [E [N _]]. congruence.
  - destruct H1 as [E [N _]]. congruence.
  - destruct H1 as [E1 [N1 C1]], H2 as [E2 [N2 C2]].
    assert (Exy : y = x) by congruence. rewrite Exy in *. f_equal.
    apply (IH r2 (load64 m x)); assumption.
Qed.

Lemma chunks_length (c S : Z) (n : nat) : length (chunks c S n) = n.
Proof.
  revert c. induction n as [|n IH]; intros c; simpl; [reflexivity|].
  rewrite IH. reflexivity.
Qed.

Lemma remove_NoDup (x : Z) (l : list Z) :
  NoDup l -> NoDup (remove Z.eq_dec x l).
Proof.
  induction l as [|a r IH]; intros H; simpl; [constructor|].
  inversion H as [|? ? Ha Hr]; subst.
  destruct (Z.eq_dec x a) as [E|N]; [apply IH; exact Hr|].
  constructor; [|apply IH; exact Hr].
  intros Hin. apply in_remove in Hin. tauto.
Qed.

Lemma remove_length_In (x : Z) (l : list Z) :
  NoDup l -> In x l ->
  Datatypes.S (length (remove Z.eq_dec x l)) = length l.
Proof.
  induction l as [|a r IH]; intros H Hin; simpl in *; [contradiction|].
  inversion H as [|? ? Ha Hr]; subst.
  destruct (Z.eq_dec x a) as [E|N].
  - subst a. rewrite notin_remove by exact Ha. reflexivity.
  - destruct Hin as [E|Hin]; [congruence|].
    simpl. rewrite (IH Hr Hin). reflexivity.
Qed.

(** The operations never change where the chunks are. *)
Lemma pool_step_keeps_layout (c c1 : client) (o : op) (ps : list Z) :
  step c o = Some (c1, ps) ->
  m_memory (pool c1) = m_memory (pool c) /\
  m_memory_size (pool c1) = m_memory_size (pool c) /\
  m_chunk_size (pool c1) = m_chunk_size (pool c) /\
  m_chunk_count (pool c1) = m_chunk_count (pool c).
Proof.
  intros Hstep. destruct o as [|p| |addr byte]; simpl in Hstep.
  - unfold allocate in Hstep.
    destruct (m_free_list (pool c) =? 0);
      inversion Hstep; subst; simpl; auto.
  - destruct ((p =? 0) || holds c p); [|discriminate].
    unfold deallocate in Hstep.
    destruct (p =? 0); inversion Hstep; subst; simpl; auto.
  - unfold reset, init_free_list in Hstep.
    destruct (0 <? m_chunk_count (pool c)).
    + destruct (link_chunks _ _ _ _) as [m1 last].
      inversion Hstep; subst; simpl; auto.
    + inversion Hstep; subst; simpl; auto.
  - destruct (inside c addr); [|discriminate].
    inversion Hstep; subst; simpl; auto.
Qed.

Lemma init_free_list_keeps_layout (a : t) (m : mem) :
  m_memory (fst (init_free_list a m)) = m_memory a /\
  m_memory_size (fst (init_free_list a m)) = m_memory_size a /\
  m_chunk_size (fst (init_free_list a m)) = m_chunk_size a /\
  m_chunk_count (fst (init_free_list a m)) = m_chunk_count a.
Proof.
  unfold init_free_list. destruct (link_chunks _ _ _ _). simpl. auto.
Qed.

(** [init_free_list] links the chunks in address order, sets the counter
    to their number and writes nowhere else. *)
Lemma init_free_list_chain (a : t) (m : mem) (A : Z) :
  laid_out a A -> 0 < m_chunk_count a ->
  chain (snd (init_free_list a m)) (m_free_list (fst (init_free_list a m)))
        (chunks (m_memory a) (m_chunk_size a) (Z.to_nat (m_chunk_count a))) /\
  m_free_count (fst (init_free_list a m)) = m_chunk_count a /\
  (forall x, x < m_memory a \/
             m_memory a + m_chunk_count a * m_chunk_size a <= x ->
             snd (init_free_list a m) x = m x).
Proof.
  intros Hlay HN.
  pose proof Hlay as [_ [E|[Hb [HS [Hend [HA [Hbm HSm]]]]]]]; [lia|].
  unfold init_free_list.
  assert (HNw : wrap (m_chunk_count a - 1) = m_chunk_count a - 1)
    by (apply wrap_small; nia).
  rewrite HNw.
  set (n := Z.to_nat (m_chunk_count a - 1)).
  assert (Hn : Z.of_nat n = m_chunk_count a - 1) by (unfold n; lia).
  assert (En : Z.to_nat (m_chunk_count a) = Datatypes.S n) by (unfold n; lia).
  pose proof (link_chunks_spec (m_chunk_size a) n m (m_memory a) HS
                ltac:(lia) ltac:(rewrite Hn; nia)) as [Hlast [Hlinks Hframe]].
  destruct (link_chunks n m (m_memory a) (m_chunk_size a)) as [m1 last].
  simpl in Hlast, Hlinks, Hframe. subst last.
  cbn [fst snd]. rewrite En. split; [|split].
  - apply (chain_chunks _ _ (Datatypes.S n)); [lia|lia|].
    intros j Hj. rewrite Nat2Z.inj_succ in *.
    destruct (Z.eqb_spec (j + 1) (Z.succ (Z.of_nat n))) as [E|N].
    + replace j with (Z.of_nat n) by lia.
      rewrite load64_store64_same. reflexivity.
    + rewrite load64_store64_disjoint by nia. apply Hlinks. lia.
  - reflexivity.
  - intros x Hx. rewrite store64_frame by nia. apply Hframe. nia.
Qed.

(** One operation on the free list [l]: the list it leaves and the
    pointers it returns are those of the stack. *)
Lemma pool_step_free_list (c c1 : client) (o : op) (ps l : list Z) (A : Z) :
  consistent c A -> chain (memory c) (m_free_list (pool c)) l ->
  step c o = Some (c1, ps) ->
  chain (memory c1) (m_free_list (pool c1)) (free_after (pool c) l o) /\
  ps = answer l o.
Proof.
  intros [Hlay [l' [Hchain' [Hnd [Hfree [Hlive Hsep]]]]]] Hchain Hstep.
  assert (l' = l) by (eapply chain_unique; eassumption). subst l'.
  clear Hchain'.
  destruct o as [|p| |addr byte]; simpl in Hstep |- *.
  - (* allocate *)
    unfold allocate in Hstep.
    destruct l as [|x rest]; simpl in Hchain.
    + rewrite Hchain in Hstep. simpl in Hstep.
      inversion Hstep; subst; clear Hstep. simpl.
      split; [exact Hchain|reflexivity].
    + destruct Hchain as [Ehead [Hx Hrest]]. rewrite Ehead in Hstep.
      destruct (Z.eqb_spec x 0) as [|_]; [contradiction|].
      inversion Hstep; subst; clear Hstep. simpl.
      split; [exact Hrest|reflexivity].
  - (* deallocate *)
    destruct (Z.eqb_spec p 0) as [Ep|Np]; simpl in Hstep.
    + subst p. unfold deallocate in Hstep. simpl in Hstep.
      inversion Hstep; subst; clear Hstep. simpl.
      split; [exact Hchain|reflexivity].
    + destruct (holds c p) eqn:Hh; [|discriminate].
      apply holds_In in Hh.
      unfold deallocate in Hstep.
      destruct (Z.eqb_spec p 0) as [|_]; [contradiction|].
      inversion Hstep; subst; clear Hstep. split; [|reflexivity].
      assert (Hcp : is_chunk (pool c) p)
        by (rewrite Forall_forall in Hlive; apply Hlive; exact Hh).
      pose proof Hlay as [HN [E|[Hb [HS [Hend [HA [Hbm HSm]]]]]]].
      { destruct Hcp as [i [Hi _]]. lia. }
      cbn [pool memory m_free_list set_free_list].
      simpl. split; [reflexivity|]. split; [exact Np|].
      rewrite load64_store64_same.
      rewrite wrap_small by (eapply chain_head_size; eauto; lia).
      apply (chain_ext l (memory c)); [|exact Hchain].
      intros y Hy. symmetry. apply load64_store64_disjoint.
      assert (Hcy : is_chunk (pool c) y)
        by (rewrite Forall_forall in Hfree; apply Hfree; exact Hy).
      assert (Hne : p <> y) by (intros ->; apply (Hsep y Hy Hh)).
      pose proof (is_chunk_apart (pool c) p y ltac:(lia) Hcp Hcy Hne). lia.
  - (* reset *)
    unfold reset in Hstep.
    destruct (Z.ltb_spec 0 (m_chunk_count (pool c))) as [Hpos|Hzero].
    + pose proof (init_free_list_chain (pool c) (memory c) A Hlay Hpos)
        as [Hi _].
      destruct (init_free_list (pool c) (memory c)) as [a1 m1].
      inversion Hstep; subst; clear Hstep. split; [exact Hi|reflexivity].
    + inversion Hstep; subst; clear Hstep.
      split; [exact Hchain|reflexivity].
  - (* a write into a chunk the caller holds *)
    destruct (inside c addr) eqn:Hin; [|discriminate].
    inversion Hstep; subst; clear Hstep. split; [|reflexivity].
    unfold inside in Hin. apply existsb_exists in Hin.
    destruct Hin as [p [Hp Hrange]].
    apply andb_prop in Hrange. destruct Hrange as [Hlo Hhi].
    apply Z.leb_le in Hlo. apply Z.ltb_lt in Hhi.
    assert (Hcp : is_chunk (pool c) p)
      by (rewrite Forall_forall in Hlive; apply Hlive; exact Hp).
    pose proof Hlay as [HN [E|[Hb [HS [Hend [HA [Hbm HSm]]]]]]].
    { destruct Hcp as [i [Hi _]]. lia. }
    cbn [pool memory].
    apply (chain_ext l (memory c)); [|exact Hchain].
    intros y Hy. symmetry. apply load64_store8_outside.
    assert (Hcy : is_chunk (pool c) y)
      by (rewrite Forall_forall in Hfree; apply Hfree; exact Hy).
    assert (Hne : p <> y) by (intros ->; apply (Hsep y Hy Hp)).
    pose proof (is_chunk_apart (pool c) p y ltac:(lia) Hcp Hcy Hne). lia.
Qed.

Lemma pool_run_free_list (ops : list op) (A : Z) :
  forall (c c1 : client) (ps l : list Z),
    consistent c A -> chain (memory c) (m_free_list (pool c)) l ->
    run c ops = Some (c1, ps) ->
    ps = answers (pool c) l ops.
Proof.
  induction ops as [|o rest IH]; intros c c1 ps l Hc Hl Hrun; simpl in Hrun.
  - inversion Hrun; subst. reflexivity.
  - destruct (step c o) as [[c' qs]|] eqn:Hs; [|discriminate].
    destruct (run c' rest) as [[c'' rs]|] eqn:Hr; [|discriminate].
    inversion Hrun; subst; clear Hrun.
    destruct (pool_step_consistent c c' o qs A Hc Hs) as [Hc' _].
    destruct (pool_step_free_list c c' o qs l A Hc Hl Hs) as [Hl' ->].
    pose proof (pool_step_keeps_layout c c' o _ Hs) as [K1 [K2 [K3 K4]]].
    rewrite (IH c' c1 rs _ Hc' Hl' Hr). simpl. f_equal.
    clear - K1 K3 K4.
    generalize (free_after (pool c) l o). intros l0.
    revert l0. induction rest as [|o' rest' IHr]; intros l0; simpl;
      [reflexivity|].
    f_equal.
    assert (E : free_after (pool c') l0 o' = free_after (pool c) l0 o').
    { destruct o'; simpl; try reflexivity. rewrite K1, K3, K4. reflexivity. }
    rewrite E. apply IHr.
Qed.

(** In every run that keeps to the contract, the pointers [allocate]
    returns are those of a stack of chunk addresses: [allocate] pops the
    top (the null pointer when the stack is empty), [deallocate] pushes,
    [reset] refills the stack with all chunks in address order. *)
Theorem pool_answers_follow_the_stack (c c1 : client) (ops : list op)
    (ps l : list Z) (A : Z) :
  consistent c A -> chain (memory c) (m_free_list (pool c)) l ->
  run c ops = Some (c1, ps) ->
  ps = answers (pool c) l ops.
Proof.
  intros Hc Hl Hrun. eapply pool_run_free_list; eassumption.
Qed.

(** An owned pool of three chunks of 64 bytes whose block [operator new]
    put at 4100. *)
Lemma pool_answers_follow_the_stack_witness :
  let c := {| pool := fst (new_owned 4100 10 3 64 zeroed);
              memory := snd (new_owned 4100 10 3 64 zeroed); live := [] |} in
  let ops := [Allocate; Allocate; Write 4170 255; Deallocate 4160; Allocate;
              Allocate; Allocate; Reset; Allocate] in
  [4160; 4224; 4160; 4288; 0; 4160]
  = answers (pool c) [4160; 4224; 4288] ops.
Proof.
  refine (pool_answers_follow_the_stack
            {| pool := fst (new_owned 4100 10 3 64 zeroed);
               memory := snd (new_owned 4100 10 3 64 zeroed); live := [] |}
            _
            [Allocate; Allocate; Write 4170 255; Deallocate 4160; Allocate;
             Allocate; Allocate; Reset; Allocate]
            [4160; 4224; 4160; 4288; 0; 4160] [4160; 4224; 4288] 64
            _ _ _).
  - apply pool_new_owned_consistent;
      first [reflexivity | unfold SIZE_MOD, SIZEOF_PTR; lia
            | change (align_up (Z.max 10 SIZEOF_PTR) 64) with 64;
              unfold SIZE_MOD; lia].
  - vm_compute. repeat split; discriminate.
  - vm_compute. reflexivity.
Defined.

(** One operation keeps the counters in step with the free list and
    with the chunks the caller holds. *)
Lemma pool_step_tallied (c c1 : client) (o : op) (ps l : list Z) (A : Z) :
  consistent c A -> chain (memory c) (m_free_list (pool c)) l ->
  tallied c l -> step c o = Some (c1, ps) ->
  tallied c1 (free_after (pool c) l o).
Proof.
  intros Hc Hchain [Hcount [Hsum Hndl]] Hstep.
  pose proof Hc as [Hlay [l' [Hchain' [Hnd [Hfree [Hlive Hsep]]]]]].
  assert (l' = l) by (eapply chain_unique; eassumption). subst l'.
  clear Hchain'.
  assert (HNmax : m_chunk_count (pool c) < SIZE_MOD).
  { destruct Hlay as [HN [E|[Hb [HS [Hend _]]]]]; [unfold SIZE_MOD; lia|nia]. }
  assert (Hpos : Forall (fun x => 0 < x) (live c)).
  { eapply Forall_impl; [|exact Hlive]. intros x Hx.
    apply (is_chunk_aligned (pool c) A x Hlay Hx). }
  destruct o as [|p| |addr byte]; simpl in Hstep |- *.
  - (* allocate *)
    unfold allocate in Hstep.
    destruct l as [|x rest]; simpl in Hchain.
    + rewrite Hchain in Hstep. simpl in Hstep.
      inversion Hstep; subst; clear Hstep. simpl.
      repeat split; assumption.
    + destruct Hchain as [Ehead [Hx Hrest]]. rewrite Ehead in Hstep.
      destruct (Z.eqb_spec x 0) as [|_]; [contradiction|].
      inversion Hstep; subst; clear Hstep.
      unfold tallied. cbn [pool live m_free_count m_chunk_count set_free_list tl].
      destruct (Z.eqb_spec (m_free_list (pool c)) 0) as [|_]; [contradiction|].
      simpl length in *. rewrite Hcount.
      rewrite wrap_small by lia.
      split; [lia|]. split; [lia|].
      constructor; [|exact Hndl].
      apply Hsep. left. reflexivity.
  - (* deallocate *)
    destruct (Z.eqb_spec p 0) as [Ep|Np]; simpl in Hstep.
    + subst p. unfold deallocate in Hstep. simpl in Hstep.
      inversion Hstep; subst; clear Hstep.
      unfold tallied. cbn [pool live].
      rewrite notin_remove.
      * repeat split; assumption.
      * intros Hin. rewrite Forall_forall in Hpos.
        specialize (Hpos 0 Hin). lia.
    + destruct (holds c p) eqn:Hh; [|discriminate].
      apply holds_In in Hh.
      unfold deallocate in Hstep.
      destruct (Z.eqb_spec p 0) as [|_]; [contradiction|].
      inversion Hstep; subst; clear Hstep.
      pose proof (remove_length_In p (live c) Hndl Hh) as Hlen.
      unfold tallied.
      cbn [pool live m_free_count m_chunk_count set_free_list].
      simpl length. rewrite Hcount. rewrite wrap_small by lia.
      split; [lia|]. split; [lia|]. apply remove_NoDup. exact Hndl.
  - (* reset *)
    unfold reset in Hstep.
    destruct (Z.ltb_spec 0 (m_chunk_count (pool c))) as [Hp|Hzero].
    + pose proof (init_free_list_chain (pool c) (memory c) A Hlay Hp)
        as [_ [Hi _]].
      pose proof (init_free_list_keeps_layout (pool c) (memory c))
        as [_ [_ [_ K4]]].
      destruct (init_free_list (pool c) (memory c)) as [a1 m1].
      inversion Hstep; subst; clear Hstep.
      unfold tallied. cbn [pool live fst] in *.
      rewrite chunks_length, Hi, K4. simpl length.
      split; [lia|]. split; [lia|constructor].
    + inversion Hstep; subst; clear Hstep.
      unfold tallied. cbn [pool live]. simpl length.
      destruct Hlay as [HN _].
      split; [exact Hcount|]. split; [lia|constructor].
  - (* write *)
    destruct (inside c addr); [|discriminate].
    inversion Hstep; subst; clear Hstep.
    unfold tallied. cbn [pool live]. repeat split; assumption.
Qed.

Lemma pool_run_tallied (ops : list op) (A : Z) :
  forall (c c1 : client) (ps l : list Z),
    consistent c A -> chain (memory c) (m_free_list (pool c)) l ->
    tallied c l -> run c ops = Some (c1, ps) ->
    exists l1, consistent c1 A /\
               chain (memory c1) (m_free_list (pool c1)) l1 /\
               tallied c1 l1 /\
               m_chunk_count (pool c1) = m_chunk_count (pool c) /\
               m_chunk_size (pool c1) = m_chunk_size (pool c) /\
               m_memory (pool c1) = m_memory (pool c) /\
               m_memory_size (pool c1) = m_memory_size (pool c).
Proof.
  induction ops as [|o rest IH]; intros c c1 ps l Hc Hl Ht Hrun;
    simpl in Hrun.
  - inversion Hrun; subst. exists l.
    split; [assumption|]. split; [assumption|]. split; [assumption|]. auto.
  - destruct (step c o) as [[c' qs]|] eqn:Hs; [|discriminate].
    destruct (run c' rest) as [[c'' rs]|] eqn:Hr; [|discriminate].
    inversion Hrun; subst; clear Hrun.
    destruct (pool_step_consistent c c' o qs A Hc Hs) as [Hc' _].
    destruct (pool_step_free_list c c' o qs l A Hc Hl Hs) as [Hl' _].
    pose proof (pool_step_tallied c c' o qs l A Hc Hl Ht Hs) as Ht'.
    pose proof (pool_step_keeps_layout c c' o _ Hs) as [K1 [K2 [K3 K4]]].
    destruct (IH c' c1 rs _ Hc' Hl' Ht' Hr)
      as [l1 [H1 [H2 [H3 [H4 [H5 [H6 H7]]]]]]].
    exists l1.
    split; [assumption|]. split; [assumption|]. split; [assumption|].
    repeat split; congruence.
Qed.

(** The counters of a pool whose free list is [l] and whose caller holds
    as many chunks as are missing from it. *)
Lemma pool_tallied_sizes (c : client) (l : list Z) (A : Z) :
  consistent c A -> tallied c l ->
  free_count (pool c) + Z.of_nat (length (live c)) = chunk_count (pool c) /\
  used_size (pool c) = Z.of_nat (length (live c)) * chunk_size (pool c).
Proof.
  intros [Hlay _] [Hcount [Hsum _]].
  unfold free_count, chunk_count, used_size, chunk_size.
  split; [lia|].
  replace (m_chunk_count (pool c) - m_free_count (pool c))
    with (Z.of_nat (length (live c))) by lia.
  destruct Hlay as [HN [E|[Hb [HS [Hend _]]]]].
  - assert (El : Z.of_nat (length (live c)) = 0) by lia.
    rewrite El. reflexivity.
  - assert (Hle : Z.of_nat (length (live c)) <= m_chunk_count (pool c))
      by lia.
    rewrite (wrap_small (Z.of_nat _)) by nia.
    apply wrap_small. nia.
Qed.

(** The state in which the owning constructor leaves the pool. *)
Lemma pool_new_owned_tallied (raw C N A : Z) (m : mem) :
  0 <= A < SIZE_MOD -> is_power_of_two A = true ->
  0 <= C -> Z.max C SIZEOF_PTR + A <= SIZE_MOD ->
  0 <= N -> 0 < raw ->
  raw + A + N * align_up (Z.max C SIZEOF_PTR) A <= SIZE_MOD ->
  let c := {| pool := fst (new_owned raw C N A m);
              memory := snd (new_owned raw C N A m); live := [] |} in
  let l := chunks (align_pointer raw A) (align_up (Z.max C SIZEOF_PTR) A)
                  (Z.to_nat N) in
  consistent c A /\ chain (memory c) (m_free_list (pool c)) l /\
  tallied c l /\
  m_chunk_count (pool c) = N /\
  m_chunk_size (pool c) = align_up (Z.max C SIZEOF_PTR) A /\
  m_memory_size (pool c) = N * align_up (Z.max C SIZEOF_PTR) A /\
  (0 < N -> m_memory (pool c) = align_pointer raw A) /\
  8 <= align_up (Z.max C SIZEOF_PTR) A /\
  raw <= align_pointer raw A < raw + A.
Proof.
  intros HA Hp HC HCA HN Hraw Hend c l.
  assert (Hcons : consistent c A)
    by (apply pool_new_owned_consistent; assumption).
  split; [exact Hcons|]. subst c l.
  destruct (is_power_of_two_log A HA Hp) as [k [Hk ->]].
  pose proof (pow2_below_size k Hk) as H2k.
  unfold SIZEOF_PTR in *.
  pose proof (align_up_pow_facts (Z.max C 8) k Hk ltac:(lia) HCA) as [HSm HSr].
  pose proof (align_up_pow_facts raw k Hk ltac:(lia) ltac:(nia)) as [Hbm Hbr].
  clear Hcons.
  unfold new_owned, SIZEOF_PTR, align_pointer.
  set (S := align_up (Z.max C 8) (2 ^ k)) in *.
  set (base := align_up raw (2 ^ k)) in *.
  assert (HS8 : 8 <= S) by lia.
  destruct (Z.eq_dec N 0) as [->|HN0].
  - rewrite Z.mul_0_r. simpl. unfold tallied. simpl.
    repeat split; try reflexivity; try lia. constructor.
  - rewrite (wrap_small (S * N)) by nia.
    destruct (Z.ltb_spec 0 (S * N)) as [_|Hbad]; [|nia].
    set (a0 := {| m_memory := base; m_memory_size := S * N;
                  m_chunk_size := S; m_chunk_count := N;
                  m_free_count := N; m_alignment := 2 ^ k;
                  m_free_list := 0; m_owns_memory := true |}).
    assert (Hlay : laid_out a0 (2 ^ k)).
    { split; simpl; [lia|right]. repeat split; try lia; try assumption. }
    pose proof (init_free_list_chain a0 m (2 ^ k) Hlay ltac:(simpl; lia))
      as [Hch [Hcnt _]].
    pose proof (init_free_list_keeps_layout a0 m) as [K1 [K2 [K3 K4]]].
    cbn [pool memory live]. simpl in Hch, Hcnt.
    split; [exact Hch|]. unfold tallied. cbn [pool live length].
    rewrite chunks_length, Hcnt, K1, K2, K3, K4.
    subst a0. cbn [m_memory m_memory_size m_chunk_size m_chunk_count].
    simpl length.
    repeat split; try lia; constructor.
Qed.

(** Along every run of an owned pool that keeps to the contract: the
    caller holds no chunk twice, [free_count] and the chunks held add up
    to [chunk_count], and [used_size] is the chunk size times the number
    of chunks held. *)
Theorem pool_counters_track_chunks (raw C N A : Z) (m : mem)
    (ops : list op) (c : client) (ps : list Z) :
  0 <= A < SIZE_MOD -> is_power_of_two A = true ->
  0 <= C -> Z.max C SIZEOF_PTR + A <= SIZE_MOD ->
  0 <= N -> 0 < raw ->
  raw + A + N * align_up (Z.max C SIZEOF_PTR) A <= SIZE_MOD ->
  run {| pool := fst (new_owned raw C N A m);
         memory := snd (new_owned raw C N A m); live := [] |} ops
  = Some (c, ps) ->
  NoDup (live c) /\
  free_count (pool c) + Z.of_nat (length (live c)) = chunk_count (pool c) /\
  used_size (pool c) = Z.of_nat (length (live c)) * chunk_size (pool c) /\
  chunk_count (pool c) = N.
Proof.
  intros HA Hp HC HCA HN Hraw Hend Hrun.
  pose proof (pool_new_owned_tallied raw C N A m HA Hp HC HCA HN Hraw Hend)
    as [Hc [Hl [Ht [HcN _]]]].
  destruct (pool_run_tallied ops A _ _ _ _ Hc Hl Ht Hrun)
    as [l1 [Hc1 [_ [Ht1 [K4 _]]]]].
  pose proof (pool_tallied_sizes c l1 A Hc1 Ht1) as [Hf Hu].
  destruct Ht1 as [_ [_ Hnd]].
  repeat split; try assumption.
  unfold chunk_count. rewrite K4. exact HcN.
Qed.

Lemma pool_counters_track_chunks_witness :
  exists c,
    run {| pool := fst (new_owned 4100 10 3 64 zeroed);
           memory := snd (new_owned 4100 10 3 64 zeroed); live := [] |}
        [Allocate; Allocate; Write 4170 255; Deallocate 4160; Allocate]
    = Some (c, [4160; 4224; 4160]) /\
    NoDup (live c) /\
    free_count (pool c) + Z.of_nat (length (live c)) = chunk_count (pool c) /\
    used_size (pool c) = Z.of_nat (length (live c)) * chunk_size (pool c) /\
    chunk_count (pool c) = 3.
Proof.
  eexists. split; [vm_compute; reflexivity|].
  eapply (pool_counters_track_chunks 4100 10 3 64 zeroed
            [Allocate; Allocate; Write 4170 255; Deallocate 4160; Allocate]);
    first [reflexivity | unfold SIZE_MOD, SIZEOF_PTR; lia
          | change (align_up (Z.max 10 SIZEOF_PTR) 64) with 64;
            unfold SIZE_MOD; lia].
Defined.

(** Allocating until the free list [l] is empty, and once more. *)
Lemma pool_drain (l : list Z) :
  forall c, chain (memory c) (m_free_list (pool c)) l ->
    m_free_count (pool c) = Z.of_nat (length l) ->
    Z.of_nat (length l) < SIZE_MOD ->
    exists c1,
      run c (repeat Allocate (Datatypes.S (length l))) = Some (c1, l ++ [0]) /\
      m_free_count (pool c1) = 0 /\
      m_chunk_count (pool c1) = m_chunk_count (pool c) /\
      m_chunk_size (pool c1) = m_chunk_size (pool c) /\
      m_memory_size (pool c1) = m_memory_size (pool c).
Proof.
  induction l as [|x rest IH]; intros c Hchain Hcount Hmax; simpl in Hchain.
  - simpl. unfold allocate. rewrite Hchain. simpl.
    eexists. split; [reflexivity|]. simpl. auto.
  - destruct Hchain as [Ehead [Hx Hrest]].
    set (c' := {| pool := set_free_list (pool c) (load64 (memory c) x)
                            (wrap (m_free_count (pool c) - 1));
                  memory := memory c;
                  live := x :: live c |}).
    assert (Hs : step c Allocate = Some (c', [x])).
    { assert (Ex : (x =? 0) = false) by (apply Z.eqb_neq; exact Hx).
      simpl. unfold allocate. rewrite Ehead, Ex. simpl. rewrite Ex.
      reflexivity. }
    simpl length in Hcount, Hmax.
    assert (Hcount' : m_free_count (pool c') = Z.of_nat (length rest)).
    { unfold c'. cbn [pool m_free_count set_free_list]. rewrite Hcount.
      rewrite wrap_small by lia. lia. }
    destruct (IH c' Hrest Hcount' ltac:(lia))
      as [c1 [Hrun [H0 [K1 [K2 K3]]]]].
    exists c1. split; [|split; [exact H0|repeat split; assumption]].
    change (repeat Allocate (Datatypes.S (length (x :: rest))))
      with (Allocate :: repeat Allocate (Datatypes.S (length rest))).
    cbn [run]. rewrite Hs, Hrun. reflexivity.
Qed.

(** A fresh owned pool of [N] chunks hands out every chunk once, in
    address order, and then the null pointer; it is full then. *)
Theorem pool_hands_out_every_chunk_once (raw C N A : Z) (m : mem) :
  0 <= A < SIZE_MOD -> is_power_of_two A = true ->
  0 <= C -> Z.max C SIZEOF_PTR + A <= SIZE_MOD ->
  0 <= N -> 0 < raw ->
  raw + A + N * align_up (Z.max C SIZEOF_PTR) A <= SIZE_MOD ->
  let a := fst (new_owned raw C N A m) in
  let m1 := snd (new_owned raw C N A m) in
  exists c,
    run {| pool := a; memory := m1; live := [] |}
        (repeat Allocate (Datatypes.S (Z.to_nat N)))
    = Some (c, chunks (align_pointer raw A) (chunk_size a) (Z.to_nat N)
               ++ [0]) /\
    free_count (pool c) = 0 /\
    used_size (pool c) = total_size (pool c).
Proof.
  intros HA Hp HC HCA HN Hraw Hend a m1. subst a m1.
  pose proof (pool_new_owned_tallied raw C N A m HA Hp HC HCA HN Hraw Hend)
    as [Hc [Hl [[Hcount _] [HcN [HcS [Hmsz [_ [HS8 Hbase]]]]]]]].
  cbn [pool memory live] in *.
  rewrite chunks_length in Hcount.
  set (l := chunks (align_pointer raw A) (align_up (Z.max C SIZEOF_PTR) A)
                   (Z.to_nat N)) in *.
  assert (Hlen : length l = Z.to_nat N) by apply chunks_length.
  assert (HNmax : N < SIZE_MOD) by nia.
  destruct (pool_drain l
              {| pool := fst (new_owned raw C N A m);
                 memory := snd (new_owned raw C N A m); live := [] |}
              Hl ltac:(cbn [pool]; rewrite Hlen; exact Hcount)
              ltac:(rewrite Hlen; lia))
    as [c1 [Hrun [H0 [K1 [K2 K3]]]]].
  cbn [pool memory live] in *.
  exists c1. rewrite Hlen in Hrun. unfold chunk_size. rewrite HcS.
  split; [exact Hrun|]. split; [exact H0|].
  unfold used_size, total_size. rewrite H0, K1, K2, K3, HcN, HcS, Hmsz.
  rewrite Z.sub_0_r. rewrite (wrap_small N) by lia.
  apply wrap_small. nia.
Qed.

Lemma pool_hands_out_every_chunk_once_witness :
  let a := fst (new_owned 4100 10 3 64 zeroed) in
  let m1 := snd (new_owned 4100 10 3 64 zeroed) in
  exists c,
    run {| pool := a; memory := m1; live := [] |}
        (repeat Allocate (Datatypes.S (Z.to_nat 3)))
    = Some (c, chunks (align_pointer 4100 64) (chunk_size a) (Z.to_nat 3)
               ++ [0]) /\
    free_count (pool c) = 0 /\
    used_size (pool c) = total_size (pool c).
Proof.
  apply (pool_hands_out_every_chunk_once 4100 10 3 64 zeroed);
    first [reflexivity | unfold SIZE_MOD, SIZEOF_PTR; lia
          | change (align_up (Z.max 10 SIZEOF_PTR) 64) with 64;
            unfold SIZE_MOD; lia].
Defined.

(** What [owns] accepts, for a region that lies in the address space. *)
Lemma pool_owns_spec (a : t) (ptr : Z) :
  0 <= m_memory a -> 0 <= m_memory_size a ->
  m_memory a + m_memory_size a < SIZE_MOD -> 0 < m_chunk_size a ->
  (owns a ptr = Some true <->
   exists i, 0 <= i /\ i * m_chunk_size a < m_memory_size a /\
             ptr = m_memory a + i * m_chunk_size a).
Proof.
  intros Hb Hsz Hend HS. unfold owns.
  rewrite (wrap_small (m_memory a + m_memory_size a)) by lia.
  destruct (Z.ltb_spec ptr (m_memory a)) as [Hlo|Hlo]; simpl.
  { split; [discriminate|]. intros [i [Hi [_ E]]]. nia. }
  destruct (Z.leb_spec (m_memory a + m_memory_size a) ptr) as [Hhi|Hhi].
  { split; [discriminate|]. intros [i [Hi [Hlt E]]]. lia. }
  rewrite (wrap_small (ptr - m_memory a)) by lia.
  destruct (Z.eqb_spec (m_chunk_size a) 0) as [|_]; [lia|].
  split.
  - intros H. inversion H as [H1]. apply Z.eqb_eq in H1.
    apply Z.mod_divide in H1; [|lia]. destruct H1 as [q Eq].
    exists q. split; [nia|]. split; [lia|lia].
  - intros [i [Hi [Hlt E]]]. f_equal. apply Z.eqb_eq.
    replace (ptr - m_memory a) with (i * m_chunk_size a) by lia.
    apply Z_mod_mult.
Qed.

(** [owns] accepts exactly the addresses inside the region that lie a
    multiple of the chunk size after its start. *)
Theorem pool_owns_iff (a : t) (ptr : Z) :
  0 <= m_memory a -> 0 <= m_memory_size a ->
  m_memory a + m_memory_size a < SIZE_MOD -> 0 < m_chunk_size a ->
  (owns a ptr = Some true <->
   exists i, 0 <= i /\ i * chunk_size a < total_size a /\
             ptr = m_memory a + i * chunk_size a).
Proof. apply pool_owns_spec. Qed.

Lemma pool_owns_iff_witness :
  let a := fst (new_owned 4100 10 3 64 zeroed) in
  owns a 4224 = Some true <->
  exists i, 0 <= i /\ i * chunk_size a < total_size a /\
            4224 = m_memory a + i * chunk_size a.
Proof.
  apply (pool_owns_iff (fst (new_owned 4100 10 3 64 zeroed)) 4224);
    vm_compute; first [reflexivity | discriminate].
Defined.

(** The pointers one operation returns are null or chunk starts. *)
Lemma pool_step_returns_chunks (c c1 : client) (o : op) (ps : list Z)
    (A : Z) :
  consistent c A -> step c o = Some (c1, ps) ->
  Forall (fun p => p = 0 \/ is_chunk (pool c) p) ps.
Proof.
  intros Hc Hstep.
  pose proof Hc as [_ [l [Hchain [_ [Hfree _]]]]].
  destruct (pool_step_free_list c c1 o ps l A Hc Hchain Hstep) as [_ ->].
  destruct o; simpl; try constructor; [|constructor].
  destruct l as [|x rest]; simpl; [left; reflexivity|right].
  inversion Hfree; assumption.
Qed.

Lemma pool_run_returns_chunks (ops : list op) (A : Z) :
  forall (c c1 : client) (ps : list Z),
    consistent c A -> run c ops = Some (c1, ps) ->
    Forall (fun p => p = 0 \/ is_chunk (pool c) p) ps.
Proof.
  induction ops as [|o rest IH]; intros c c1 ps Hc Hrun; simpl in Hrun.
  - inversion Hrun; subst. constructor.
  - destruct (step c o) as [[c' qs]|] eqn:Hs; [|discriminate].
    destruct (run c' rest) as [[c'' rs]|] eqn:Hr; [|discriminate].
    inversion Hrun; subst; clear Hrun.
    destruct (pool_step_consistent c c' o qs A Hc Hs) as [Hc' _].
    pose proof (pool_step_returns_chunks c c' o qs A Hc Hs) as Hq.
    pose proof (pool_step_keeps_layout c c' o _ Hs) as [K1 [K2 [K3 K4]]].
    apply Forall_app. split; [exact Hq|].
    eapply Forall_impl; [|exact (IH c' c1 rs Hc' Hr)].
    intros p [E|[i [Hi E]]]; [left; exact E|right].
    exists i. rewrite <- K1, <- K3, <- K4. split; assumption.
Qed.

(** Every pointer an owned pool returns in a run that keeps to the
    contract is null or passes [owns]. *)
Theorem pool_allocations_are_owned (raw C N A : Z) (m : mem)
    (ops : list op) (c : client) (ps : list Z) :
  0 <= A < SIZE_MOD -> is_power_of_two A = true ->
  0 <= C -> Z.max C SIZEOF_PTR + A <= SIZE_MOD ->
  0 <= N -> 0 < raw ->
  raw + A + N * align_up (Z.max C SIZEOF_PTR) A <= SIZE_MOD ->
  run {| pool := fst (new_owned raw C N A m);
         memory := snd (new_owned raw C N A m); live := [] |} ops
  = Some (c, ps) ->
  Forall (fun p => p = 0 \/ owns (pool c) p = Some true) ps.
Proof.
  intros HA Hp HC HCA HN Hraw Hend Hrun.
  pose proof (pool_new_owned_tallied raw C N A m HA Hp HC HCA HN Hraw Hend)
    as [Hc [Hl [Ht [HcN [HcS [Hmsz [Hmem [HS8 Hbase]]]]]]]].
  destruct (pool_run_tallied ops A _ _ _ _ Hc Hl Ht Hrun)
    as [l1 [_ [_ [_ [K4 [K3 [K1 K2]]]]]]].
  pose proof (pool_run_returns_chunks ops A _ _ _ Hc Hrun) as Hps.
  cbn [pool] in *.
  eapply Forall_impl; [|exact Hps].
  intros p [E|[i [Hi E]]]; [left; exact E|right].
  rewrite HcN in Hi. specialize (Hmem ltac:(lia)).
  apply pool_owns_spec.
  - rewrite K1, Hmem. lia.
  - rewrite K2, Hmsz. nia.
  - rewrite K1, K2, Hmem, Hmsz. nia.
  - rewrite K3, HcS. lia.
  - exists i. rewrite K1, K2, K3, Hmsz. rewrite HcS in *.
    split; [lia|]. split; [nia|exact E].
Qed.

Lemma pool_allocations_are_owned_witness :
  exists c,
    run {| pool := fst (new_owned 4100 10 3 64 zeroed);
           memory := snd (new_owned 4100 10 3 64 zeroed); live := [] |}
        [Allocate; Allocate; Deallocate 4160; Allocate; Allocate; Allocate]
    = Some (c, [4160; 4224; 4160; 4288; 0]) /\
    Forall (fun p => p = 0 \/ owns (pool c) p = Some true)
           [4160; 4224; 4160; 4288; 0].
Proof.
  eexists. split; [vm_compute; reflexivity|].
  eapply (pool_allocations_are_owned 4100 10 3 64 zeroed
            [Allocate; Allocate; Deallocate 4160; Allocate; Allocate;
             Allocate]);
    first [reflexivity | unfold SIZE_MOD, SIZEOF_PTR; lia
          | change (align_up (Z.max 10 SIZEOF_PTR) 64) with 64;
            unfold SIZE_MOD; lia].
Defined.



End PoolMore.

(** ** The free-list allocator: the free list and its walks *)
Section HeapMore.
Import FreeListAllocator HeapSpec.

Lemma count_from_spec (m : mem) (l : list Z) :
  forall (fuel : nat) (head c : Z),
    free_list m head l -> (length l <= fuel)%nat ->
    0 <= c -> c + Z.of_nat (length l) < SIZE_MOD ->
    count_from fuel m head c = Some (c + Z.of_nat (length l)).
Proof.
  induction l as [|x rest IH]; intros fuel head c Hfl Hfuel Hc Hmax.
  - unfold free_list in Hfl. simpl in Hfl. subst head.
    destruct fuel; simpl; f_equal; lia.
  - destruct Hfl as [-> [Hnz Hs]].
    destruct fuel as [|fuel]; [simpl in Hfuel; lia|].
    cbn [count_from]. destruct (Z.eqb_spec x 0) as [|_]; [contradiction|].
    simpl length in *.
    rewrite (wrap_small (c + 1)) by lia.
    rewrite (IH fuel (hdr_next m x) (c + 1) Hs) by lia.
    f_equal. lia.
Qed.

Lemma largest_from_spec (m : mem) (l : list Z) :
  forall (fuel : nat) (head acc : Z),
    free_list m head l -> (length l <= fuel)%nat -> 0 <= acc ->
    largest_from fuel m head acc
    = Some (Z.max acc (fold_right Z.max 0 (map (hdr_size m) l))).
Proof.
  induction l as [|x rest IH]; intros fuel head acc Hfl Hfuel Hacc.
  - unfold free_list in Hfl. simpl in Hfl. subst head.
    destruct fuel; simpl; f_equal; lia.
  - destruct Hfl as [-> [Hnz Hs]].
    destruct fuel as [|fuel]; [simpl in Hfuel; lia|].
    cbn [largest_from]. destruct (Z.eqb_spec x 0) as [|_]; [contradiction|].
    pose proof (hdr_size_range m x) as Hx.
    rewrite (IH fuel (hdr_next m x) _ Hs)
      by (try (simpl in Hfuel; lia); destruct (acc <? hdr_size m x); lia).
    f_equal. cbn [map fold_right].
    destruct (Z.ltb_spec acc (hdr_size m x)); lia.
Qed.

(** [free_block_count] returns the length of the free list and
    [largest_free_block] the greatest size on it (0 when it is empty). *)
Theorem heap_free_list_statistics (fuel : nat) (a : t) (m : mem)
    (l : list Z) :
  free_list m (m_free_list a) l -> (length l <= fuel)%nat ->
  Z.of_nat (length l) < SIZE_MOD ->
  free_block_count fuel a m = Some (Z.of_nat (length l)) /\
  largest_free_block fuel a m
  = Some (fold_right Z.max 0 (map (hdr_size m) l)).
Proof.
  intros Hfl Hfuel Hmax. split.
  - unfold free_block_count.
    rewrite (count_from_spec m l fuel _ 0 Hfl Hfuel) by lia. reflexivity.
  - unfold largest_free_block.
    rewrite (largest_from_spec m l fuel _ 0 Hfl Hfuel) by lia.
    f_equal. apply Z.max_r.
    clear. induction l as [|x r IH]; simpl; lia.
Qed.

(** The seeded heap with its three free blocks of 80, 200 and 120
    bytes. *)
Lemma heap_free_list_statistics_witness :
  let a := fst (unpack (seeded FirstFit)) in
  let m := snd (unpack (seeded FirstFit)) in
  free_block_count 8 a m = Some (Z.of_nat (length [4528; 4272; 4096])) /\
  largest_free_block 8 a m
  = Some (fold_right Z.max 0 (map (hdr_size m) [4528; 4272; 4096])).
Proof.
  apply (heap_free_list_statistics 8 (fst (unpack (seeded FirstFit)))
           (snd (unpack (seeded FirstFit))) [4528; 4272; 4096]).
  - vm_compute. repeat split; discriminate.
  - simpl. lia.
  - vm_compute. reflexivity.
Defined.

(** When no block of the free list fits the request, [allocate] returns
    the null pointer and changes nothing, whatever the strategy. *)
Theorem heap_allocate_without_fit (fuel : nat) (a : t) (m : mem)
    (size alignment : Z) (l : list Z) :
  free_list m (m_free_list a) l -> (length l <= fuel)%nat ->
  Forall (fun b => ~ fits m (Z.max size MIN_BLOCK_SIZE) alignment b) l ->
  allocate fuel a m size alignment = Some (0, a, m).
Proof.
  intros Hfl Hfuel Hno. unfold allocate.
  destruct (size =? 0); [reflexivity|].
  set (sz := Z.max size MIN_BLOCK_SIZE) in *.
  assert (Hfind : find_block fuel a m sz alignment = Some 0).
  { rewrite Forall_forall in Hno.
    unfold find_block, find_first_fit, find_best_fit, find_worst_fit.
    destruct (m_strategy a).
    - destruct (first_fit_from_spec m sz alignment l fuel _ Hfl Hfuel)
        as [r [E [[-> _]|[l1 [l2 [-> [Hfit _]]]]]]]; [exact E|].
      exfalso. apply (Hno r); [|exact Hfit].
      apply in_or_app. right. left. reflexivity.
    - destruct (best_fit_from_spec m sz alignment l fuel _ 0 SIZE_MAX
                  Hfl Hfuel)
        as [r [E [[-> _]|[l1 [l2 [-> [Hfit _]]]]]]]; [exact E|].
      exfalso. apply (Hno r); [|exact Hfit].
      apply in_or_app. right. left. reflexivity.
    - destruct (worst_fit_from_spec m sz alignment l fuel _ 0 0
                  Hfl Hfuel)
        as [r [E [[-> _]|[l1 [l2 [-> [Hfit _]]]]]]]; [exact E|].
      exfalso. apply (Hno r); [|exact Hfit].
      apply in_or_app. right. left. reflexivity. }
  rewrite Hfind. reflexivity.
Qed.

(** A request of 300 bytes on the seeded heap, whose largest free block
    has 200. *)
Lemma heap_allocate_without_fit_witness :
  let a := fst (unpack (seeded BestFit)) in
  let m := snd (unpack (seeded BestFit)) in
  allocate 8 a m 300 1 = Some (0, a, m).
Proof.
  apply (heap_allocate_without_fit 8 (fst (unpack (seeded BestFit)))
           (snd (unpack (seeded BestFit))) 300 1 [4528; 4272; 4096]).
  - vm_compute. repeat split; discriminate.
  - simpl. lia.
  - repeat constructor; vm_compute; intros H; apply H; reflexivity.
Defined.

(** The walk of [remove_free_block] for a block that is not on the list
    ends at the null pointer. *)
Lemma predecessor_from_absent (m : mem) (b : Z) (l : list Z) :
  forall (fuel : nat) (head : Z),
    free_list m head l -> ~ In b l -> b <> 0 -> (length l <= fuel)%nat ->
    predecessor_from fuel m head b = Some 0.
Proof.
  induction l as [|x rest IH]; intros fuel head Hfl Hb Hnz Hfuel.
  - unfold free_list in Hfl. simpl in Hfl. subst head.
    destruct fuel; reflexivity.
  - destruct Hfl as [-> [Hx Hs]].
    destruct fuel as [|fuel]; [simpl in Hfuel; lia|].
    cbn [predecessor_from].
    destruct (Z.eqb_spec x 0) as [|_]; [contradiction|].
    assert (Hne : hdr_next m x <> b).
    { intros E. destruct rest as [|z rest']; simpl in Hs.
      - congruence.
      - destruct Hs as [E2 _]. apply Hb. right. left. congruence. }
    destruct (Z.eqb_spec (hdr_next m x) b) as [|_]; [contradiction|].
    apply IH; [exact Hs| |exact Hnz|simpl in Hfuel; lia].
    intros Hin. apply Hb. right. exact Hin.
Qed.

(** [remove_free_block] on a block that is not on the free list changes
    neither the allocator nor the memory. *)
Theorem heap_remove_absent_block_changes_nothing (fuel : nat) (a : t)
    (m : mem) (b : Z) (l : list Z) :
  free_list m (m_free_list a) l -> ~ In b l -> b <> 0 ->
  (length l <= fuel)%nat ->
  remove_free_block fuel a m b = Some (a, m).
Proof.
  intros Hfl Hb Hnz Hfuel. unfold remove_free_block.
  assert (Hhead : m_free_list a <> b).
  { destruct l as [|x rest]; simpl in Hfl.
    - unfold free_list in Hfl. simpl in Hfl. congruence.
    - destruct Hfl as [E _]. intros E2. apply Hb. left. congruence. }
  destruct (Z.eqb_spec (m_free_list a) b) as [|_]; [contradiction|].
  rewrite (predecessor_from_absent m b l fuel _ Hfl Hb Hnz Hfuel).
  reflexivity.
Qed.

Lemma heap_remove_absent_block_changes_nothing_witness :
  let a := fst (unpack (seeded FirstFit)) in
  let m := snd (unpack (seeded FirstFit)) in
  remove_free_block 8 a m 4240 = Some (a, m).
Proof.
  apply (heap_remove_absent_block_changes_nothing 8
           (fst (unpack (seeded FirstFit))) (snd (unpack (seeded FirstFit)))
           4240 [4528; 4272; 4096]).
  - vm_compute. repeat split; discriminate.
  - intros [H|[H|[H|[]]]]; discriminate.
  - discriminate.
  - simpl. lia.
Defined.

Lemma NoDup_app_last (l0 : list Z) (x b : Z) (l2 : list Z) :
  NoDup ((l0 ++ [x]) ++ b :: l2) ->
  NoDup (l0 ++ [x]) /\ ~ In b (l0 ++ [x]) /\ ~ In x l2 /\
  (forall y, In y l2 -> ~ In y (l0 ++ [x])).
Proof.
  intros H. split; [|split; [|split]].
  - apply (NoDup_app_remove_r _ _ H).
  - intros Hin. apply NoDup_remove_2 in H. apply H.
    apply in_or_app. left. exact Hin.
  - intros Hin. rewrite <- app_assoc in H. apply NoDup_remove_2 in H.
    apply H. apply in_or_app. right. right. exact Hin.
  - intros y Hy Hin. apply NoDup_remove_1 in H.
    revert Hin Hy H. generalize (l0 ++ [x]). intros l Hin Hy H.
    induction l as [|z r IH]; [contradiction|].
    simpl in H. inversion H as [|? ? Hz Hr]; subst.
    destruct Hin as [->|Hin].
    + apply Hz. apply in_or_app. right. exact Hy.
    + apply IH; assumption.
Qed.

(** [remove_free_block] on a block of the free list: the blocks before
    it and the blocks after it stay linked in their order, and no size
    and no status changes. *)
Theorem heap_remove_free_block_unlinks (fuel : nat) (a : t) (m : mem)
    (b : Z) (l1 l2 : list Z) :
  0 <= m_free_list a ->
  free_list m (m_free_list a) (l1 ++ b :: l2) ->
  NoDup (l1 ++ b :: l2) -> apart (l1 ++ b :: l2) ->
  (length l1 <= fuel)%nat ->
  exists a1 m1,
    remove_free_block fuel a m b = Some (a1, m1) /\
    free_list m1 (m_free_list a1) (l1 ++ l2) /\
    used_size a1 = used_size a /\
    (forall x, In x (l1 ++ b :: l2) ->
       hdr_size m1 x = hdr_size m x /\
       hdr_is_free m1 x = hdr_is_free m x).
Proof.
  intros Hhead Hfl Hnd Hap Hfuel.
  pose proof (free_list_nonneg m _ _ Hhead Hfl) as Hpos.
  pose proof Hfl as Hfl0.
  apply segment_app in Hfl. destruct Hfl as [mid [Hseg1 Hseg2]].
  simpl in Hseg2. destruct Hseg2 as [-> [Hbnz Hseg2]].
  unfold remove_free_block.
  destruct (exists_last_or_nil l1) as [->|[l0 [xk ->]]].
  - simpl in Hseg1. rewrite Hseg1, Z.eqb_refl.
    eexists. eexists. split; [reflexivity|].
    cbn [m_free_list with_list app].
    split; [exact Hseg2|]. split; [reflexivity|]. intros x _. auto.
  - destruct (NoDup_app_last l0 xk b l2 Hnd) as [Hnd1 [Hbnot [Hxk2 Hdis]]].
    assert (Hhd : m_free_list a <> b).
    { destruct l0 as [|y r]; simpl in Hseg1; destruct Hseg1 as [-> _];
        intros E; apply Hbnot; rewrite <- E; left; reflexivity. }
    destruct (Z.eqb_spec (m_free_list a) b) as [|_]; [contradiction|].
    rewrite (predecessor_from_spec m b l0 fuel (m_free_list a) xk Hseg1 Hbnot)
      by (rewrite length_app in Hfuel; simpl in Hfuel; lia).
    assert (Hxkin : In xk ((l0 ++ [xk]) ++ b :: l2)).
    { apply in_or_app. left. apply in_or_app. right. left. reflexivity. }
    assert (Hxkpos : 0 < xk)
      by (rewrite Forall_forall in Hpos; apply Hpos; exact Hxkin).
    destruct (Z.eqb_spec xk 0) as [|_]; [lia|].
    eexists. eexists. split; [reflexivity|].
    assert (Hapk : forall x, In x ((l0 ++ [xk]) ++ b :: l2) -> x <> xk ->
              x + 24 <= xk \/ xk + 24 <= x).
    { intros x Hx Hne. apply Hap; assumption. }
    split; [|split; [reflexivity|]].
    + unfold free_list. apply segment_app. exists (hdr_next m b). split.
      * pose proof (load64_range m (b + 8)) as Hr.
        rewrite <- (wrap_small (hdr_next m b)) at 2 by exact Hr.
        apply segment_retarget with (tail := b);
          [exact Hnd1| |exact Hseg1].
        intros u v Hu Hv. apply Hap; apply in_or_app; left; assumption.
      * apply (segment_ext l2 m); [|exact Hseg2].
        intros x Hx.
        assert (Hxx : x + 24 <= xk \/ xk + 24 <= x).
        { apply Hapk.
          - apply in_or_app. right. right. exact Hx.
          - intros ->. contradiction. }
        fields. repeat mem_step. reflexivity.
    + intros x Hx.
      destruct (Z.eq_dec x xk) as [->|Hne].
      * fields. split; repeat mem_step; reflexivity.
      * pose proof (Hapk x Hx Hne) as Hxx.
        fields. split; repeat mem_step; reflexivity.
Qed.

(** The middle block of the seeded free list. *)
Lemma heap_remove_free_block_unlinks_witness :
  let a := fst (unpack (seeded FirstFit)) in
  let m := snd (unpack (seeded FirstFit)) in
  exists a1 m1,
    remove_free_block 8 a m 4272 = Some (a1, m1) /\
    free_list m1 (m_free_list a1) ([4528] ++ [4096]) /\
    used_size a1 = used_size a /\
    (forall x, In x ([4528] ++ 4272 :: [4096]) ->
       hdr_size m1 x = hdr_size m x /\
       hdr_is_free m1 x = hdr_is_free m x).
Proof.
  apply (heap_remove_free_block_unlinks 8
           (fst (unpack (seeded FirstFit))) (snd (unpack (seeded FirstFit)))
           4272 [4528] [4096]).
  - vm_compute. discriminate.
  - vm_compute. repeat split; discriminate.
  - repeat constructor; simpl; intros H;
      repeat (destruct H as [H|H]; try discriminate); exact H.
  - intros x y Hx Hy Hne. simpl in Hx, Hy. unfold HEADER_SIZE.
    repeat (destruct Hx as [Hx|Hx]; [subst x|]); try contradiction;
      repeat (destruct Hy as [Hy|Hy]; [subst y|]); try contradiction;
      first [lia | exfalso; apply Hne; reflexivity].
  - simpl. lia.
Defined.

(** [split_block] cuts a block in two that take exactly the bytes of the
    original: the first keeps the padding and the payload, the second,
    free, begins where the first ends and inherits its successor; nothing
    outside the original block is written. *)
Theorem heap_split_conserves_bytes (m : mem) (b size pad : Z) :
  0 <= b -> 0 <= pad -> 0 <= size ->
  pad + size + HEADER_SIZE + MIN_BLOCK_SIZE <= hdr_size m b ->
  b + HEADER_SIZE + hdr_size m b <= SIZE_MOD ->
  let m1 := split_block m b size pad in
  let b1 := split_point b size pad in
  hdr_size m1 b = pad + size /\
  b1 = b + HEADER_SIZE + hdr_size m1 b /\
  (HEADER_SIZE + hdr_size m1 b) + (HEADER_SIZE + hdr_size m1 b1)
  = HEADER_SIZE + hdr_size m b /\
  MIN_BLOCK_SIZE <= hdr_size m1 b1 /\
  hdr_is_free m1 b1 = true /\ hdr_padding m1 b1 = 0 /\
  hdr_next m1 b = b1 /\ hdr_next m1 b1 = hdr_next m b /\
  (forall y, y < b \/ b + HEADER_SIZE + hdr_size m b <= y -> m1 y = m y).
Proof.
  intros Hb Hpad Hsize Hsplit Hend m1 b1. subst m1 b1.
  destruct (split_block_spec m b size pad Hb Hpad Hsize Hsplit Hend)
    as [Esp [Hs1 [Hf1 [Hp1 [Hsb [Hnb [Hnb1 Hframe]]]]]]].
  rewrite Esp. rewrite Hsb, Hs1.
  repeat split; try assumption; lia.
Qed.

(** The block of 920 bytes of a heap with two free blocks, split for a
    payload of 100 bytes. *)
Lemma heap_split_conserves_bytes_witness :
  let m := snd (unpack two_free_blocks) in
  let m1 := split_block m 4176 100 0 in
  let b1 := split_point 4176 100 0 in
  hdr_size m1 4176 = 0 + 100 /\
  b1 = 4176 + HEADER_SIZE + hdr_size m1 4176 /\
  (HEADER_SIZE + hdr_size m1 4176) + (HEADER_SIZE + hdr_size m1 b1)
  = HEADER_SIZE + hdr_size m 4176 /\
  MIN_BLOCK_SIZE <= hdr_size m1 b1 /\
  hdr_is_free m1 b1 = true /\ hdr_padding m1 b1 = 0 /\
  hdr_next m1 4176 = b1 /\ hdr_next m1 b1 = hdr_next m 4176 /\
  (forall y, y < 4176 \/ 4176 + HEADER_SIZE + hdr_size m 4176 <= y ->
             m1 y = m y).
Proof.
  apply (heap_split_conserves_bytes (snd (unpack two_free_blocks))
           4176 100 0); try lia.
  - vm_compute. discriminate.
  - vm_compute. discriminate.
Defined.

End HeapMore.

(** ** The free-list allocator: coalescing and deallocation *)
Section HeapMerge.
Import FreeListAllocator HeapSpec.

Lemma merge_into_head (rest : list (Z * Z)) :
  forall cur, exists s tl, merge_into cur rest = (fst cur, s) :: tl.
Proof.
  induction rest as [|[b s] r IH]; intros [c sc];
    cbn [merge_into fst snd].
  - exists sc, []. reflexivity.
  - destruct (_ =? _).
    + destruct (IH (c, sc + HEADER_SIZE + s)) as [s1 [tl E]].
      exists s1, tl. exact E.
    + exists sc, (merge_into (b, s) r). reflexivity.
Qed.

Lemma bytes_of_merge_into (rest : list (Z * Z)) :
  forall cur, bytes_of (merge_into cur rest) = bytes_of (cur :: rest).
Proof.
  induction rest as [|[b s] r IH]; intros [c sc];
    cbn [merge_into bytes_of fst snd]; [reflexivity|].
  destruct (_ =? _).
  - rewrite IH. cbn [bytes_of]. lia.
  - cbn [bytes_of]. rewrite IH. cbn [bytes_of]. lia.
Qed.

Lemma no_neighbours_merge_into (rest : list (Z * Z)) :
  forall cur, no_neighbours (merge_into cur rest).
Proof.
  induction rest as [|[b s] r IH]; intros [c sc];
    cbn [merge_into fst snd]; [simpl; auto|].
  destruct (Z.eqb_spec (c + HEADER_SIZE + sc) b) as [E|N]; [apply IH|].
  destruct (merge_into_head r (b, s)) as [s1 [tl E]].
  specialize (IH (b, s)). rewrite E in *. cbn [fst] in *.
  cbn [no_neighbours]. split; [exact N|exact IH].
Qed.

Lemma length_merge_into (rest : list (Z * Z)) :
  forall cur, (length (merge_into cur rest) <= S (length rest))%nat.
Proof.
  induction rest as [|[b s] r IH]; intros [c sc];
    cbn [merge_into fst snd length]; [lia|].
  destruct (_ =? _).
  - specialize (IH (c, sc + HEADER_SIZE + s)). lia.
  - cbn [length]. specialize (IH (b, s)). lia.
Qed.

(** A list of sized blocks is still there after writes that spare the
    size and the link of each of its headers. *)
Lemma sized_list_frame (l : list (Z * Z)) :
  forall (m1 m2 : mem) (head : Z),
    (forall x y, In x (map fst l) -> x <= y < x + 16 -> m2 y = m1 y) ->
    sized_list m1 head l -> sized_list m2 head l.
Proof.
  induction l as [|[b s] rest IH]; intros m1 m2 head Hfr H; simpl in *;
    [exact H|].
  destruct H as [-> [Hnz [Hs Hrest]]].
  assert (E1 : hdr_size m2 b = hdr_size m1 b).
  { unfold hdr_size. apply load_le_ext. intros y Hy.
    apply (Hfr b); [left; reflexivity|simpl in Hy; lia]. }
  assert (E2 : hdr_next m2 b = hdr_next m1 b).
  { apply hdr_next_frame. intros y Hy.
    apply (Hfr b); [left; reflexivity|lia]. }
  split; [reflexivity|]. split; [exact Hnz|]. split; [congruence|].
  rewrite E2. apply (IH m1); [|exact Hrest].
  intros x y Hx Hy. apply (Hfr x); [right; exact Hx|exact Hy].
Qed.

(** The loop of [coalesce] from the block [cur] on: it computes
    [merge_into] and writes only sizes and links of blocks of the list. *)
Lemma coalesce_from_spec (rest : list (Z * Z)) :
  forall (fuel : nat) (m : mem) (cur s : Z),
    sized_list m cur ((cur, s) :: rest) ->
    NoDup (cur :: map fst rest) -> apart (cur :: map fst rest) ->
    in_space ((cur, s) :: rest) -> 0 <= cur ->
    (length rest <= fuel)%nat ->
    exists m1,
      coalesce_from fuel m cur = Some m1 /\
      sized_list m1 cur (merge_into (cur, s) rest) /\
      (forall y, (forall x, In x (cur :: map fst rest) ->
                            y < x \/ x + 16 <= y) -> m1 y = m y).
Proof.
  induction rest as [|[b' s'] rest' IH];
    intros fuel m cur s Hsl Hnd Hap Hsp Hcur Hfuel.
  - simpl in Hsl. destruct Hsl as [_ [Hnz [Hs Hn]]].
    exists m. split; [|split; [|reflexivity]].
    + destruct fuel; cbn [coalesce_from];
        (destruct (Z.eqb_spec cur 0) as [|_]; [contradiction|]);
        cbv zeta; rewrite Hn; reflexivity.
    + simpl. auto.
  - simpl in Hsl.
    destruct Hsl as [_ [Hnz [Hs [Hnb [Hbnz [Hs' Hrest]]]]]].
    pose proof (hdr_size_range m cur) as Hrs. rewrite Hs in Hrs.
    pose proof (hdr_size_range m b') as Hrs'. rewrite Hs' in Hrs'.
    pose proof (load64_range m (cur + 8)) as Hrb.
    fold (hdr_next m cur) in Hrb. rewrite Hnb in Hrb.
    pose proof (load64_range m (b' + 8)) as Hrn.
    fold (hdr_next m b') in Hrn.
    unfold in_space in Hsp.
    pose proof (proj1 (Forall_cons_iff _ _ _) Hsp) as [Hsp1 Hsp2].
    pose proof (proj1 (Forall_cons_iff _ _ _) Hsp2) as [Hsp3 Hsp4].
    unfold HEADER_SIZE in *. cbn [fst snd] in Hsp1, Hsp3.
    cbn [map fst] in *.
    pose proof (proj1 (NoDup_cons_iff _ _) Hnd) as [Hn1 Hn2].
    pose proof (proj1 (NoDup_cons_iff _ _) Hn2) as [Hn3 Hn4].
    assert (Hcb : cur + 24 <= b' \/ b' + 24 <= cur).
    { apply Hap; [left; reflexivity|right; left; reflexivity|].
      intros E. apply Hn1. left. symmetry. exact E. }
    assert (Hcx : forall x, In x (map fst rest') ->
              cur + 24 <= x \/ x + 24 <= cur).
    { intros x Hx. apply Hap; [left; reflexivity|right; right; exact Hx|].
      intros E. apply Hn1. right. rewrite E. exact Hx. }
    assert (Hbx : forall x, In x (map fst rest') ->
              b' + 24 <= x \/ x + 24 <= b').
    { intros x Hx.
      apply Hap; [right; left; reflexivity|right; right; exact Hx|].
      intros E. apply Hn3. rewrite E. exact Hx. }
    destruct fuel as [|fuel]; [simpl in Hfuel; lia|].
    cbn [coalesce_from].
    destruct (Z.eqb_spec cur 0) as [|_]; [contradiction|].
    cbv zeta. rewrite Hnb.
    destruct (Z.eqb_spec b' 0) as [|_]; [contradiction|].
    rewrite Hs, Hs'. unfold HEADER_SIZE.
    rewrite (wrap_small (cur + 24)) by lia.
    rewrite (wrap_small (cur + 24 + s)) by lia.
    cbn [merge_into fst snd]. unfold HEADER_SIZE.
    destruct (Z.eqb_spec (cur + 24 + s) b') as [Eadj|Nadj].
    + (* the block absorbs its neighbour *)
      rewrite (wrap_small (24 + s')) by lia.
      rewrite (wrap_small (s + (24 + s'))) by lia.
      set (m1 := set_size m cur (s + (24 + s'))).
      assert (En : hdr_next m1 b' = hdr_next m b').
      { unfold m1. fields. repeat mem_step. reflexivity. }
      rewrite En.
      set (m2 := set_next m1 cur (hdr_next m b')).
      assert (Hfr2 : forall y, y < cur \/ cur + 16 <= y -> m2 y = m y).
      { intros y Hy. unfold m2, m1, set_next, set_size.
        rewrite store64_frame by lia. apply store64_frame. lia. }
      assert (Hsl2 : sized_list m2 cur ((cur, s + 24 + s') :: rest')).
      { simpl. split; [reflexivity|]. split; [exact Hnz|]. split; [|].
        - unfold m2, m1. fields. repeat mem_step.
          rewrite wrap_small by lia. lia.
        - assert (E : hdr_next m2 cur = hdr_next m b').
          { unfold m2. fields. repeat mem_step. apply wrap_small.
            exact Hrn. }
          rewrite E. apply (sized_list_frame rest' m); [|exact Hrest].
          intros x y Hx Hy. specialize (Hcx x Hx). apply Hfr2. lia. }
      destruct (IH fuel m2 cur (s + 24 + s') Hsl2) as [m3 [Hc [Hsl3 Hfr3]]].
      * constructor; [|exact Hn4]. intros Hin. apply Hn1. right. exact Hin.
      * intros u v Hu Hv. apply Hap.
        -- destruct Hu as [<-|Hu]; [left; reflexivity|right; right; exact Hu].
        -- destruct Hv as [<-|Hv]; [left; reflexivity|right; right; exact Hv].
      * constructor; [cbn [fst snd]; unfold HEADER_SIZE; lia|exact Hsp4].
      * exact Hcur.
      * simpl in Hfuel. lia.
      * exists m3. split; [exact Hc|]. split.
        -- replace (s + 24 + s') with (s + 24 + s') in Hsl3 by lia.
           exact Hsl3.
        -- intros y Hy. rewrite Hfr3.
           ++ apply Hfr2. apply (Hy cur). left. reflexivity.
           ++ intros x Hx. apply Hy.
              destruct Hx as [<-|Hx]; [left; reflexivity|right; right; exact Hx].
    + (* the walk moves on to the next block *)
      assert (Hsl2 : sized_list m b' ((b', s') :: rest')).
      { simpl. repeat split; assumption. }
      destruct (IH fuel m b' s' Hsl2 Hn2) as [m3 [Hc [Hsl3 Hfr3]]].
      * intros u v Hu Hv. apply Hap; right; assumption.
      * exact Hsp2.
      * lia.
      * simpl in Hfuel. lia.
      * exists m3. split; [exact Hc|]. split.
        -- assert (Hkeep : forall y, cur <= y < cur + 16 -> m3 y = m y).
           { intros y Hy. apply Hfr3. intros x Hx.
             destruct Hx as [<-|Hx]; [lia|]. specialize (Hcx x Hx). lia. }
           simpl. split; [reflexivity|]. split; [exact Hnz|]. split.
           ++ rewrite <- Hs. unfold hdr_size. apply load_le_ext.
              intros y Hy. apply Hkeep. simpl in Hy. lia.
           ++ assert (E : hdr_next m3 cur = b').
              { rewrite <- Hnb. apply hdr_next_frame. intros y Hy.
                apply Hkeep. lia. }
              rewrite E. exact Hsl3.
        -- intros y Hy. apply Hfr3. intros x Hx. apply Hy. right. exact Hx.
Qed.

(** [coalesce] lets every block of the free list absorb the blocks that
    follow it in the list and begin where it ends: the list that results
    takes the same bytes, no block of it ends where the next one begins,
    and only sizes and links of listed blocks are written. *)
Theorem heap_coalesce_merges_list_neighbours (fuel : nat) (a : t)
    (m : mem) (l : list (Z * Z)) :
  0 <= m_free_list a -> sized_list m (m_free_list a) l ->
  NoDup (map fst l) -> apart (map fst l) -> in_space l ->
  (length l <= fuel)%nat ->
  exists m1,
    coalesce fuel a m = Some m1 /\
    sized_list m1 (m_free_list a) (merged l) /\
    bytes_of (merged l) = bytes_of l /\
    no_neighbours (merged l) /\
    (length (merged l) <= length l)%nat /\
    (forall y, (forall x, In x (map fst l) -> y < x \/ x + 16 <= y) ->
               m1 y = m y).
Proof.
  intros Hhead Hsl Hnd Hap Hsp Hfuel. unfold coalesce.
  destruct l as [|[b s] rest].
  - simpl in Hsl. rewrite Hsl. exists m.
    split; [destruct fuel; reflexivity|]. simpl. auto.
  - pose proof Hsl as [Eh _]. rewrite Eh in *.
    destruct (coalesce_from_spec rest fuel m b s Hsl Hnd Hap Hsp Hhead)
      as [m1 [Hc [Hsl1 Hfr]]]; [simpl in Hfuel; lia|].
    exists m1. split; [exact Hc|]. split; [exact Hsl1|].
    split; [apply bytes_of_merge_into|].
    split; [apply no_neighbours_merge_into|].
    split; [apply length_merge_into|exact Hfr].
Qed.

(** A heap of 1024 bytes after two allocations of 16 bytes, with the
    second block put back at the head of the free list: it ends where the
    free rest of the heap begins. *)
Lemma heap_coalesce_merges_list_neighbours_witness :
  let s2 := unpack (allocating 8 16 1
                      (new_borrowed 4096 1024 FirstFit zeroed)
                      (fun _ s1 => allocating 8 16 1 s1
                                     (fun _ s2 => Some s2))) in
  let a := fst (insert_free_block (fst s2)
                  (set_is_free (snd s2) 4136 true) 4136) in
  let m := snd (insert_free_block (fst s2)
                  (set_is_free (snd s2) 4136 true) 4136) in
  let l := [(4136, 16); (4176, 920)] in
  exists m1,
    coalesce 8 a m = Some m1 /\
    sized_list m1 (m_free_list a) (merged l) /\
    bytes_of (merged l) = bytes_of l /\
    no_neighbours (merged l) /\
    (length (merged l) <= length l)%nat /\
    (forall y, (forall x, In x (map fst l) -> y < x \/ x + 16 <= y) ->
               m1 y = m y).
Proof.
  apply (heap_coalesce_merges_list_neighbours 8 _ _
           [(4136, 16); (4176, 920)]).
  - vm_compute. discriminate.
  - vm_compute. repeat split; discriminate.
  - repeat constructor; simpl; intros H;
      repeat (destruct H as [H|H]; try discriminate); exact H.
  - intros x y Hx Hy Hne. simpl in Hx, Hy. unfold HEADER_SIZE.
    repeat (destruct Hx as [Hx|Hx]; [subst x|]); try contradiction;
      repeat (destruct Hy as [Hy|Hy]; [subst y|]); try contradiction;
      first [lia | exfalso; apply Hne; reflexivity].
  - repeat constructor; vm_compute; reflexivity.
  - simpl. lia.
Defined.

(** [deallocate] of a block that was allocated without padding: the
    block is marked free and put at the head of the free list, the list is
    coalesced from there, and [used_size] drops by the header and the
    size of the block. *)
Theorem heap_deallocate_pushes_and_merges (fuel : nat) (a : t) (m : mem)
    (h : Z) (l : list (Z * Z)) :
  0 < h -> m_memory a <= h ->
  hdr_is_free m h = false -> hdr_padding m h = 0 ->
  0 <= m_free_list a < SIZE_MOD ->
  sized_list m (m_free_list a) l ->
  NoDup (h :: map fst l) -> apart (h :: map fst l) ->
  in_space ((h, hdr_size m h) :: l) ->
  (length l <= fuel)%nat ->
  exists a1 m1,
    deallocate fuel a m (h + HEADER_SIZE) = Some (a1, m1) /\
    m_free_list a1 = h /\
    sized_list m1 h (merged ((h, hdr_size m h) :: l)) /\
    hdr_is_free m1 h = true /\
    used_size a1 = wrap (used_size a - (HEADER_SIZE + hdr_size m h)).
Proof.
  intros Hh Hbase Hfree Hpad Hhead Hsl Hnd Hap Hsp Hfuel.
  pose proof (hdr_size_range m h) as Hrs.
  unfold in_space in Hsp.
  pose proof (proj1 (Forall_cons_iff _ _ _) Hsp) as [Hsp1 Hsp2].
  cbn [fst snd] in Hsp1.
  pose proof (proj1 (NoDup_cons_iff _ _) Hnd) as [Hn1 Hn2].
  assert (Hhx : forall x, In x (map fst l) -> h + 24 <= x \/ x + 24 <= h).
  { intros x Hx. apply Hap; [left; reflexivity|right; exact Hx|].
    intros E. apply Hn1. rewrite E. exact Hx. }
  unfold deallocate.
  destruct (Z.eqb_spec (h + HEADER_SIZE) 0) as [E|_];
    [unfold HEADER_SIZE in E; lia|].
  rewrite (recover_header_zero_padding a m h ltac:(lia)
             ltac:(unfold HEADER_SIZE in *; lia) Hbase Hfree Hpad).
  unfold insert_free_block, coalesce.
  cbn [m_free_list with_list with_used].
  unfold HEADER_SIZE in *.
  rewrite (wrap_small (24 + hdr_size m h)) by lia.
  set (m1 := set_is_free m h true).
  set (m2 := set_next m1 h (m_free_list a)).
  assert (Hfr2 : forall y, y < h + 8 \/ h + 17 <= y -> m2 y = m y).
  { intros y Hy. unfold m2, m1, set_next, set_is_free.
    rewrite store64_frame by lia. apply store8_frame. lia. }
  assert (Hsl2 : sized_list m2 h ((h, hdr_size m h) :: l)).
  { simpl. split; [reflexivity|]. split; [lia|]. split.
    - unfold m2, m1. fields. repeat mem_step. reflexivity.
    - assert (E : hdr_next m2 h = m_free_list a).
      { unfold m2. fields. repeat mem_step. apply wrap_small. exact Hhead. }
      rewrite E. apply (sized_list_frame l m); [|exact Hsl].
      intros x y Hx Hy. specialize (Hhx x Hx). apply Hfr2. lia. }
  destruct (coalesce_from_spec l fuel m2 h (hdr_size m h) Hsl2 Hnd Hap)
    as [m3 [Hc [Hsl3 Hfr3]]].
  - constructor; [cbn [fst snd]; unfold HEADER_SIZE; lia|exact Hsp2].
  - lia.
  - exact Hfuel.
  - rewrite Hc. eexists. eexists. split; [reflexivity|].
    cbn [m_free_list with_list with_used used_size m_used].
    split; [reflexivity|]. split; [exact Hsl3|]. split; [|reflexivity].
    assert (E : m3 (h + 16) = m2 (h + 16)).
    { apply Hfr3. intros x Hx. destruct Hx as [<-|Hx]; [lia|].
      specialize (Hhx x Hx). lia. }
    unfold hdr_is_free, load8. rewrite E.
    change (negb (load8 m2 (h + 16) =? 0) = true).
    unfold m2, m1. fields. repeat mem_step. reflexivity.
Qed.

(** The second of two blocks of 16 bytes, returned to a heap whose free
    rest begins where that block ends. *)
Lemma heap_deallocate_pushes_and_merges_witness :
  let s2 := unpack (allocating 8 16 1
                      (new_borrowed 4096 1024 FirstFit zeroed)
                      (fun _ s1 => allocating 8 16 1 s1
                                     (fun _ s2 => Some s2))) in
  let a := fst s2 in
  let m := snd s2 in
  exists a1 m1,
    deallocate 8 a m (4136 + HEADER_SIZE) = Some (a1, m1) /\
    m_free_list a1 = 4136 /\
    sized_list m1 4136 (merged ((4136, hdr_size m 4136) :: [(4176, 920)])) /\
    hdr_is_free m1 4136 = true /\
    used_size a1 = wrap (used_size a - (HEADER_SIZE + hdr_size m 4136)).
Proof.
  apply (heap_deallocate_pushes_and_merges 8 _ _ 4136 [(4176, 920)]).
  - lia.
  - vm_compute. discriminate.
  - vm_compute. reflexivity.
  - vm_compute. reflexivity.
  - vm_compute. split; [discriminate|reflexivity].
  - vm_compute. repeat split; discriminate.
  - repeat constructor; simpl; intros H;
      repeat (destruct H as [H|H]; try discriminate); exact H.
  - intros x y Hx Hy Hne. simpl in Hx, Hy. unfold HEADER_SIZE.
    repeat (destruct Hx as [Hx|Hx]; [subst x|]); try contradiction;
      repeat (destruct Hy as [Hy|Hy]; [subst y|]); try contradiction;
      first [lia | exfalso; apply Hne; reflexivity].
  - repeat constructor; vm_compute; reflexivity.
  - simpl. lia.
Defined.

End HeapMerge.

(** ** The free-list allocator: construction, reset and runs *)
Section HeapRuns.
Import FreeListAllocator HeapSpec.

Lemma same_region_refl (a : t) : same_region a a.
Proof. unfold same_region. auto. Qed.

Lemma same_region_trans (a2 a1 a : t) :
  same_region a2 a1 -> same_region a1 a -> same_region a2 a.
Proof.
  unfold same_region. intros [H1 [H2 [H3 H4]]] [K1 [K2 [K3 K4]]].
  repeat split; congruence.
Qed.

Lemma remove_free_block_region (fuel : nat) (a a2 : t) (m m2 : mem)
    (b : Z) :
  remove_free_block fuel a m b = Some (a2, m2) -> same_region a2 a.
Proof.
  unfold remove_free_block. intros H.
  destruct (_ =? _).
  - inversion H; subst. unfold same_region. simpl. auto.
  - destruct (predecessor_from _ _ _ _) as [c|]; [|discriminate].
    destruct (c =? 0); inversion H; subst; apply same_region_refl.
Qed.

Lemma heap_allocate_keeps_region (fuel : nat) (a a1 : t) (m m1 : mem)
    (size alignment p : Z) :
  allocate fuel a m size alignment = Some (p, a1, m1) -> same_region a1 a.
Proof.
  unfold allocate. intros H.
  destruct (size =? 0); [inversion H; subst; apply same_region_refl|].
  destruct (find_block _ _ _ _ _) as [b|]; [|discriminate].
  destruct (b =? 0); [inversion H; subst; apply same_region_refl|].
  destruct (remove_free_block _ _ _ _) as [[a2 m2]|] eqn:Hrem; [|discriminate].
  apply remove_free_block_region in Hrem.
  inversion H; subst. destruct Hrem as [H1 [H2 [H3 H4]]].
  unfold same_region. simpl. auto.
Qed.

Lemma heap_deallocate_keeps_region (fuel : nat) (a a1 : t) (m m1 : mem)
    (p : Z) :
  deallocate fuel a m p = Some (a1, m1) -> same_region a1 a.
Proof.
  unfold deallocate. intros H.
  destruct (p =? 0); [inversion H; subst; apply same_region_refl|].
  unfold insert_free_block in H.
  destruct (coalesce _ _ _) as [m3|]; [|discriminate].
  inversion H; subst. unfold same_region. simpl. auto.
Qed.

Lemma heap_reset_keeps_region (a : t) (m : mem) :
  same_region (fst (reset a m)) a.
Proof.
  unfold reset. destruct (_ <? _); [|apply same_region_refl].
  unfold init, same_region. simpl. auto.
Qed.

Lemma heap_run_keeps_region (fuel : nat) (ops : list op) :
  forall (s s1 : t * mem) (ps : list Z),
    run fuel s ops = Some (s1, ps) -> same_region (fst s1) (fst s).
Proof.
  induction ops as [|o rest IH]; intros s s1 ps Hrun; simpl in Hrun.
  - inversion Hrun; subst. apply same_region_refl.
  - destruct (step fuel s o) as [[s' qs]|] eqn:Hs; [|discriminate].
    destruct (run fuel s' rest) as [[s'' rs]|] eqn:Hr; [|discriminate].
    inversion Hrun; subst; clear Hrun.
    apply (same_region_trans _ (fst s')); [apply (IH _ _ _ Hr)|].
    destruct o as [size alignment|p|]; simpl in Hs.
    + destruct (allocate _ _ _ _ _) as [[[p a1] m1]|] eqn:Ha; [|discriminate].
      inversion Hs; subst. simpl.
      apply (heap_allocate_keeps_region _ _ _ _ _ _ _ _ Ha).
    + destruct (deallocate _ _ _ _) as [[a1 m1]|] eqn:Hd; [|discriminate].
      inversion Hs; subst. simpl.
      apply (heap_deallocate_keeps_region _ _ _ _ _ _ Hd).
    + inversion Hs; subst. apply heap_reset_keeps_region.
Qed.

(** What [init] leaves in the memory. *)
Lemma heap_init_block (a : t) (m : mem) :
  HEADER_SIZE < m_size a < SIZE_MOD ->
  let m1 := snd (init a m) in
  hdr_size m1 (m_memory a) = m_size a - HEADER_SIZE /\
  hdr_next m1 (m_memory a) = 0 /\
  hdr_is_free m1 (m_memory a) = true /\
  hdr_padding m1 (m_memory a) = 0 /\
  (forall x, x < m_memory a \/ m_memory a + HEADER_SIZE <= x -> m1 x = m x).
Proof.
  intros Hs. cbv zeta. unfold HEADER_SIZE in *. unfold init. cbn [snd].
  split; [|split; [|split; [|split]]].
  - fields. repeat mem_step. unfold HEADER_SIZE.
    rewrite (wrap_small (m_size a - 24)) by lia. apply wrap_small. lia.
  - fields. repeat mem_step. reflexivity.
  - fields. repeat mem_step. reflexivity.
  - fields. repeat mem_step. reflexivity.
  - intros x Hx. unfold set_padding, set_is_free, set_next, set_size.
    rewrite store8_frame by lia. rewrite store8_frame by lia.
    rewrite store64_frame by lia. apply store64_frame. lia.
Qed.

(** A heap whose region has no room for a payload after the header has
    an empty free list: [allocate] always returns the null pointer, the
    walks report no free block, and [reset] does nothing. *)
Theorem heap_without_room_never_allocates (buffer raw size : Z)
    (strategy : Strategy) (m : mem) (fuel : nat) (request alignment : Z)
    (a : t) :
  size <= HEADER_SIZE ->
  a = fst (new_borrowed buffer size strategy m) \/
  a = fst (new_owned raw size strategy m) ->
  snd (new_borrowed buffer size strategy m) = m /\
  snd (new_owned raw size strategy m) = m /\
  allocate fuel a m request alignment = Some (0, a, m) /\
  free_block_count fuel a m = Some 0 /\
  largest_free_block fuel a m = Some 0 /\
  reset a m = (a, m) /\ used_size a = 0.
Proof.
  intros Hs Ha. unfold new_borrowed, new_owned in *.
  destruct (Z.ltb_spec HEADER_SIZE size) as [|_]; [lia|].
  cbn [fst snd] in *.
  assert (Hl : m_free_list a = 0) by (destruct Ha; subst; reflexivity).
  assert (Hz : m_size a = size) by (destruct Ha; subst; reflexivity).
  assert (Hu : m_used a = 0) by (destruct Ha; subst; reflexivity).
  split; [reflexivity|]. split; [reflexivity|].
  split; [|split; [|split; [|split]]].
  - unfold allocate. destruct (request =? 0); [reflexivity|].
    unfold find_block, find_first_fit, find_best_fit, find_worst_fit.
    rewrite Hl. destruct (m_strategy a); destruct fuel; reflexivity.
  - unfold free_block_count. rewrite Hl. destruct fuel; reflexivity.
  - unfold largest_free_block. rewrite Hl. destruct fuel; reflexivity.
  - unfold reset. rewrite Hz.
    destruct (Z.ltb_spec HEADER_SIZE size) as [|_]; [lia|reflexivity].
  - exact Hu.
Qed.

(** A heap over a buffer of 24 bytes. *)
Lemma heap_without_room_never_allocates_witness :
  let a := fst (new_borrowed 4096 24 FirstFit zeroed) in
  snd (new_borrowed 4096 24 FirstFit zeroed) = zeroed /\
  snd (new_owned 4096 24 FirstFit zeroed) = zeroed /\
  allocate 8 a zeroed 1 1 = Some (0, a, zeroed) /\
  free_block_count 8 a zeroed = Some 0 /\
  largest_free_block 8 a zeroed = Some 0 /\
  reset a zeroed = (a, zeroed) /\ used_size a = 0.
Proof.
  apply (heap_without_room_never_allocates 4096 4096 24 FirstFit zeroed 8
           1 1 (fst (new_borrowed 4096 24 FirstFit zeroed))).
  - unfold HEADER_SIZE. lia.
  - left. reflexivity.
Defined.

(** A freshly constructed heap is one free block that takes the whole
    region after its header; nothing is in use, and the constructor
    writes only that header. *)
Theorem heap_fresh_is_one_free_block (buffer size : Z)
    (strategy : Strategy) (m : mem) (fuel : nat) :
  0 < buffer -> HEADER_SIZE < size < SIZE_MOD ->
  let a := fst (new_borrowed buffer size strategy m) in
  let m1 := snd (new_borrowed buffer size strategy m) in
  sized_list m1 (m_free_list a) [(buffer, size - HEADER_SIZE)] /\
  hdr_is_free m1 buffer = true /\
  used_size a = 0 /\ total_size a = size /\
  free_block_count (S fuel) a m1 = Some 1 /\
  largest_free_block (S fuel) a m1 = Some (size - HEADER_SIZE) /\
  accounted (S fuel) a m1 = true /\
  (forall x, x < buffer \/ buffer + HEADER_SIZE <= x -> m1 x = m x).
Proof.
  intros Hb Hs a m1. subst a m1. unfold new_borrowed.
  destruct (Z.ltb_spec HEADER_SIZE size) as [_|]; [|lia].
  set (a0 := {| m_memory := buffer; m_size := size; m_used := 0;
                m_strategy := strategy; m_free_list := 0;
                m_owns_memory := false |}).
  pose proof (heap_init_block a0 m Hs) as [Hsz [Hnx [Hfr [Hpd Hframe]]]].
  pose proof (heap_init_accounted fuel a0 m Hs) as Hacc.
  cbn [m_memory m_size a0] in Hsz, Hnx, Hfr, Hpd, Hframe.
  assert (Hfl : free_list (snd (init a0 m)) buffer [buffer]).
  { unfold free_list. simpl. repeat split; [lia|exact Hnx]. }
  assert (Ea : fst (init a0 m) = with_used (with_list a0 buffer) 0)
    by reflexivity.
  split; [|split; [|split; [|split; [|split; [|split; [|split]]]]]].
  - rewrite Ea. simpl. repeat split; [lia|exact Hsz|exact Hnx].
  - exact Hfr.
  - reflexivity.
  - reflexivity.
  - unfold free_block_count. rewrite Ea.
    cbn [m_free_list with_used with_list].
    rewrite (count_from_spec _ [buffer] (S fuel) buffer 0 Hfl);
      [reflexivity|simpl; lia|lia|unfold SIZE_MOD; simpl; lia].
  - unfold largest_free_block. rewrite Ea.
    cbn [m_free_list with_used with_list].
    rewrite (largest_from_spec _ [buffer] (S fuel) buffer 0 Hfl);
      [|simpl; lia|lia].
    cbn [map fold_right]. rewrite Hsz. f_equal. unfold HEADER_SIZE in *. lia.
  - exact Hacc.
  - exact Hframe.
Qed.

Lemma heap_fresh_is_one_free_block_witness :
  let a := fst (new_borrowed 4096 1024 BestFit zeroed) in
  let m1 := snd (new_borrowed 4096 1024 BestFit zeroed) in
  sized_list m1 (m_free_list a) [(4096, 1024 - HEADER_SIZE)] /\
  hdr_is_free m1 4096 = true /\
  used_size a = 0 /\ total_size a = 1024 /\
  free_block_count 1 a m1 = Some 1 /\
  largest_free_block 1 a m1 = Some (1024 - HEADER_SIZE) /\
  accounted 1 a m1 = true /\
  (forall x, x < 4096 \/ 4096 + HEADER_SIZE <= x -> m1 x = zeroed x).
Proof.
  apply (heap_fresh_is_one_free_block 4096 1024 BestFit zeroed 0);
    unfold HEADER_SIZE, SIZE_MOD; lia.
Defined.

(** Whatever was allocated and deallocated since the construction,
    [reset] puts the allocator back into the state its constructor left
    it in: one free block that takes the whole region, nothing in use. *)
Theorem heap_reset_restores_construction (buffer size : Z)
    (strategy : Strategy) (m0 : mem) (fuel : nat) (ops : list op)
    (a1 : t) (m1 : mem) (ps : list Z) :
  0 < buffer -> HEADER_SIZE < size < SIZE_MOD ->
  run fuel (new_borrowed buffer size strategy m0) ops = Some (a1, m1, ps) ->
  let a2 := fst (reset a1 m1) in
  let m2 := snd (reset a1 m1) in
  a2 = fst (new_borrowed buffer size strategy m0) /\
  sized_list m2 (m_free_list a2) [(buffer, size - HEADER_SIZE)] /\
  hdr_is_free m2 buffer = true /\
  used_size a2 = 0 /\
  accounted 1 a2 m2 = true.
Proof.
  intros Hb Hs Hrun a2 m2. subst a2 m2.
  pose proof (heap_run_keeps_region fuel ops _ _ _ Hrun) as Hreg.
  cbn [fst] in Hreg.
  assert (H0 : same_region (fst (new_borrowed buffer size strategy m0))
                 {| m_memory := buffer; m_size := size; m_used := 0;
                    m_strategy := strategy; m_free_list := 0;
                    m_owns_memory := false |}).
  { unfold new_borrowed. destruct (_ <? _); [|apply same_region_refl].
    unfold init, same_region. simpl. auto. }
  pose proof (same_region_trans _ _ _ Hreg H0) as [R1 [R2 [R3 R4]]].
  cbn [m_memory m_size m_strategy m_owns_memory] in R1, R2, R3, R4.
  unfold reset. rewrite R2.
  destruct (Z.ltb_spec HEADER_SIZE size) as [_|]; [|lia].
  assert (Hs1 : HEADER_SIZE < m_size a1 < SIZE_MOD) by (rewrite R2; exact Hs).
  pose proof (heap_init_block a1 m1 Hs1) as [Hsz [Hnx [Hfr [Hpd Hframe]]]].
  pose proof (heap_init_accounted 0 a1 m1 Hs1) as Hacc.
  rewrite R1, R2 in Hsz. rewrite R1 in Hnx, Hfr.
  assert (Ea : fst (init a1 m1) = with_used (with_list a1 buffer) 0)
    by (unfold init; rewrite R1; reflexivity).
  split; [|split; [|split; [|split]]].
  - rewrite Ea. unfold new_borrowed.
    destruct (Z.ltb_spec HEADER_SIZE size) as [_|]; [|lia].
    unfold init, with_used, with_list. cbn [fst m_memory m_size m_used
      m_strategy m_free_list m_owns_memory].
    rewrite R1, R2, R3, R4. reflexivity.
  - rewrite Ea. simpl. repeat split; [lia|exact Hsz|exact Hnx].
  - exact Hfr.
  - rewrite Ea. reflexivity.
  - exact Hacc.
Qed.

(** A heap of 1024 bytes after an allocation with padding, a
    deallocation that misses the header, and another allocation. *)
Lemma heap_reset_restores_construction_witness :
  exists a1 m1 ps,
    run 8 (new_borrowed 4096 1024 FirstFit zeroed)
        [Allocate 10 32; Deallocate 4128; Allocate 100 16]
    = Some (a1, m1, ps) /\
    let a2 := fst (reset a1 m1) in
    let m2 := snd (reset a1 m1) in
    a2 = fst (new_borrowed 4096 1024 FirstFit zeroed) /\
    sized_list m2 (m_free_list a2) [(4096, 1024 - HEADER_SIZE)] /\
    hdr_is_free m2 4096 = true /\
    used_size a2 = 0 /\
    accounted 1 a2 m2 = true.
Proof.
  eexists. eexists. eexists. split; [vm_compute; reflexivity|].
  eapply (heap_reset_restores_construction 4096 1024 FirstFit zeroed 8
            [Allocate 10 32; Deallocate 4128; Allocate 100 16]);
    [lia|unfold HEADER_SIZE, SIZE_MOD; lia|vm_compute; reflexivity].
Defined.

End HeapRuns.

(** ** The free-list allocator: runs of allocations *)
Section HeapPacked.
Import FreeListAllocator HeapSpec.

Lemma tiles_le (m : mem) (bs : list Z) :
  forall addr stop, tiles m addr bs stop -> addr <= stop.
Proof.
  induction bs as [|b r IH]; intros addr stop H; simpl in H; [lia|].
  destruct H as [-> [_ H]]. apply IH in H.
  pose proof (hdr_size_range m b). unfold HEADER_SIZE in *. lia.
Qed.

Lemma tiles_frame (bs : list Z) :
  forall (m1 m2 : mem) (addr stop : Z),
    (forall y, addr <= y < stop -> m2 y = m1 y) ->
    tiles m1 addr bs stop -> tiles m2 addr bs stop.
Proof.
  induction bs as [|b r IH]; intros m1 m2 addr stop Hfr H; simpl in *;
    [exact H|].
  destruct H as [-> [Hf H]].
  pose proof (tiles_le _ _ _ _ H) as Hle.
  pose proof (hdr_size_range m1 b) as Hr. unfold HEADER_SIZE in *.
  assert (Es : hdr_size m2 b = hdr_size m1 b).
  { unfold hdr_size. apply load_le_ext. intros y Hy. simpl in Hy.
    apply Hfr. lia. }
  assert (Ef : hdr_is_free m2 b = hdr_is_free m1 b).
  { unfold hdr_is_free, load8. rewrite (Hfr (b + 16)) by lia. reflexivity. }
  split; [reflexivity|]. split; [congruence|].
  rewrite Es. apply (IH m1); [|exact H]. intros y Hy. apply Hfr. lia.
Qed.

Lemma tiles_snoc (m : mem) (bs : list Z) :
  forall addr f stop,
    tiles m addr bs f -> hdr_is_free m f = false ->
    f + HEADER_SIZE + hdr_size m f = stop ->
    tiles m addr (bs ++ [f]) stop.
Proof.
  induction bs as [|b r IH]; intros addr f stop H Hf Hend; simpl in *.
  - subst addr. repeat split; assumption.
  - destruct H as [-> [Hb H]]. repeat split; [exact Hb|].
    apply IH; assumption.
Qed.

Lemma tiles_sums (m : mem) (bs : list Z) :
  forall addr stop,
    tiles m addr bs stop ->
    tiled_bytes m bs = stop - addr /\ used_bytes m bs = stop - addr.
Proof.
  induction bs as [|b r IH]; intros addr stop H; simpl in H;
    cbn [tiled_bytes used_bytes]; [lia|].
  destruct H as [-> [Hf H]]. destruct (IH _ _ H) as [E1 E2].
  rewrite Hf, E1, E2. lia.
Qed.

Lemma tiled_bytes_app (m : mem) (l1 l2 : list Z) :
  tiled_bytes m (l1 ++ l2) = tiled_bytes m l1 + tiled_bytes m l2.
Proof.
  induction l1 as [|b r IH]; cbn [app tiled_bytes]; [reflexivity|].
  rewrite IH. lia.
Qed.

Lemma used_bytes_app (m : mem) (l1 l2 : list Z) :
  used_bytes m (l1 ++ l2) = used_bytes m l1 + used_bytes m l2.
Proof.
  induction l1 as [|b r IH]; cbn [app used_bytes]; [reflexivity|].
  rewrite IH. lia.
Qed.

Lemma blocks_at_stop (m : mem) (stop : Z) (fuel : nat) :
  blocks fuel m stop stop = Some [].
Proof. destruct fuel; cbn [blocks]; rewrite Z.eqb_refl; reflexivity. Qed.

Lemma blocks_tiles (m : mem) (bs : list Z) :
  forall addr stop fuel,
    tiles m addr bs stop -> (length bs <= fuel)%nat ->
    blocks fuel m addr stop = Some bs.
Proof.
  induction bs as [|b r IH]; intros addr stop fuel H Hf; simpl in H.
  - subst. apply blocks_at_stop.
  - destruct H as [-> [Hfree H]].
    pose proof (tiles_le _ _ _ _ H). pose proof (hdr_size_range m b).
    unfold HEADER_SIZE in *.
    destruct fuel; [simpl in Hf; lia|]. cbn [blocks].
    destruct (Z.eqb_spec b stop); [lia|].
    destruct (Z.ltb_spec stop b); [lia|].
    unfold HEADER_SIZE. rewrite (IH _ _ fuel H) by (simpl in Hf; lia).
    reflexivity.
Qed.

Lemma blocks_tiles_free (m : mem) (bs : list Z) :
  forall addr f stop fuel,
    tiles m addr bs f -> f + HEADER_SIZE + hdr_size m f = stop ->
    (length bs < fuel)%nat ->
    blocks fuel m addr stop = Some (bs ++ [f]).
Proof.
  induction bs as [|b r IH]; intros addr f stop fuel H Hend Hf; simpl in H.
  - subst addr. pose proof (hdr_size_range m f). unfold HEADER_SIZE in *.
    destruct fuel; [simpl in Hf; lia|]. cbn [blocks].
    destruct (Z.eqb_spec f stop); [lia|].
    destruct (Z.ltb_spec stop f); [lia|].
    unfold HEADER_SIZE. rewrite Hend, blocks_at_stop. reflexivity.
  - destruct H as [-> [Hfree H]].
    pose proof (tiles_le _ _ _ _ H). pose proof (hdr_size_range m b).
    pose proof (hdr_size_range m f).
    unfold HEADER_SIZE in *.
    destruct fuel; [simpl in Hf; lia|]. cbn [blocks].
    destruct (Z.eqb_spec b stop); [lia|].
    destruct (Z.ltb_spec stop b); [lia|].
    unfold HEADER_SIZE.
    rewrite (IH _ f stop fuel H) by (try assumption; simpl in Hf; lia).
    reflexivity.
Qed.

(** A packed heap satisfies the invariants H1 and H5. *)
Lemma packed_accounted (fuel : nat) (a : t) (m : mem) (bs : list Z) :
  packed a m bs -> (length bs < fuel)%nat -> accounted fuel a m = true.
Proof.
  intros [Ht [[Hfl [Hfree [Hnx Hend]]]|[Hfl Hfull]]] Hf; unfold accounted.
  - rewrite (blocks_tiles_free m bs _ (frontier a) _ fuel Ht Hend Hf).
    rewrite tiled_bytes_app, used_bytes_app.
    destruct (tiles_sums _ _ _ _ Ht) as [E1 E2]. rewrite E1, E2.
    cbn [tiled_bytes used_bytes]. rewrite Hfree.
    unfold used_size, frontier in *.
    apply andb_true_intro. split; apply Z.eqb_eq; lia.
  - assert (E : m_memory a + m_size a = frontier a)
      by (unfold frontier; lia).
    rewrite E. rewrite (blocks_tiles m bs _ _ fuel Ht) by lia.
    destruct (tiles_sums _ _ _ _ Ht) as [E1 E2]. rewrite E1, E2.
    unfold used_size, frontier in *.
    apply andb_true_intro. split; apply Z.eqb_eq; lia.
Qed.

(** The three searches on a free list of one block. *)
Lemma find_block_single (fuel : nat) (a : t) (m : mem) (sz alignment : Z) :
  m_free_list a <> 0 -> hdr_next m (m_free_list a) = 0 ->
  hdr_size m (m_free_list a) < SIZE_MAX ->
  0 < wrap (sz + block_padding (m_free_list a) alignment) ->
  find_block (S fuel) a m sz alignment
  = Some (if wrap (sz + block_padding (m_free_list a) alignment)
             <=? hdr_size m (m_free_list a)
          then m_free_list a else 0).
Proof.
  intros Hnz Hnx Hmax Hreq.
  unfold find_block, find_first_fit, find_best_fit, find_worst_fit.
  set (f := m_free_list a) in *.
  set (req := wrap (sz + block_padding f alignment)) in *.
  destruct (m_strategy a).
  - cbn [first_fit_from].
    destruct (Z.eqb_spec f 0) as [|_]; [contradiction|].
    fold req. destruct (req <=? hdr_size m f); [reflexivity|].
    rewrite Hnx. destruct fuel; reflexivity.
  - cbn [best_fit_from].
    destruct (Z.eqb_spec f 0) as [|_]; [contradiction|].
    fold req. rewrite Hnx.
    destruct (Z.leb_spec req (hdr_size m f)) as [Hfit|Hno]; cbn [andb].
    + destruct (Z.ltb_spec (hdr_size m f) SIZE_MAX) as [_|]; [|lia].
      destruct (hdr_size m f =? req); [reflexivity|].
      destruct fuel; reflexivity.
    + destruct fuel; reflexivity.
  - cbn [worst_fit_from].
    destruct (Z.eqb_spec f 0) as [|_]; [contradiction|].
    fold req. rewrite Hnx.
    destruct (Z.leb_spec req (hdr_size m f)) as [Hfit|Hno]; cbn [andb].
    + destruct (Z.ltb_spec 0 (hdr_size m f)) as [_|]; [|lia].
      destruct fuel; reflexivity.
    + destruct fuel; reflexivity.
Qed.

(** One allocation on a packed heap, for a request that cannot wrap and
    a region that ends at least a minimal block before the end of the
    address space. *)
Lemma heap_allocate_packed (fuel : nat) (a : t) (m : mem) (bs : list Z)
    (size alignment : Z) :
  0 < m_memory a ->
  m_memory a + m_size a + HEADER_SIZE + MIN_BLOCK_SIZE <= SIZE_MOD ->
  0 <= m_used a <= m_size a ->
  packed a m bs -> StackSpec.sane (m_size a) (size, alignment) ->
  exists p a1 m1 bs1,
    allocate (S fuel) a m size alignment = Some (p, a1, m1) /\
    packed a1 m1 bs1 /\ (length bs1 <= S (length bs))%nat /\
    same_region a1 a /\
    m_used a <= m_used a1 <= m_size a /\
    p mod alignment = 0 /\
    (p <> 0 -> frontier a + HEADER_SIZE <= p /\ p + size <= frontier a1).
Proof.
  intros Hbase Hend Hused Hpacked Hsane.
  pose proof Hpacked as [Ht Hcase].
  destruct Hsane as [Hs [Ha [Hpow Hw]]]. cbn [fst snd] in Hs, Ha, Hpow, Hw.
  destruct (is_power_of_two_log alignment Ha Hpow) as [k [Hk Ek]].
  assert (Hnull : allocate (S fuel) a m size alignment = Some (0, a, m) ->
            exists p a1 m1 bs1,
              allocate (S fuel) a m size alignment = Some (p, a1, m1) /\
              packed a1 m1 bs1 /\ (length bs1 <= S (length bs))%nat /\
              same_region a1 a /\
              m_used a <= m_used a1 <= m_size a /\
              p mod alignment = 0 /\
              (p <> 0 -> frontier a + HEADER_SIZE <= p /\
                         p + size <= frontier a1)).
  { intros E. exists 0, a, m, bs. split; [exact E|].
    split; [exact Hpacked|]. split; [lia|].
    split; [apply same_region_refl|]. split; [lia|].
    split; [apply Zmod_0_l|]. intros N. contradiction N. reflexivity. }
  destruct (Z.eq_dec size 0) as [->|Hsz0]; [apply Hnull; reflexivity|].
  destruct Hcase as [[Hfl [Hfree [Hnx Hblk]]]|[Hfl Hfull]].
  2:{ apply Hnull. unfold allocate.
      destruct (size =? 0); [reflexivity|].
      unfold find_block, find_first_fit, find_best_fit, find_worst_fit.
      rewrite Hfl. destruct (m_strategy a); reflexivity. }
  pose proof (tiles_le _ _ _ _ Ht) as Hfb.
  set (f := frontier a) in *.
  pose proof (hdr_size_range m f) as Hrs.
  set (s := hdr_size m f) in *.
  set (sz := Z.max size MIN_BLOCK_SIZE).
  set (pad := block_padding f alignment).
  unfold HEADER_SIZE, MIN_BLOCK_SIZE, SIZEOF_PTR in *.
  assert (Hpad : 0 <= pad < alignment).
  { unfold pad, block_padding. rewrite Ek. apply calc_padding_range.
    exact Hk. }
  assert (Hsz : 8 <= sz /\ size <= sz /\ sz <= Z.max size 8) by (unfold sz; lia).
  assert (Hnw : sz + pad < SIZE_MOD) by lia.
  assert (Hfu : f = m_memory a + m_used a) by reflexivity.
  assert (Hfind : find_block (S fuel) a m sz alignment
                  = Some (if sz + pad <=? s then f else 0)).
  { rewrite (find_block_single fuel a m sz alignment); rewrite Hfl;
      fold f; fold pad; fold s;
      try (rewrite (wrap_small (sz + pad)) by lia);
      first [reflexivity | assumption | unfold SIZE_MAX; lia | lia]. }
  destruct (Z.leb_spec (sz + pad) s) as [Hfit|Hno].
  2:{ apply Hnull. unfold allocate.
      destruct (Z.eqb_spec size 0) as [|_]; [contradiction|].
      change (Z.max size MIN_BLOCK_SIZE) with sz.
      rewrite Hfind. reflexivity. }
  assert (Hal : forall p a1 m1,
            allocate (S fuel) a m size alignment = Some (p, a1, m1) ->
            p mod alignment = 0).
  { intros p a1 m1 E.
    apply (heap_allocate_aligned _ _ _ _ _ _ _ _ Ha Hpow E). }
  pose proof Hal as Hal'.
  unfold allocate in Hal' |- *.
  destruct (Z.eqb_spec size 0) as [|_]; [contradiction|].
  change (Z.max size MIN_BLOCK_SIZE) with sz in Hal' |- *.
  rewrite Hfind in Hal' |- *.
  destruct (Z.eqb_spec f 0) as [|_]; [lia|].
  change (block_padding f alignment) with pad in Hal' |- *.
  unfold HEADER_SIZE, MIN_BLOCK_SIZE, SIZEOF_PTR in *.
  change (hdr_size m f) with s in Hal' |- *.
  rewrite (wrap_small (pad + sz)) in Hal' |- * by lia.
  rewrite (wrap_small (pad + sz + 24)) in Hal' |- * by lia.
  rewrite (wrap_small (pad + sz + 24 + 8)) in Hal' |- * by lia.
  rewrite (wrap_small (f + 24)) in Hal' |- * by lia.
  rewrite (wrap_small (f + 24 + pad)) in Hal' |- * by lia.
  destruct (Z.leb_spec (pad + sz + 24 + 8) s) as [Hsplit|Hwhole].
  - (* the block is split *)
    assert (Hsp1 : pad + sz + HEADER_SIZE + MIN_BLOCK_SIZE <= hdr_size m f).
    { change (hdr_size m f) with s.
      unfold HEADER_SIZE, MIN_BLOCK_SIZE, SIZEOF_PTR. lia. }
    assert (Hsp2 : f + HEADER_SIZE + hdr_size m f <= SIZE_MOD).
    { change (hdr_size m f) with s. unfold HEADER_SIZE. lia. }
    destruct (split_block_spec m f sz pad ltac:(lia) ltac:(lia) ltac:(lia)
                Hsp1 Hsp2)
      as [Esp [Hs1 [Hf1 [Hp1 [Hsb [Hnb [Hnb1 Hframe]]]]]]].
    unfold HEADER_SIZE in Esp, Hs1, Hf1, Hp1, Hnb, Hnb1, Hframe.
    change (hdr_size m f) with s in Hs1, Hframe.
    set (b1 := f + 24 + pad + sz) in *.
    set (m6 := split_block m f sz pad) in *.
    unfold remove_free_block in Hal' |- *.
    rewrite Hfl in Hal' |- *. fold f in Hal' |- *.
    rewrite Z.eqb_refl in Hal' |- *. rewrite Hnb in Hal' |- *.
    set (m4 := set_padding (set_is_free m6 f false) f pad) in *.
    assert (Hs4 : hdr_size m4 f = pad + sz).
    { unfold m4. fields. repeat mem_step. exact Hsb. }
    rewrite Hs4 in Hal' |- *.
    cbn [m_used with_list] in Hal' |- *.
    rewrite (wrap_small (24 + (pad + sz))) in Hal' |- * by lia.
    rewrite (wrap_small (m_used a + (24 + (pad + sz)))) in Hal' |- * by lia.
    eexists. eexists. eexists. exists (bs ++ [f]).
    split; [reflexivity|].
    assert (Hfr4 : forall y, y < f -> m4 y = m y).
    { intros y Hy. unfold m4, set_padding, set_is_free.
      rewrite store8_frame by lia. rewrite store8_frame by lia.
      apply Hframe. lia. }
    assert (Efr : frontier (with_used (with_list a b1)
                              (m_used a + (24 + (pad + sz)))) = b1).
    { unfold frontier. cbn [m_memory m_used with_used with_list].
      unfold b1. lia. }
    split; [|split; [|split; [|split; [|split]]]].
    + unfold packed. rewrite Efr.
      cbn [m_memory m_size m_free_list with_used with_list].
      split.
      * apply tiles_snoc.
        -- apply (tiles_frame bs m); [|exact Ht].
           intros y Hy. apply Hfr4. lia.
        -- unfold m4. fields. repeat mem_step. reflexivity.
        -- rewrite Hs4. unfold HEADER_SIZE, b1. lia.
      * left. split; [reflexivity|]. split; [|split].
        -- unfold m4. fields. repeat mem_step. exact Hf1.
        -- unfold m4. fields. repeat mem_step. rewrite Hnb1. exact Hnx.
        -- assert (E : hdr_size m4 b1 = s - (pad + sz) - 24).
           { unfold m4. fields. repeat mem_step. exact Hs1. }
           rewrite E. unfold HEADER_SIZE, b1. lia.
    + rewrite length_app. simpl. lia.
    + unfold same_region. simpl. auto.
    + cbn [m_used with_used]. lia.
    + apply (Hal' _ _ _ eq_refl).
    + intros _. rewrite Efr. unfold HEADER_SIZE, b1. lia.
  - (* the block is taken whole *)
    unfold remove_free_block in Hal' |- *.
    rewrite Hfl in Hal' |- *. fold f in Hal' |- *.
    rewrite Z.eqb_refl in Hal' |- *. rewrite Hnx in Hal' |- *.
    set (m4 := set_padding (set_is_free m f false) f pad) in *.
    assert (Hs4 : hdr_size m4 f = s).
    { unfold m4. fields. repeat mem_step. reflexivity. }
    rewrite Hs4 in Hal' |- *.
    cbn [m_used with_list] in Hal' |- *.
    rewrite (wrap_small (24 + s)) in Hal' |- * by lia.
    rewrite (wrap_small (m_used a + (24 + s))) in Hal' |- * by lia.
    eexists. eexists. eexists. exists (bs ++ [f]).
    split; [reflexivity|].
    assert (Hfr4 : forall y, y < f -> m4 y = m y).
    { intros y Hy. unfold m4, set_padding, set_is_free.
      rewrite store8_frame by lia. apply store8_frame. lia. }
    assert (Efr : frontier (with_used (with_list a 0) (m_used a + (24 + s)))
                  = m_memory a + m_size a).
    { unfold frontier. cbn [m_memory m_used with_used with_list]. lia. }
    split; [|split; [|split; [|split; [|split]]]].
    + unfold packed. rewrite Efr.
      cbn [m_memory m_size m_free_list m_used with_used with_list].
      split.
      * apply tiles_snoc.
        -- apply (tiles_frame bs m); [|exact Ht].
           intros y Hy. apply Hfr4. lia.
        -- unfold m4. fields. repeat mem_step. reflexivity.
        -- rewrite Hs4. unfold HEADER_SIZE. lia.
      * right. split; [reflexivity|lia].
    + rewrite length_app. simpl. lia.
    + unfold same_region. simpl. auto.
    + cbn [m_used with_used]. lia.
    + apply (Hal' _ _ _ eq_refl).
    + intros _. rewrite Efr. unfold HEADER_SIZE. lia.
Qed.

(** A run of allocations on a packed heap. *)
Lemma heap_requests_packed (fuel : nat) (reqs : list (Z * Z)) :
  forall (a : t) (m : mem) (bs : list Z),
    0 < m_memory a ->
    m_memory a + m_size a + HEADER_SIZE + MIN_BLOCK_SIZE <= SIZE_MOD ->
    0 <= m_used a <= m_size a ->
    packed a m bs -> Forall (StackSpec.sane (m_size a)) reqs ->
    exists ps a1 m1 bs1,
      run (S fuel) (a, m) (requests reqs) = Some (a1, m1, ps) /\
      packed a1 m1 bs1 /\ (length bs1 <= length bs + length reqs)%nat /\
      same_region a1 a /\
      m_used a <= m_used a1 <= m_size a /\
      Forall2 (fun p r => p mod snd r = 0) ps reqs /\
      StackSpec.in_order (StackSpec.granted ps reqs) /\
      Forall (fun q => frontier a + HEADER_SIZE <= fst q /\
                       fst q + snd q <= frontier a1)
             (StackSpec.granted ps reqs).
Proof.
  induction reqs as [|[size alignment] rest IH];
    intros a m bs Hbase Hend Hused Hpacked Hall.
  - exists [], a, m, bs. simpl.
    split; [reflexivity|]. split; [exact Hpacked|]. split; [lia|].
    split; [apply same_region_refl|]. split; [lia|].
    split; [constructor|]. split; [exact I|constructor].
  - inversion Hall as [|r l Hsane Hrest]; subst.
    destruct (heap_allocate_packed fuel a m bs size alignment
                Hbase Hend Hused Hpacked Hsane)
      as [p [a1 [m1 [bs1 [Ea [Hp1 [Hl1 [Hr1 [Hu1 [Hal Hblk]]]]]]]]]].
    pose proof Hr1 as [R1 [R2 _]].
    destruct (IH a1 m1 bs1) as
      [ps [a2 [m2 [bs2 [Er [Hp2 [Hl2 [Hr2 [Hu2 [Hal2 [Hord Hbnd]]]]]]]]]]];
      try (rewrite ?R1, ?R2; first [assumption | lia]).
    exists (p :: ps), a2, m2, bs2.
    split.
    { cbn [requests map run step fst snd]. rewrite Ea.
      unfold requests in Er. rewrite Er. reflexivity. }
    split; [exact Hp2|]. split; [simpl length; lia|].
    split; [apply (same_region_trans _ a1); assumption|].
    split; [lia|]. split; [constructor; assumption|].
    assert (Hf01 : frontier a <= frontier a1)
      by (unfold frontier; rewrite R1; lia).
    assert (Hlater : Forall (fun q => frontier a + HEADER_SIZE <= fst q /\
                                      fst q + snd q <= frontier a2)
                            (StackSpec.granted ps rest)).
    { eapply Forall_impl; [|exact Hbnd]. intros q Hq. simpl in Hq. lia. }
    cbn [StackSpec.granted].
    destruct (Z.eqb_spec p 0) as [E|N]; [split; assumption|].
    destruct (Hblk N) as [Hlo Hhi].
    assert (Hf12 : frontier a1 <= frontier a2).
    { unfold frontier. destruct Hr2 as [R3 _]. rewrite R3. lia. }
    split.
    + cbn [StackSpec.in_order]. split; [|exact Hord].
      eapply Forall_impl; [|exact Hbnd]. intros q Hq. simpl in Hq.
      unfold HEADER_SIZE in *. lia.
    + constructor; [cbn [fst snd]; lia|exact Hlater].
Qed.

(** The heap the constructor leaves is packed. *)
Lemma heap_fresh_packed (buffer size : Z) (strategy : Strategy) (m0 : mem) :
  0 < buffer -> HEADER_SIZE < size < SIZE_MOD ->
  let a := fst (new_borrowed buffer size strategy m0) in
  let m := snd (new_borrowed buffer size strategy m0) in
  packed a m [] /\ m_memory a = buffer /\ m_size a = size /\ m_used a = 0.
Proof.
  intros Hb Hs. cbv zeta. unfold new_borrowed.
  destruct (Z.ltb_spec HEADER_SIZE size) as [_|]; [|lia].
  set (a0 := {| m_memory := buffer; m_size := size; m_used := 0;
                m_strategy := strategy; m_free_list := 0;
                m_owns_memory := false |}).
  pose proof (heap_init_block a0 m0 Hs) as [Hsz [Hnx [Hfr [Hpd Hframe]]]].
  cbn [m_memory m_size a0] in Hsz, Hnx, Hfr.
  assert (Ea : fst (init a0 m0) = with_used (with_list a0 buffer) 0)
    by reflexivity.
  rewrite Ea. cbn [m_memory m_size m_used with_used with_list a0].
  split; [|auto].
  unfold packed, frontier.
  cbn [m_memory m_size m_used m_free_list with_used with_list a0].
  replace (buffer + 0) with buffer by lia.
  split; [reflexivity|]. left.
  split; [reflexivity|]. split; [exact Hfr|]. split; [exact Hnx|].
  rewrite Hsz. lia.
Qed.

(** In every run of allocations on a freshly constructed heap, for
    requests that cannot wrap: no walk runs out of fuel, the blocks tile
    the region, and [used_size] is the sum over the blocks in use. *)
Theorem heap_allocations_keep_accounts (buffer size : Z)
    (strategy : Strategy) (m0 : mem) (fuel : nat) (reqs : list (Z * Z)) :
  0 < buffer -> HEADER_SIZE < size ->
  buffer + size + HEADER_SIZE + MIN_BLOCK_SIZE <= SIZE_MOD ->
  Forall (StackSpec.sane size) reqs ->
  exists ps a1 m1,
    run (S fuel) (new_borrowed buffer size strategy m0) (requests reqs)
    = Some (a1, m1, ps) /\
    length ps = length reqs /\
    accounted (S (length reqs)) a1 m1 = true /\
    used_size a1 <= total_size a1 /\ total_size a1 = size.
Proof.
  intros Hb Hs Hend Hall.
  assert (Hs2 : HEADER_SIZE < size < SIZE_MOD)
    by (unfold HEADER_SIZE, MIN_BLOCK_SIZE, SIZEOF_PTR in *; lia).
  pose proof (heap_fresh_packed buffer size strategy m0 Hb Hs2)
    as [Hp [Em [Ez Eu]]].
  destruct (heap_requests_packed fuel reqs _ _ [] ltac:(rewrite Em; exact Hb)
              ltac:(rewrite Em, Ez; exact Hend)
              ltac:(rewrite Eu, Ez; unfold HEADER_SIZE in *; lia)
              Hp ltac:(rewrite Ez; exact Hall))
    as [ps [a1 [m1 [bs1 [Er [Hp1 [Hl1 [Hr1 [Hu1 [Hal _]]]]]]]]]].
  rewrite <- surjective_pairing in Er.
  exists ps, a1, m1. split; [exact Er|].
  split; [apply (Forall2_length Hal)|].
  split; [apply (packed_accounted _ _ _ bs1 Hp1); simpl in Hl1; lia|].
  destruct Hr1 as [_ [R2 _]].
  unfold used_size, total_size. rewrite R2, Ez. split; [lia|reflexivity].
Qed.

(** A best-fit heap of 1024 bytes and five requests, one of size 0 and
    one that does not fit. *)
Lemma heap_allocations_keep_accounts_witness :
  let reqs := [(100, 16); (0, 8); (200, 32); (2000, 8); (300, 64)] in
  exists ps a1 m1,
    run 1 (new_borrowed 4096 1024 BestFit zeroed) (requests reqs)
    = Some (a1, m1, ps) /\
    length ps = length reqs /\
    accounted (S (length reqs)) a1 m1 = true /\
    used_size a1 <= total_size a1 /\ total_size a1 = 1024.
Proof.
  apply (heap_allocations_keep_accounts 4096 1024 BestFit zeroed 0
           [(100, 16); (0, 8); (200, 32); (2000, 8); (300, 64)]).
  - lia.
  - unfold HEADER_SIZE. lia.
  - unfold HEADER_SIZE, MIN_BLOCK_SIZE, SIZEOF_PTR, SIZE_MOD. lia.
  - repeat constructor; simpl; try discriminate.
Defined.



End HeapPacked.
